(** * Hotel GST impact calculator: the calculation block of [app.py]

    The Streamlit script [app.py] evaluates a handful of closed-form
    formulas on three sidebar inputs: the base ADR (a Python [float]),
    the ITC slider (an [int] in 0..12) and the absorption amount (an
    [int] in -5000..5000).  This file embeds those formulas once, over
    an interface of Python's numeric operators, and reads them in two
    arithmetics:

    - [B64]: IEEE 754 binary64, the arithmetic CPython's [float] runs
      on, through the Standard Library's executable specification
      [SpecFloat] (round to nearest, ties to even);
    - [Exact]: the rationals [Q], the reading the words
      "in exact arithmetic" ask for.

    The tiles and the recommendation print the results through
    f-strings; [Display] embeds them with the text they produce.

    The file has four parts: the embedding (the operators, the two
    arithmetics, the script and what the page shows); [B64Facts],
    [B64Order], [B64Div] and [B64Range], which prove from the bit-level
    definitions that the binary64 operators round the exact result
    correctly; the consequences for the script's values; and the
    properties of the script themselves.
*)

From Stdlib Require Import ZArith QArith Qabs Qpower Qround Qminmax Bool List Lia Lqa.
From Stdlib Require Import SpecFloat.
From Stdlib Require PrimFloat FloatOps.
From Stdlib Require Ascii String DecimalString.
Import ListNotations.

(** ** Python's numeric operators, as far as the script uses them *)

Class PyNum (T : Type) : Type := {
  (** [x + y], [x - y], [x * y] *)
  num_add : T -> T -> T;
  num_sub : T -> T -> T;
  num_mul : T -> T -> T;
  (** [x / y] for a divisor that is not zero; Python raises
      [ZeroDivisionError] on a zero divisor, see [truediv]. *)
  num_div : T -> T -> T;
  (** [x > y] and [x == 0] *)
  num_gt : T -> T -> bool;
  num_is_zero : T -> bool;
  (** the conversion of an [int] operand in mixed arithmetic, and of an
      integral literal such as [0.0] or [100.0] *)
  num_of_Z : Z -> T;
  (** a decimal literal [n/d] such as [0.12] *)
  num_lit : Z -> positive -> T
}.

Declare Scope py_scope.
Delimit Scope py_scope with py.
Infix "+" := num_add : py_scope.
Infix "-" := num_sub : py_scope.
Infix "*" := num_mul : py_scope.
Infix "/" := num_div : py_scope.

(** ** Binary64 *)

Module B64.

Definition prec : Z := 53.
Definition emax : Z := 1024.

Definition float : Type := spec_float.

Definition add : float -> float -> float := SFadd prec emax.
Definition sub : float -> float -> float := SFsub prec emax.
Definition mul : float -> float -> float := SFmul prec emax.
Definition div : float -> float -> float := SFdiv prec emax.
Definition ltb : float -> float -> bool := SFltb.
Definition leb : float -> float -> bool := SFleb.
Definition eqb : float -> float -> bool := SFeqb.

(** [float(n)] for a Python [int]: the nearest double, ties to even.
    Exact for [|n| <= 2^53]; CPython raises [OverflowError] where this
    yields an infinity, far outside the widgets' ranges.  A theorem
    that says the calculation block returns therefore takes the
    slider value and the absorption in the widgets' ranges. *)
Definition of_Z (n : Z) : float := binary_normalize prec emax n 0 false.

(** A decimal literal [n/d] denotes the double nearest to the rational
    [n/d]; a correctly rounded division of two exactly representable
    integers yields that double. *)
Definition lit (n : Z) (d : positive) : float := div (of_Z n) (of_Z (Zpos d)).

Definition zero : float := S754_zero false.

Definition one : float := S754_finite false 4503599627370496 (-52).

#[global] Instance num : PyNum float := {
  num_add := add;
  num_sub := sub;
  num_mul := mul;
  num_div := div;
  num_gt := fun x y => ltb y x;
  num_is_zero := fun x => eqb x zero;
  num_of_Z := of_Z;
  num_lit := lit
}.

(** A double that is neither negative, nor a negative zero, nor a NaN. *)
Definition nonneg (x : float) : bool :=
  match x with
  | S754_zero false | S754_infinity false | S754_finite false _ _ => true
  | _ => false
  end.

Definition is_finite (x : float) : bool :=
  match x with
  | S754_zero _ | S754_finite _ _ _ => true
  | _ => false
  end.

Definition valid (x : float) : bool := valid_binary prec emax x.

(** The rational a double stands for (0 for infinities and NaN). *)
Definition B2Q (x : float) : Q :=
  match x with
  | S754_finite s m e => inject_Z (cond_Zopp s (Zpos m)) * 2 ^ e
  | _ => 0
  end.

(** The same value as an integer, in units of [2^-1074] (the spacing of
    the subnormal doubles, of which every double is a multiple). *)
Definition scaled (x : float) : Z :=
  match x with
  | S754_finite s m e => (cond_Zopp s (Zpos m) * 2 ^ (e + 1074))%Z
  | _ => 0%Z
  end.

(** The least positive normal double [2^-1022], a bound [2^1023] below
    which no result overflows, and the unit roundoff [2^-53]. *)
Definition min_normal : Q := Eval vm_compute in (2 ^ (-1022))%Q.
Definition half_overflow : Q := Eval vm_compute in (2 ^ 1023)%Q.
Definition unit_roundoff : Q := 1 # 9007199254740992.

(** The rates between [1e-300] and [1e300]: a range around every rate a
    hotel can charge in which no intermediate result of the script
    underflows or overflows. *)
Definition rate_min : Q := Eval vm_compute in (1 # 10 ^ 300)%Q.
Definition rate_max : Q := Eval vm_compute in (inject_Z (10 ^ 300))%Q.

(** *** Round to nearest, ties to even, in closed form

    [SpecFloat] rounds by shifting the mantissa right one bit at a time
    while it tracks a round bit and a sticky bit.  The definitions
    below say what that computes; [B64Facts] proves that they do. *)

(** Where a remainder [r] of a division by [d] lies in its interval. *)
Definition loc_of (r d : Z) : location :=
  if (r =? 0)%Z then loc_Exact else loc_Inexact (2 * r ?= d)%Z.

(** [m / 2^n] rounded to the nearest integer, ties to even. *)
Definition rne_shr (m n : Z) : Z :=
  round_nearest_even (m / 2 ^ n)%Z (loc_of (m mod 2 ^ n)%Z (2 ^ n)%Z).

(** [n / d] rounded to the nearest integer, ties to even. *)
Definition rne_div (n d : Z) : Z :=
  round_nearest_even (n / d)%Z (loc_of (n mod d)%Z d).

(** The exponent of the doubles near a number of magnitude [2^e]. *)
Definition fexp (e : Z) : Z := SpecFloat.fexp prec emax e.

(** The mantissa of [m * 2^e] at that exponent, before a carry. *)
Definition round_q (m e : Z) : Z :=
  let f := fexp (Zdigits2 m + e) in
  if (e <? f)%Z then rne_shr m (f - e) else (m * 2 ^ (e - f))%Z.

(** Mantissa and exponent of the double nearest to [m * 2^e]. *)
Definition round_me (m e : Z) : Z * Z :=
  let f := fexp (Zdigits2 m + e) in
  if (round_q m e =? 2 ^ prec)%Z then ((2 ^ (prec - 1))%Z, (f + 1)%Z)
  else (round_q m e, f).

(** The double with that mantissa and exponent, or an infinity. *)
Definition build (s : bool) (me : Z * Z) : float :=
  match fst me with
  | Z0 => S754_zero s
  | Zpos q =>
      if (snd me <=? emax - prec)%Z then S754_finite s q (snd me)
      else S754_infinity s
  | Zneg _ => S754_nan
  end.

End B64.

(** ** Exact arithmetic *)

Module Exact.

#[global] Instance num : PyNum Q := {
  num_add := Qplus;
  num_sub := Qminus;
  num_mul := Qmult;
  num_div := Qdiv;
  num_gt := fun x y => negb (Qle_bool x y);
  num_is_zero := fun x => Qeq_bool x 0;
  num_of_Z := inject_Z;
  num_lit := fun n d => Qmake n d
}.

End Exact.

(** ** The script *)

Section Formulas.

Context {T : Type} `{PyNum T}.

Local Open Scope py_scope.

(** Python's [max(a, b)] on two arguments keeps [a] unless [b > a]. *)
Definition pymax (a b : T) : T := if num_gt b a then b else a.

(** [x / y], raising [ZeroDivisionError] ([None]) on a zero divisor. *)
Definition truediv (x y : T) : option T :=
  if num_is_zero y then None else Some (x / y).

(** Lines 13-18: the constants. *)
Definition OLD_OUTPUT_GST : T := num_lit 12 100.
Definition NEW_OUTPUT_GST : T := num_lit 5 100.
Definition GUEST_BREAK_EVEN_PP : T :=
  ((num_of_Z 1 + OLD_OUTPUT_GST) / (num_of_Z 1 + NEW_OUTPUT_GST) - num_of_Z 1)
  * num_of_Z 100.

(** Lines 67-80: the core formulas. *)
Definition guest_pay_old (base : T) : T := base * (num_of_Z 1 + OLD_OUTPUT_GST).

Definition guest_pay_new (base : T) : T := base * (num_of_Z 1 + NEW_OUTPUT_GST).

Definition profit_old (base itc_claim_points : T) : T :=
  base + base * (itc_claim_points / num_of_Z 100).

Definition profit_new (base_new : T) : T := base_new.

Definition neutral_adr (base_old itc_claim_points : T) : T :=
  base_old * (num_of_Z 1 + itc_claim_points / num_of_Z 100).

(** Line 90, as a function of the two variables it reads. *)
Definition chosen_base (old_profit absorb_rupees : T) : T :=
  pymax (num_of_Z 0) (old_profit - absorb_rupees).

(** The spec's [chosenRate]: lines 85 and 90 together. *)
Definition chosenRate (base itc_claim_points absorb_rupees : T) : T :=
  chosen_base (profit_old base itc_claim_points) absorb_rupees.

(** Lines 85-98: the calculation block on the three widget values. *)
Record outputs : Type := {
  old_profit : T;
  neutral_base : T;
  chosen : T;
  new_profit_chosen : T;
  guest_old : T;
  guest_new_chosen : T;
  guest_delta_chosen : T;
  adr_uplift_pct_neutral : T;
  adr_uplift_pct_chosen : T
}.

Definition uplift_pct (rate base_adr : T) : option T :=
  match truediv rate base_adr with
  | Some q => Some ((q - num_of_Z 1) * num_of_Z 100)
  | None => None
  end.

Definition calculation (base_adr : T) (itc_claim_pp absorb_rupees : Z)
  : option outputs :=
  let old_profit := profit_old base_adr (num_of_Z itc_claim_pp) in
  let neutral_base := neutral_adr base_adr (num_of_Z itc_claim_pp) in
  let chosen_base := chosen_base old_profit (num_of_Z absorb_rupees) in
  let new_profit_chosen := profit_new chosen_base in
  let guest_old := guest_pay_old base_adr in
  let guest_new_chosen := guest_pay_new chosen_base in
  let guest_delta_chosen := guest_new_chosen - guest_old in
  match uplift_pct neutral_base base_adr, uplift_pct chosen_base base_adr with
  | Some adr_uplift_pct_neutral, Some adr_uplift_pct_chosen =>
      Some {| old_profit := old_profit;
              neutral_base := neutral_base;
              chosen := chosen_base;
              new_profit_chosen := new_profit_chosen;
              guest_old := guest_old;
              guest_new_chosen := guest_new_chosen;
              guest_delta_chosen := guest_delta_chosen;
              adr_uplift_pct_neutral := adr_uplift_pct_neutral;
              adr_uplift_pct_chosen := adr_uplift_pct_chosen |}
  | _, _ => None
  end.

(** Lines 133-134: the chart's abscissae and ordinates. *)
Definition slabs : list Z := map Z.of_nat (seq 0 13).

Definition y_vals (base_adr : T) (absorb_rupees : Z) : list T :=
  map (fun pp =>
         guest_pay_new
           (pymax (num_of_Z 0)
                  (profit_old base_adr (num_of_Z pp) - num_of_Z absorb_rupees)))
      slabs.

End Formulas.

(** ** What the page shows

    The tiles and the recommendation print the outputs through
    f-strings.  [format_f] is CPython's [float.__format__] for the
    presentation type [f]: the decimal expansion of the exact value of
    the double, correctly rounded to the digits asked for, ties to
    even; the sign is that of the double, also for [-0.0].  Text is
    kept as UTF-8 bytes. *)

Module Display.

Import Ascii String.
Local Open Scope string_scope.

(** [q] rounded to the nearest integer, ties to even. *)
Definition round_half_even (q : Q) : Z :=
  let f := Qfloor q in
  match (q - inject_Z f ?= 1 # 2)%Q with
  | Lt => f
  | Eq => if Z.even f then f else (f + 1)%Z
  | Gt => (f + 1)%Z
  end.

(** The decimal digits of a natural number. *)
Definition decimal (n : Z) : string :=
  DecimalString.NilZero.string_of_uint (N.to_uint (Z.to_N n)).

(** The option [,] of a format specification: a comma before every
    group of three digits, counted from the right. *)
Fixpoint commas (reversed : list ascii) : list ascii :=
  match reversed with
  | a :: b :: c :: ((_ :: _) as rest) => a :: b :: c :: ","%char :: commas rest
  | _ => reversed
  end.

Definition group (digits : string) : string :=
  string_of_list_ascii (rev (commas (rev (list_ascii_of_string digits)))).

(** [r] in [width] digits, with leading zeros. *)
Fixpoint zero_pad (width : nat) (s : string) : string :=
  match width with
  | O => s
  | S w => if (String.length s <=? w)%nat then "0" ++ zero_pad w s else s
  end.

(** The digits of [n / 10^precision] in fixed-point notation. *)
Definition fixed (comma : bool) (precision : nat) (n : Z) : string :=
  let p := (10 ^ Z.of_nat precision)%Z in
  let whole := decimal (n / p) in
  let whole := if comma then group whole else whole in
  match precision with
  | O => whole
  | _ => whole ++ "." ++ zero_pad precision (decimal (n mod p))
  end.

Definition sign_of (plus negative : bool) : string :=
  if negative then "-" else if plus then "+" else "".

(** [format(x, spec)] for a format specification of type [f]:
    [plus] is the sign option [+], [comma] the grouping option [,]. *)
Definition format_f (plus comma : bool) (precision : nat) (x : B64.float)
  : string :=
  match x with
  | S754_nan => sign_of plus false ++ "nan"
  | S754_infinity s => sign_of plus s ++ "inf"
  | S754_zero s => sign_of plus s ++ fixed comma precision 0
  | S754_finite s m e =>
      sign_of plus s
      ++ fixed comma precision
           (round_half_even
              (inject_Z (Zpos m) * 2 ^ e * inject_Z (10 ^ Z.of_nat precision)))
  end.

(** Lines 103-119: the six tiles, in the order of the calls to
    [st.metric(label, value, delta=...)]. *)
Record metric : Type := {
  label : string;
  value : string;
  delta : option string
}.

Definition rupee : string := "₹".

Definition kpi_tiles (o : @outputs B64.float) : list metric :=
  [ {| label := "Guest Payable (Old)";
       value := rupee ++ format_f false true 0 (guest_old o);
       delta := None |};
    {| label := "Guest Payable (New @Chosen ADR)";
       value := rupee ++ format_f false true 0 (guest_new_chosen o);
       delta := Some (format_f true true 0 (guest_delta_chosen o)) |};
    {| label := "Profit (Old Regime)";
       value := rupee ++ format_f false true 0 (old_profit o);
       delta := None |};
    {| label := "Profit (New Regime @Chosen ADR)";
       value := rupee ++ format_f false true 0 (new_profit_chosen o);
       delta := Some (format_f true true 0
                        (B64.sub (new_profit_chosen o) (old_profit o))) |};
    {| label := "Neutral ADR (keeps profit same)";
       value := rupee ++ format_f false true 0 (neutral_base o);
       delta := Some (format_f false true 1 (adr_uplift_pct_neutral o) ++ "%") |};
    {| label := "Chosen ADR (after absorption/capture)";
       value := rupee ++ format_f false true 0 (chosen o);
       delta := Some (format_f false true 1 (adr_uplift_pct_chosen o) ++ "%") |} ].

(** Lines 164-177: the recommendation, as the Streamlit call made and
    its text. *)
Inductive banner : Type :=
| st_info (text : string)
| st_warning (text : string)
| st_success (text : string).

Definition recommendation (absorb_rupees : Z) (o : @outputs B64.float) : banner :=
  if (absorb_rupees >? 0)%Z then
    st_info
      ("You are absorbing ₹" ++ format_f false true 0 (B64.of_Z absorb_rupees)
       ++ "/night. Guest pays ₹" ++ format_f false true 0 (guest_new_chosen o)
       ++ " (Δ " ++ format_f true true 0 (guest_delta_chosen o)
       ++ " vs old). This helps competitiveness; monitor occupancy uplift.")
  else if (absorb_rupees <? 0)%Z then
    st_warning
      ("You are capturing "
       ++ format_f false true 0 (B64.of_Z (Z.abs absorb_rupees))
       ++ "/night more profit. Guest pays ₹"
       ++ format_f false true 0 (guest_new_chosen o)
       ++ " (Δ " ++ format_f true true 0 (guest_delta_chosen o)
       ++ " vs old). Validate demand at this ADR and bundle value if needed.")
  else
    st_success
      "Neutral posture: profit held constant. If competitors drop guest price, consider small positive absorption to defend share.".

End Display.

(** ** The doubles behind the literals

    The kernel's primitive floats are the machine's binary64; their
    literals are read as CPython reads them, to the nearest double. *)

Module Literals.

Import PrimFloat.

#[local] Set Warnings "-inexact-float".

Example OLD_OUTPUT_GST_double :
  OLD_OUTPUT_GST = FloatOps.Prim2SF 0.12%float.
Proof. vm_compute. reflexivity. Qed.

Example NEW_OUTPUT_GST_double :
  NEW_OUTPUT_GST = FloatOps.Prim2SF 0.05%float.
Proof. vm_compute. reflexivity. Qed.

Example GUEST_BREAK_EVEN_PP_double :
  GUEST_BREAK_EVEN_PP = FloatOps.Prim2SF 6.666666666666665%float.
Proof. vm_compute. reflexivity. Qed.

Example one_plus_old_double :
  B64.add (B64.of_Z 1) OLD_OUTPUT_GST = FloatOps.Prim2SF 1.12%float.
Proof. vm_compute. reflexivity. Qed.

Example one_plus_new_double :
  B64.add (B64.of_Z 1) NEW_OUTPUT_GST = FloatOps.Prim2SF 1.05%float.
Proof. vm_compute. reflexivity. Qed.

(** The rational bounds, in the words of their comments. *)
Example min_normal_value : B64.min_normal = (2 ^ (-1022))%Q.
Proof. vm_compute. reflexivity. Qed.

Example half_overflow_value : B64.half_overflow = (2 ^ 1023)%Q.
Proof. vm_compute. reflexivity. Qed.

Example rate_min_value : B64.rate_min = (1 # 10 ^ 300)%Q.
Proof. vm_compute. reflexivity. Qed.

Example rate_max_value : B64.rate_max = inject_Z (10 ^ 300).
Proof. vm_compute. reflexivity. Qed.

(** The formulas run on the machine's floats give what the embedding
    gives, here on the inputs the counterexamples below use. *)
Example machine_guest_pay_old_6000 :
  guest_pay_old (B64.of_Z 6000)
  = FloatOps.Prim2SF (6000 * (1 + 0.12))%float.
Proof. vm_compute. reflexivity. Qed.

Example machine_profit_old_300_11 :
  profit_old (B64.of_Z 300) (B64.of_Z 11)
  = FloatOps.Prim2SF (300 + 300 * (11 / 100))%float.
Proof. vm_compute. reflexivity. Qed.

Example machine_neutral_adr_300_11 :
  neutral_adr (B64.of_Z 300) (B64.of_Z 11)
  = FloatOps.Prim2SF (300 * (1 + 11 / 100))%float.
Proof. vm_compute. reflexivity. Qed.

End Literals.

(** ** What the binary64 operators compute

    [SpecFloat]'s addition, subtraction and multiplication return the
    double nearest to the exact result.  The lemmas below establish
    this from the bit-level definitions: first what the shifts leave,
    then the closed form of the rounding, its monotonicity, and the
    relative error [2^-53] in the normal range. *)

Module B64Facts.

Import B64.

Local Open Scope Z_scope.

Ltac forget_pow :=
  repeat match goal with
         | |- context [2 ^ ?e] =>
             let x := fresh "pw" in set (x := 2 ^ e) in *; clearbody x
         | H : context [2 ^ ?e] |- _ =>
             let x := fresh "pw" in set (x := 2 ^ e) in *; clearbody x
         end.

Lemma digits2_pos_bounds (p : positive) :
  2 ^ (Zpos (digits2_pos p) - 1) <= Zpos p < 2 ^ Zpos (digits2_pos p).
Proof.
  induction p as [p IH|p IH|]; cbn [digits2_pos].
  - rewrite Pos2Z.inj_succ, (Pos2Z.inj_xI p).
    replace (Z.succ (Zpos (digits2_pos p)) - 1) with (Z.succ (Zpos (digits2_pos p) - 1)) by lia.
    rewrite !Z.pow_succ_r by lia. forget_pow. lia.
  - rewrite Pos2Z.inj_succ, (Pos2Z.inj_xO p).
    replace (Z.succ (Zpos (digits2_pos p)) - 1) with (Z.succ (Zpos (digits2_pos p) - 1)) by lia.
    rewrite !Z.pow_succ_r by lia. forget_pow. lia.
  - cbn. lia.
Qed.

Lemma Zdigits2_bounds (m : Z) :
  0 < m -> 2 ^ (Zdigits2 m - 1) <= m < 2 ^ Zdigits2 m.
Proof.
  destruct m as [|p|p]; try lia. intros _. apply digits2_pos_bounds.
Qed.

Lemma Zdigits2_pos (m : Z) : 0 < m -> 0 < Zdigits2 m.
Proof. destruct m; cbn; lia. Qed.

Lemma Zdigits2_unique (m d : Z) :
  2 ^ (d - 1) <= m < 2 ^ d -> 0 < d -> Zdigits2 m = d.
Proof.
  intros [L U] Hd.
  assert (0 < m) by (pose proof (Z.pow_pos_nonneg 2 (d - 1)); lia).
  destruct (Zdigits2_bounds m H) as [L' U'].
  pose proof (Zdigits2_pos m H) as Hd'.
  destruct (Z.lt_trichotomy (Zdigits2 m) d) as [C|[C|C]]; [|exact C|].
  - assert (2 ^ Zdigits2 m <= 2 ^ (d - 1)) by (apply Z.pow_le_mono_r; lia). lia.
  - assert (2 ^ d <= 2 ^ (Zdigits2 m - 1)) by (apply Z.pow_le_mono_r; lia). lia.
Qed.

Lemma iter_pos_nat {A} (f : A -> A) (p : positive) (x : A) :
  iter_pos f p x = Nat.iter (Pos.to_nat p) f x.
Proof.
  revert x; induction p as [p IH|p IH|]; intros x; cbn [iter_pos].
  - rewrite !IH, Pos2Nat.inj_xI.
    replace (2 * Pos.to_nat p)%nat with (Pos.to_nat p + Pos.to_nat p)%nat by lia.
    now rewrite Nat.iter_succ_r, Nat.iter_add.
  - rewrite !IH, Pos2Nat.inj_xO.
    replace (2 * Pos.to_nat p)%nat with (Pos.to_nat p + Pos.to_nat p)%nat by lia.
    now rewrite Nat.iter_add.
  - reflexivity.
Qed.

(** One right shift: if the record holds [m / 2^k] and the location of
    [m mod 2^k] in [0, 2^k), it then holds the same for [k + 1]. *)
Lemma shr_1_spec (rec : shr_record) (m k : Z) :
  0 <= m -> 0 <= k ->
  shr_m rec = m / 2 ^ k ->
  loc_of_shr_record rec = loc_of (m mod 2 ^ k) (2 ^ k) ->
  shr_m (shr_1 rec) = m / 2 ^ (k + 1)
  /\ loc_of_shr_record (shr_1 rec) = loc_of (m mod 2 ^ (k + 1)) (2 ^ (k + 1)).
Proof.
  intros Hm Hk Hq Hl.
  assert (HP : 0 < 2 ^ k) by (apply Z.pow_pos_nonneg; lia).
  rewrite Z.pow_add_r, Z.pow_1_r by lia.
  rewrite <- Z.div_div by lia.
  rewrite Z.rem_mul_r by lia.
  pose proof (Z.mod_pos_bound m (2 ^ k) HP) as Hr.
  pose proof (Z.div_pos m (2 ^ k) Hm HP) as Ha.
  set (a := m / 2 ^ k) in *. set (r := m mod 2 ^ k) in *. set (P := 2 ^ k) in *.
  clearbody a r P.
  destruct rec as [mm rb sb]; cbn [shr_m] in Hq; subst mm.
  assert (Ha2 : a = 2 * (a / 2) + a mod 2) by (apply Z.div_mod; lia).
  pose proof (Z.mod_pos_bound a 2 ltac:(lia)) as Hb.
  set (q := a / 2) in *. set (b := a mod 2) in *. clearbody q b.
  unfold loc_of in *.
  destruct a as [|[p|p|]|p]; try lia;
    (assert (Hb' : b = 0 \/ b = 1) by lia);
    (destruct Hb' as [-> | ->]; [try lia | try lia]);
    rewrite ?Z.mul_0_r, ?Z.mul_1_r, ?Z.add_0_r in *;
    destruct rb, sb; cbn [shr_1 shr_m loc_of_shr_record orb] in *;
    (split; [lia|]);
    repeat match goal with
           | H : context [?x =? ?y] |- _ => destruct (Z.eqb_spec x y)
           | |- context [?x =? ?y] => destruct (Z.eqb_spec x y)
           end; try discriminate;
    repeat match goal with
           | H : context [?x ?= ?y] |- _ => destruct (Z.compare_spec x y)
           | |- context [?x ?= ?y] => destruct (Z.compare_spec x y)
           end; try discriminate; try reflexivity; exfalso; lia.
Qed.

Lemma shr_iter_spec (m : Z) (k : nat) :
  0 <= m ->
  shr_m (Nat.iter k shr_1 (Build_shr_record m false false)) = m / 2 ^ Z.of_nat k
  /\ loc_of_shr_record (Nat.iter k shr_1 (Build_shr_record m false false))
     = loc_of (m mod 2 ^ Z.of_nat k) (2 ^ Z.of_nat k).
Proof.
  intros Hm. induction k as [|k [IH1 IH2]].
  - cbn [Nat.iter Z.of_nat shr_m loc_of_shr_record].
    rewrite Z.pow_0_r, Z.div_1_r, Z.mod_1_r. split; reflexivity.
  - rewrite Nat2Z.inj_succ, <- Z.add_1_r. cbn [Nat.iter].
    apply shr_1_spec; auto; lia.
Qed.

(** What [shr] leaves in the record and in the exponent. *)
Lemma shr_spec (m e n : Z) :
  0 <= m -> 0 <= n ->
  let res := shr (Build_shr_record m false false) e n in
  snd res = e + n
  /\ shr_m (fst res) = m / 2 ^ n
  /\ round_nearest_even (shr_m (fst res)) (loc_of_shr_record (fst res))
     = rne_shr m n.
Proof.
  intros Hm Hn. unfold rne_shr. destruct n as [|p|p]; try lia; cbn [shr fst snd].
  - cbn [shr_m loc_of_shr_record].
    rewrite Z.pow_0_r, Z.div_1_r, Z.mod_1_r, Z.add_0_r. repeat split.
  - rewrite iter_pos_nat.
    destruct (shr_iter_spec m (Pos.to_nat p) Hm) as [H1 H2].
    rewrite positive_nat_Z in H1, H2. rewrite H1, H2. repeat split.
Qed.

Lemma shr_nonpos (r : shr_record) (e n : Z) : n <= 0 -> shr r e n = (r, e).
Proof. destruct n; try lia; reflexivity. Qed.

(** ** Rounding a quotient by a power of two to nearest, ties to even *)

Lemma rne_shr_0 (m : Z) : rne_shr m 0 = m.
Proof. unfold rne_shr. now rewrite Z.pow_0_r, Z.div_1_r, Z.mod_1_r. Qed.

Ltac rne_cases :=
  unfold round_nearest_even, loc_of;
  repeat match goal with
         | |- context [?x =? ?y] => destruct (Z.eqb_spec x y)
         end;
  repeat match goal with
         | |- context [?x ?= ?y] => destruct (Z.compare_spec x y)
         end;
  repeat match goal with
         | |- context [Z.even ?x] => destruct (Z.even x) eqn:?
         end.

Lemma rne_shr_bounds (m n : Z) :
  0 <= n ->
  m / 2 ^ n <= rne_shr m n <= m / 2 ^ n + 1
  /\ - 2 ^ n <= 2 * (rne_shr m n * 2 ^ n - m) <= 2 ^ n.
Proof.
  intros Hn.
  assert (HP : 0 < 2 ^ n) by (apply Z.pow_pos_nonneg; lia).
  pose proof (Z.div_mod m (2 ^ n) ltac:(lia)) as Hdm.
  pose proof (Z.mod_pos_bound m (2 ^ n) HP) as Hr.
  unfold rne_shr.
  set (q := m / 2 ^ n) in *. set (r := m mod 2 ^ n) in *. set (P := 2 ^ n) in *.
  clearbody q r P.
  rne_cases; nia.
Qed.

Lemma rne_shr_mono (m1 m2 n : Z) :
  0 <= n -> m1 <= m2 -> rne_shr m1 n <= rne_shr m2 n.
Proof.
  intros Hn Hle.
  assert (HP : 0 < 2 ^ n) by (apply Z.pow_pos_nonneg; lia).
  pose proof (Z.div_mod m1 (2 ^ n) ltac:(lia)) as Hdm1.
  pose proof (Z.mod_pos_bound m1 (2 ^ n) HP) as Hr1.
  pose proof (Z.div_mod m2 (2 ^ n) ltac:(lia)) as Hdm2.
  pose proof (Z.mod_pos_bound m2 (2 ^ n) HP) as Hr2.
  pose proof (Z.div_le_mono m1 m2 (2 ^ n) HP Hle) as Hq.
  unfold rne_shr.
  set (q1 := m1 / 2 ^ n) in *. set (r1 := m1 mod 2 ^ n) in *.
  set (q2 := m2 / 2 ^ n) in *. set (r2 := m2 mod 2 ^ n) in *.
  set (P := 2 ^ n) in *. clearbody q1 r1 q2 r2 P.
  destruct (Z.eq_dec q1 q2) as [->|Hne].
  - rne_cases; try lia; congruence.
  - assert (q1 + 1 <= q2) by lia. rne_cases; lia.
Qed.

Lemma rne_shr_exact (m n : Z) : 0 <= n -> rne_shr (m * 2 ^ n) n = m.
Proof.
  intros Hn.
  assert (HP : 0 < 2 ^ n) by (apply Z.pow_pos_nonneg; lia).
  unfold rne_shr. rewrite Z.div_mul, Z.mod_mul by lia. reflexivity.
Qed.

Lemma rne_shr_cancel (m n j : Z) :
  0 <= n -> 0 <= j -> rne_shr (m * 2 ^ j) (n + j) = rne_shr m n.
Proof.
  intros Hn Hj.
  assert (HP : 0 < 2 ^ n) by (apply Z.pow_pos_nonneg; lia).
  assert (HJ : 0 < 2 ^ j) by (apply Z.pow_pos_nonneg; lia).
  unfold rne_shr. rewrite Z.pow_add_r by lia.
  rewrite Z.div_mul_cancel_r, Z.mul_mod_distr_r by lia.
  f_equal. unfold loc_of.
  pose proof (Z.mod_pos_bound m (2 ^ n) HP) as Hr.
  set (r := m mod 2 ^ n) in *. set (P := 2 ^ n) in *. set (J := 2 ^ j) in *.
  clearbody r P J.
  destruct (Z.eqb_spec r 0) as [->|Hr0].
  - reflexivity.
  - destruct (Z.eqb_spec (r * J) 0) as [E|_]; [nia|].
    f_equal. rewrite Z.mul_assoc. symmetry. apply Zmult_compare_compat_r. lia.
Qed.

(** ** The rounding of [m * 2^e] in closed form *)

Lemma fexp_spec (e : Z) : fexp e = Z.max (e - 53) (-1074).
Proof. reflexivity. Qed.

Lemma pow2_pos (n : Z) : 0 <= n -> 0 < 2 ^ n.
Proof. intros; apply Z.pow_pos_nonneg; lia. Qed.

Lemma Zdigits2_le (m d : Z) : 0 <= m < 2 ^ d -> 0 <= d -> Zdigits2 m <= d.
Proof.
  intros [L U] Hd. destruct (Z.eq_dec m 0) as [->|Hne]; [cbn; lia|].
  destruct (Zdigits2_bounds m ltac:(lia)) as [L' U'].
  pose proof (Zdigits2_pos m ltac:(lia)).
  destruct (Z_le_gt_dec (Zdigits2 m) d) as [C|C]; [exact C|].
  assert (2 ^ d <= 2 ^ (Zdigits2 m - 1)) by (apply Z.pow_le_mono_r; lia). lia.
Qed.

Lemma Zdigits2_mul_pow (m j : Z) :
  0 < m -> 0 <= j -> Zdigits2 (m * 2 ^ j) = Zdigits2 m + j.
Proof.
  intros Hm Hj.
  destruct (Zdigits2_bounds m Hm) as [L U].
  pose proof (Zdigits2_pos m Hm) as Hd.
  pose proof (pow2_pos j Hj) as HJ.
  apply Zdigits2_unique; [|lia].
  replace (Zdigits2 m + j - 1) with (Zdigits2 m - 1 + j) by lia.
  rewrite !Z.pow_add_r by lia. nia.
Qed.

(** The quotient rounded by [round_me] fits in [prec + 1] bits. *)
Lemma rne_shr_le_pow (m n : Z) :
  0 < m -> 0 <= n -> Zdigits2 m - n <= prec -> rne_shr m n <= 2 ^ prec.
Proof.
  intros Hm Hn Hd.
  destruct (rne_shr_bounds m n Hn) as [[_ U] _].
  destruct (Zdigits2_bounds m Hm) as [_ Um].
  assert (m / 2 ^ n < 2 ^ prec); [|lia].
  apply Z.div_lt_upper_bound; [now apply pow2_pos|].
  rewrite <- Z.pow_add_r by (unfold prec; lia).
  assert (2 ^ Zdigits2 m <= 2 ^ (n + prec)) by (apply Z.pow_le_mono_r; lia).
  lia.
Qed.

Lemma rne_shr_nonneg (m n : Z) : 0 <= m -> 0 <= n -> 0 <= rne_shr m n.
Proof.
  intros Hm Hn. destruct (rne_shr_bounds m n Hn) as [[L _] _].
  pose proof (Z.div_pos m (2 ^ n) Hm (pow2_pos n Hn)). lia.
Qed.

(** [SpecFloat]'s rounding of an aligned mantissa is [round_me]. *)
Lemma binary_round_aux_eq (s : bool) (m : positive) (e : Z) :
  e <= fexp (Zdigits2 (Zpos m) + e) ->
  binary_round_aux prec emax s (Zpos m) e loc_Exact
  = build s (round_me (Zpos m) e).
Proof.
  intros He.
  unfold binary_round_aux, shr_fexp, round_me, round_q.
  change (SpecFloat.fexp prec emax) with fexp. cbn [shr_record_of_loc].
  set (f := fexp (Zdigits2 (Zpos m) + e)) in *.
  assert (Hf : -1074 <= f) by (unfold f; rewrite fexp_spec; lia).
  assert (Hfd : Zdigits2 (Zpos m) - (f - e) <= prec)
    by (unfold f, prec; rewrite fexp_spec; lia).
  destruct (shr_spec (Zpos m) e (f - e) ltac:(lia) ltac:(lia)) as (E1 & _ & E2).
  destruct (shr (Build_shr_record (Zpos m) false false) e (f - e)) as [rec e'].
  cbn [fst snd] in E1, E2. rewrite E2. subst e'.
  replace (e + (f - e)) with f by lia.
  assert (Hq : (if e <? f then rne_shr (Zpos m) (f - e) else Zpos m * 2 ^ (e - f))
               = rne_shr (Zpos m) (f - e)).
  { destruct (Z.ltb_spec e f); [reflexivity|].
    replace f with e by lia. now rewrite !Z.sub_diag, rne_shr_0, Z.pow_0_r, Z.mul_1_r. }
  rewrite Hq. clear Hq.
  pose proof (rne_shr_le_pow (Zpos m) (f - e) ltac:(lia) ltac:(lia) Hfd) as Hle.
  pose proof (rne_shr_nonneg (Zpos m) (f - e) ltac:(lia) ltac:(lia)) as Hge.
  set (q := rne_shr (Zpos m) (f - e)) in *. clearbody q.
  destruct (Z.eqb_spec q (2 ^ prec)) as [->|Hne].
  - (* the carry: one more shift *)
    replace (fexp (Zdigits2 (2 ^ prec) + f) - f) with 1
      by (rewrite fexp_spec; change (Zdigits2 (2 ^ prec)) with 54; lia).
    reflexivity.
  - assert (Hd : Zdigits2 q <= prec) by (apply Zdigits2_le; unfold prec in *; lia).
    rewrite shr_nonpos by (rewrite fexp_spec; unfold prec in Hd; lia).
    reflexivity.
Qed.

(** Rounding depends on the value [m * 2^e] only. *)
Lemma round_me_shift (m e j : Z) :
  0 < m -> 0 <= j -> round_me (m * 2 ^ j) (e - j) = round_me m e.
Proof.
  intros Hm Hj. unfold round_me, round_q.
  rewrite Zdigits2_mul_pow by lia.
  replace (Zdigits2 m + j + (e - j)) with (Zdigits2 m + e) by lia.
  set (f := fexp (Zdigits2 m + e)).
  assert (Hq : (if e - j <? f then rne_shr (m * 2 ^ j) (f - (e - j))
                else m * 2 ^ j * 2 ^ (e - j - f))
               = (if e <? f then rne_shr m (f - e) else m * 2 ^ (e - f))).
  { destruct (Z.ltb_spec (e - j) f) as [C1|C1], (Z.ltb_spec e f) as [C2|C2];
      try lia.
    - replace (f - (e - j)) with (f - e + j) by lia.
      apply rne_shr_cancel; lia.
    - replace (m * 2 ^ j) with (m * 2 ^ (e - f) * 2 ^ (f - (e - j))).
      + apply rne_shr_exact; lia.
      + rewrite <- Z.mul_assoc, <- Z.pow_add_r by lia. do 2 f_equal. lia.
    - rewrite <- Z.mul_assoc, <- Z.pow_add_r by lia. do 2 f_equal. lia. }
  now rewrite Hq.
Qed.

Lemma iter_xO (d m : positive) :
  Zpos (Pos.iter xO m d) = Zpos m * 2 ^ Zpos d.
Proof.
  induction d as [|d IH] using Pos.peano_ind.
  - cbn [Pos.iter]. rewrite Z.pow_1_r. lia.
  - rewrite Pos.iter_succ, Pos2Z.inj_succ, Z.pow_succ_r by lia.
    rewrite (Pos2Z.inj_xO (Pos.iter xO m d)), IH. lia.
Qed.

Lemma shl_align_spec (m : positive) (e e' : Z) :
  let res := shl_align m e e' in
  (e' < e -> snd res = e' /\ Zpos (fst res) = Zpos m * 2 ^ (e - e'))
  /\ (e <= e' -> res = (m, e)).
Proof.
  unfold shl_align. destruct (e' - e) as [|p|p] eqn:E; cbn [fst snd]; split;
    intros C; try lia; try reflexivity.
  split; [reflexivity|]. rewrite iter_xO. do 2 f_equal. lia.
Qed.

(** So is its rounding of any mantissa, once aligned. *)
Lemma binary_round_eq (s : bool) (m : positive) (e : Z) :
  binary_round prec emax s m e = build s (round_me (Zpos m) e).
Proof.
  unfold binary_round. change (SpecFloat.fexp prec emax) with fexp.
  change (Zpos (digits2_pos m)) with (Zdigits2 (Zpos m)).
  set (f := fexp (Zdigits2 (Zpos m) + e)).
  destruct (shl_align_spec m e f) as [Hlt Hge].
  destruct (Z_lt_le_dec f e) as [C|C].
  - destruct (Hlt C) as [E1 E2].
    destruct (shl_align m e f) as [mz ez]. cbn [fst snd] in E1, E2. subst ez.
    assert (Hd : Zdigits2 (Zpos mz) + f = Zdigits2 (Zpos m) + e).
    { rewrite E2, Zdigits2_mul_pow by lia. lia. }
    rewrite binary_round_aux_eq by (rewrite Hd; fold f; lia).
    rewrite E2. replace f with (e - (e - f)) at 2 by lia.
    now rewrite round_me_shift by lia.
  - rewrite (Hge C). apply binary_round_aux_eq. fold f. exact C.
Qed.

Lemma binary_normalize_eq (n e : Z) (sz : bool) :
  binary_normalize prec emax n e sz
  = match n with
    | Z0 => S754_zero sz
    | Zpos _ => build false (round_me n e)
    | Zneg p => build true (round_me (Zpos p) e)
    end.
Proof. destruct n; cbn [binary_normalize]; auto using binary_round_eq. Qed.

(** ** What [round_me] returns *)

Lemma round_me_unfold (m e : Z) :
  round_me m e
  = let f := fexp (Zdigits2 m + e) in
    if round_q m e =? 2 ^ prec then (2 ^ (prec - 1), f + 1) else (round_q m e, f).
Proof. reflexivity. Qed.

Lemma div_pow_ge (m n d : Z) :
  0 <= n -> 0 <= d -> 2 ^ (n + d) <= m -> 2 ^ d <= m / 2 ^ n.
Proof.
  intros Hn Hd H. apply Z.div_le_lower_bound; [now apply pow2_pos|].
  now rewrite <- Z.pow_add_r by lia.
Qed.

Lemma round_q_bounds (m e : Z) :
  0 < m ->
  let f := fexp (Zdigits2 m + e) in
  0 <= round_q m e <= 2 ^ prec
  /\ (-1074 <= Zdigits2 m + e - 53 -> 2 ^ (prec - 1) <= round_q m e)
  /\ (f <= e -> round_q m e < 2 ^ prec).
Proof.
  intros Hm f. unfold round_q. fold f.
  destruct (Zdigits2_bounds m Hm) as [L U].
  pose proof (Zdigits2_pos m Hm) as HD.
  assert (Hf : f = Z.max (Zdigits2 m + e - 53) (-1074)) by reflexivity.
  destruct (Z.ltb_spec e f) as [C|C].
  - destruct (rne_shr_bounds m (f - e) ltac:(lia)) as [[Lq Uq] _].
    pose proof (rne_shr_le_pow m (f - e) Hm ltac:(lia) ltac:(unfold prec; lia)).
    pose proof (rne_shr_nonneg m (f - e) ltac:(lia) ltac:(lia)).
    repeat split; try lia.
    intros Hn.
    assert (2 ^ (prec - 1) <= m / 2 ^ (f - e)); [|lia].
    apply div_pow_ge; try (unfold prec; lia).
    replace (f - e + (prec - 1)) with (Zdigits2 m - 1) by (unfold prec; lia).
    exact L.
  - pose proof (pow2_pos (e - f) ltac:(lia)) as HP.
    assert (Hup : m * 2 ^ (e - f) < 2 ^ prec).
    { assert (2 ^ Zdigits2 m * 2 ^ (e - f) <= 2 ^ prec).
      { rewrite <- Z.pow_add_r by lia. apply Z.pow_le_mono_r; unfold prec; lia. }
      nia. }
    repeat split; try nia.
    intros Hn.
    replace (prec - 1) with (Zdigits2 m - 1 + (e - f)) by (unfold prec; lia).
    rewrite Z.pow_add_r by lia. nia.
Qed.

(** The result is a canonical mantissa and exponent. *)
Lemma round_me_canonical (m e : Z) :
  0 < m ->
  0 <= fst (round_me m e) < 2 ^ prec
  /\ -1074 <= snd (round_me m e)
  /\ (0 < fst (round_me m e) ->
      fexp (Zdigits2 (fst (round_me m e)) + snd (round_me m e))
      = snd (round_me m e)).
Proof.
  intros Hm. rewrite round_me_unfold. cbv zeta.
  destruct (round_q_bounds m e Hm) as ([Lq Uq] & Hn & _).
  set (f := fexp (Zdigits2 m + e)) in *.
  assert (Hf : -1074 <= f) by (unfold f; rewrite fexp_spec; lia).
  set (q := round_q m e) in *. clearbody q.
  destruct (Z.eqb_spec q (2 ^ prec)) as [->|Hne]; cbn [fst snd].
  - repeat split; try (cbn; lia).
    intros _. change (Zdigits2 (2 ^ (prec - 1))) with 53. rewrite fexp_spec. lia.
  - repeat split; try lia. intros Hq.
    assert (Hd : Zdigits2 q <= 53) by (apply Zdigits2_le; unfold prec in *; lia).
    rewrite fexp_spec. destruct (Z.eq_dec f (-1074)) as [E|E]; [lia|].
    assert (Hfn : -1074 <= Zdigits2 m + e - 53)
      by (unfold f in E; rewrite fexp_spec in E; lia).
    assert (Zdigits2 q = 53); [|lia].
    apply Zdigits2_unique; [|lia]. split; [now apply Hn|]; unfold prec in *; lia.
Qed.

Lemma build_valid (s : bool) (m e : Z) :
  0 < m -> valid_binary prec emax (build s (round_me m e)) = true.
Proof.
  intros Hm. destruct (round_me_canonical m e Hm) as (B & _ & C).
  unfold build. destruct (round_me m e) as [q f]. cbn [fst snd] in *.
  destruct q as [|q|q]; try reflexivity.
  destruct (Z.leb_spec f (emax - prec)) as [L|L]; [|reflexivity].
  cbn [valid_binary]. unfold bounded, canonical_mantissa.
  change (SpecFloat.fexp prec emax) with fexp.
  change (Zpos (digits2_pos q)) with (Zdigits2 (Zpos q)).
  rewrite C by lia. rewrite Z.eqb_refl. now apply Z.leb_le.
Qed.

Lemma valid_finite_inv (s : bool) (m : positive) (e : Z) :
  valid_binary prec emax (S754_finite s m e) = true ->
  fexp (Zdigits2 (Zpos m) + e) = e /\ e <= 971.
Proof.
  cbn [valid_binary]. unfold bounded, canonical_mantissa.
  intros H. apply andb_true_iff in H. destruct H as [H1 H2].
  apply Z.eqb_eq in H1. apply Z.leb_le in H2. split; [exact H1|exact H2].
Qed.

(** A double is its own rounding. *)
Lemma build_round_me_id (s : bool) (m : positive) (e : Z) :
  valid_binary prec emax (S754_finite s m e) = true ->
  build s (round_me (Zpos m) e) = S754_finite s m e.
Proof.
  intros V. destruct (valid_finite_inv s m e V) as [C B].
  destruct (round_q_bounds (Zpos m) e ltac:(lia)) as (_ & _ & Hlt).
  rewrite round_me_unfold. cbv zeta. rewrite C in *.
  assert (Hq : round_q (Zpos m) e = Zpos m).
  { unfold round_q. rewrite C, Z.ltb_irrefl, Z.sub_diag, Z.pow_0_r. lia. }
  specialize (Hlt ltac:(lia)). rewrite Hq in *.
  destruct (Z.eqb_spec (Zpos m) (2 ^ prec)) as [E|_]; [lia|].
  unfold build; cbn [fst snd].
  destruct (Z.leb_spec e (emax - prec)); [reflexivity|unfold emax, prec in *; lia].
Qed.

(** ** Rounding is monotone *)

Lemma Zdigits2_mono (m1 m2 : Z) :
  0 < m1 <= m2 -> Zdigits2 m1 <= Zdigits2 m2.
Proof.
  intros [H1 H2].
  destruct (Zdigits2_bounds m1 H1) as [L1 _].
  destruct (Zdigits2_bounds m2 ltac:(lia)) as [_ U2].
  pose proof (Zdigits2_pos m1 H1). pose proof (Zdigits2_pos m2 ltac:(lia)).
  destruct (Z_le_gt_dec (Zdigits2 m1) (Zdigits2 m2)) as [C|C]; [exact C|].
  assert (2 ^ Zdigits2 m2 <= 2 ^ (Zdigits2 m1 - 1)) by (apply Z.pow_le_mono_r; lia).
  lia.
Qed.

Lemma round_q_mono (m1 m2 e : Z) :
  0 < m1 <= m2 ->
  fexp (Zdigits2 m1 + e) = fexp (Zdigits2 m2 + e) ->
  round_q m1 e <= round_q m2 e.
Proof.
  intros Hm Hf. unfold round_q. rewrite Hf.
  set (f := fexp (Zdigits2 m2 + e)).
  destruct (Z.ltb_spec e f) as [C|C].
  - apply rne_shr_mono; lia.
  - pose proof (pow2_pos (e - f) ltac:(lia)). nia.
Qed.

Lemma round_me_normal (m e : Z) :
  0 < m -> -1074 < snd (round_me m e) -> 2 ^ (prec - 1) <= fst (round_me m e).
Proof.
  intros Hm. rewrite round_me_unfold. cbv zeta.
  destruct (round_q_bounds m e Hm) as (_ & Hn & _).
  destruct (Z.eqb_spec (round_q m e) (2 ^ prec)); cbn [fst snd]; intros H.
  - lia.
  - apply Hn. rewrite fexp_spec in H. lia.
Qed.

(** Results are ordered first by exponent, then by mantissa. *)
Lemma round_me_mono (m1 m2 e : Z) :
  0 < m1 <= m2 ->
  (snd (round_me m1 e) < snd (round_me m2 e) /\ 0 < fst (round_me m2 e))
  \/ (snd (round_me m1 e) = snd (round_me m2 e)
      /\ fst (round_me m1 e) <= fst (round_me m2 e)).
Proof.
  intros Hm.
  pose proof (Zdigits2_mono m1 m2 Hm) as HD.
  pose proof (round_me_normal m2 e ltac:(lia)) as Hn2.
  destruct (round_q_bounds m1 e ltac:(lia)) as ([L1 U1] & _ & _).
  destruct (round_q_bounds m2 e ltac:(lia)) as ([L2 U2] & N2 & _).
  assert (Hf : fexp (Zdigits2 m1 + e) <= fexp (Zdigits2 m2 + e))
    by (rewrite !fexp_spec; lia).
  assert (Hf1 : -1074 <= fexp (Zdigits2 m1 + e)) by (rewrite fexp_spec; lia).
  pose proof (round_q_mono m1 m2 e Hm) as Hq.
  revert Hn2. rewrite !round_me_unfold. cbv zeta.
  set (f1 := fexp (Zdigits2 m1 + e)) in *. set (f2 := fexp (Zdigits2 m2 + e)) in *.
  set (q1 := round_q m1 e) in *. set (q2 := round_q m2 e) in *.
  clearbody f1 f2 q1 q2.
  assert (P52 : 2 ^ (prec - 1) = 4503599627370496) by reflexivity.
  assert (P53 : 2 ^ prec = 9007199254740992) by reflexivity.
  rewrite P52, P53 in *.
  destruct (Z.eqb_spec q1 9007199254740992), (Z.eqb_spec q2 9007199254740992);
    cbn [fst snd]; intros Hn2; lia.
Qed.

Lemma build_false_mono (m1 m2 e : Z) :
  0 < m1 <= m2 ->
  SFleb (build false (round_me m1 e)) (build false (round_me m2 e)) = true.
Proof.
  intros Hm.
  destruct (round_me_canonical m1 e ltac:(lia)) as ([L1 _] & _ & _).
  destruct (round_me_canonical m2 e ltac:(lia)) as ([L2 _] & _ & _).
  pose proof (round_me_mono m1 m2 e Hm) as H.
  unfold build. destruct (round_me m1 e) as [q1 f1], (round_me m2 e) as [q2 f2].
  cbn [fst snd] in *.
  destruct q1 as [|q1|q1], q2 as [|q2|q2]; try lia; try reflexivity;
    destruct (Z.leb_spec f1 (emax - prec)), (Z.leb_spec f2 (emax - prec));
    try reflexivity; try lia.
  unfold SFleb, SFcompare.
  destruct H as [[H _]|[-> H]].
  - apply Z.compare_lt_iff in H. now rewrite H.
  - rewrite Z.compare_refl. change (Pos.compare_cont Eq q1 q2) with (Zpos q1 ?= Zpos q2).
    destruct (Z.compare_spec (Zpos q1) (Zpos q2)); try reflexivity; lia.
Qed.

Lemma build_true_mono (m1 m2 e : Z) :
  0 < m1 <= m2 ->
  SFleb (build true (round_me m2 e)) (build true (round_me m1 e)) = true.
Proof.
  intros Hm.
  destruct (round_me_canonical m1 e ltac:(lia)) as ([L1 _] & _ & _).
  destruct (round_me_canonical m2 e ltac:(lia)) as ([L2 _] & _ & _).
  pose proof (round_me_mono m1 m2 e Hm) as H.
  unfold build. destruct (round_me m1 e) as [q1 f1], (round_me m2 e) as [q2 f2].
  cbn [fst snd] in *.
  destruct q1 as [|q1|q1], q2 as [|q2|q2]; try lia; try reflexivity;
    destruct (Z.leb_spec f1 (emax - prec)), (Z.leb_spec f2 (emax - prec));
    try reflexivity; try lia.
  unfold SFleb, SFcompare.
  destruct H as [[H _]|[-> H]].
  - apply Z.compare_gt_iff in H. now rewrite H.
  - rewrite Z.compare_refl. change (Pos.compare_cont Eq q2 q1) with (Zpos q2 ?= Zpos q1).
    destruct (Z.compare_spec (Zpos q2) (Zpos q1)); try reflexivity; lia.
Qed.

Lemma build_sign_le (m1 m2 e1 e2 : Z) :
  0 < m1 -> 0 < m2 ->
  SFleb (build true (round_me m1 e1)) (build false (round_me m2 e2)) = true.
Proof.
  intros H1 H2.
  destruct (round_me_canonical m1 e1 H1) as ([L1 _] & _ & _).
  destruct (round_me_canonical m2 e2 H2) as ([L2 _] & _ & _).
  unfold build. destruct (round_me m1 e1) as [q1 f1], (round_me m2 e2) as [q2 f2].
  cbn [fst snd] in *.
  destruct q1 as [|q1|q1], q2 as [|q2|q2]; try lia; try reflexivity;
    destruct (f1 <=? emax - prec), (f2 <=? emax - prec); reflexivity.
Qed.

Lemma build_true_le_zero (m e : Z) (s : bool) :
  0 < m -> SFleb (build true (round_me m e)) (S754_zero s) = true.
Proof.
  intros H1. destruct (round_me_canonical m e H1) as ([L1 _] & _ & _).
  unfold build. destruct (round_me m e) as [q1 f1]. cbn [fst snd] in *.
  destruct q1 as [|q1|q1]; try lia; try reflexivity.
  destruct (f1 <=? emax - prec); reflexivity.
Qed.

Lemma zero_le_build_false (m e : Z) (s : bool) :
  0 < m -> SFleb (S754_zero s) (build false (round_me m e)) = true.
Proof.
  intros H1. destruct (round_me_canonical m e H1) as ([L1 _] & _ & _).
  unfold build. destruct (round_me m e) as [q1 f1]. cbn [fst snd] in *.
  destruct q1 as [|q1|q1]; try lia; try reflexivity.
  destruct (f1 <=? emax - prec); reflexivity.
Qed.

(** At a fixed exponent, a larger integer rounds to a double that is
    not smaller. *)
Theorem binary_normalize_mono (n1 n2 e : Z) (s1 s2 : bool) :
  n1 <= n2 ->
  SFleb (binary_normalize prec emax n1 e s1) (binary_normalize prec emax n2 e s2)
  = true.
Proof.
  intros H. rewrite !binary_normalize_eq.
  destruct n1 as [|p1|p1], n2 as [|p2|p2]; try lia; try reflexivity.
  - apply zero_le_build_false; lia.
  - apply build_false_mono; lia.
  - apply build_true_le_zero; lia.
  - apply build_sign_le; lia.
  - apply build_true_mono; lia.
Qed.

Lemma binary_normalize_shift (n e j : Z) (s : bool) :
  0 <= j ->
  binary_normalize prec emax (n * 2 ^ j) (e - j) s = binary_normalize prec emax n e s.
Proof.
  intros Hj. rewrite !binary_normalize_eq.
  pose proof (pow2_pos j Hj) as HJ.
  destruct n as [|p|p].
  - reflexivity.
  - destruct (Zpos p * 2 ^ j) as [|q|q] eqn:E; try lia.
    rewrite <- E. now rewrite round_me_shift by lia.
  - destruct (Zneg p * 2 ^ j) as [|q|q] eqn:E; try lia.
    replace (Zpos q) with (Zpos p * 2 ^ j) by lia.
    now rewrite round_me_shift by lia.
Qed.

(** ** Doubles as integers: the value in units of [2^-1074] *)

Lemma valid_finite_bounds (s : bool) (m : positive) (e : Z) :
  valid_binary prec emax (S754_finite s m e) = true ->
  -1074 <= e <= 971 /\ Zpos m < 2 ^ 53 /\ (-1074 < e -> 2 ^ 52 <= Zpos m)
  /\ Zdigits2 (Zpos m) <= 53.
Proof.
  intros V. destruct (valid_finite_inv s m e V) as [C B].
  rewrite fexp_spec in C.
  destruct (Zdigits2_bounds (Zpos m) ltac:(lia)) as [L U].
  pose proof (Zdigits2_pos (Zpos m) ltac:(lia)) as HD.
  assert (HD53 : Zdigits2 (Zpos m) <= 53) by lia.
  repeat split; try lia.
  - assert (2 ^ Zdigits2 (Zpos m) <= 2 ^ 53) by (apply Z.pow_le_mono_r; lia). lia.
  - intros He. replace 52 with (Zdigits2 (Zpos m) - 1) by lia. exact L.
Qed.

Lemma scaled_pos_lt (m1 m2 : positive) (e1 e2 : Z) :
  valid_binary prec emax (S754_finite false m1 e1) = true ->
  valid_binary prec emax (S754_finite false m2 e2) = true ->
  e1 < e2 ->
  Zpos m1 * 2 ^ (e1 + 1074) < Zpos m2 * 2 ^ (e2 + 1074).
Proof.
  intros V1 V2 He.
  destruct (valid_finite_bounds _ _ _ V1) as (B1 & U1 & _).
  destruct (valid_finite_bounds _ _ _ V2) as (B2 & _ & L2 & _).
  assert (L2' : 2 ^ 52 <= Zpos m2) by (apply L2; lia). clear L2. rename L2' into L2.
  replace (e2 + 1074) with (e1 + 1074 + (e2 - e1)) by lia.
  rewrite (Z.pow_add_r 2 (e1 + 1074) (e2 - e1)) by lia.
  pose proof (pow2_pos (e1 + 1074) ltac:(lia)) as HP.
  assert (2 ^ 1 <= 2 ^ (e2 - e1)) by (apply Z.pow_le_mono_r; lia).
  change (2 ^ 1) with 2 in *. change (2 ^ 52) with 4503599627370496 in *.
  change (2 ^ 53) with 9007199254740992 in *.
  set (P := 2 ^ (e1 + 1074)) in *. set (J := 2 ^ (e2 - e1)) in *.
  clearbody P J.
  assert (A1 : Zpos m1 * P < 9007199254740992 * P) by nia.
  assert (A2 : 9007199254740992 * P <= Zpos m2 * P * 2) by nia.
  assert (A3 : Zpos m2 * P * 2 <= Zpos m2 * P * J)
    by (apply Z.mul_le_mono_nonneg_l; nia).
  lia.
Qed.

Lemma valid_sign_irrelevant (s s' : bool) (m : positive) (e : Z) :
  valid_binary prec emax (S754_finite s m e)
  = valid_binary prec emax (S754_finite s' m e).
Proof. reflexivity. Qed.

(** On doubles, [SFcompare] is the comparison of the values. *)
Lemma compare_scaled (x y : spec_float) :
  valid_binary prec emax x = true -> valid_binary prec emax y = true ->
  is_finite x = true -> is_finite y = true ->
  SFcompare x y = Some (scaled x ?= scaled y).
Proof.
  intros Vx Vy Fx Fy.
  destruct x as [sx|sx| |sx mx ex], y as [sy|sy| |sy my ey]; try discriminate;
    cbn [SFcompare scaled].
  - reflexivity.
  - destruct (valid_finite_bounds _ _ _ Vy) as (B & _).
    pose proof (pow2_pos (ey + 1074) ltac:(lia)).
    f_equal. symmetry. destruct sy; cbn [cond_Zopp].
    + apply Z.compare_gt_iff. nia.
    + apply Z.compare_lt_iff. nia.
  - destruct (valid_finite_bounds _ _ _ Vx) as (B & _).
    pose proof (pow2_pos (ex + 1074) ltac:(lia)).
    f_equal. symmetry. destruct sx; cbn [cond_Zopp].
    + apply Z.compare_lt_iff. nia.
    + apply Z.compare_gt_iff. nia.
  - destruct (valid_finite_bounds _ _ _ Vx) as (Bx & _).
    destruct (valid_finite_bounds _ _ _ Vy) as (By & _).
    pose proof (pow2_pos (ex + 1074) ltac:(lia)) as Px.
    pose proof (pow2_pos (ey + 1074) ltac:(lia)) as Py.
    rewrite (valid_sign_irrelevant sx false) in Vx.
    rewrite (valid_sign_irrelevant sy false) in Vy.
    f_equal. symmetry.
    destruct sx, sy; cbn [cond_Zopp].
    + destruct (Z.compare_spec ex ey) as [->|C|C].
      * change (Pos.compare_cont Eq mx my) with (Zpos mx ?= Zpos my).
        destruct (Z.compare_spec (Zpos mx) (Zpos my)) as [E|E|E]; cbn [CompOpp].
        -- apply Z.compare_eq_iff. rewrite E. reflexivity.
        -- apply Z.compare_gt_iff. nia.
        -- apply Z.compare_lt_iff. nia.
      * apply Z.compare_gt_iff. pose proof (scaled_pos_lt _ _ _ _ Vx Vy C). lia.
      * apply Z.compare_lt_iff. pose proof (scaled_pos_lt _ _ _ _ Vy Vx C). lia.
    + apply Z.compare_lt_iff. nia.
    + apply Z.compare_gt_iff. nia.
    + destruct (Z.compare_spec ex ey) as [->|C|C].
      * change (Pos.compare_cont Eq mx my) with (Zpos mx ?= Zpos my).
        destruct (Z.compare_spec (Zpos mx) (Zpos my)) as [E|E|E].
        -- apply Z.compare_eq_iff. rewrite E. reflexivity.
        -- apply Z.compare_lt_iff. nia.
        -- apply Z.compare_gt_iff. nia.
      * apply Z.compare_lt_iff. exact (scaled_pos_lt _ _ _ _ Vx Vy C).
      * apply Z.compare_gt_iff. exact (scaled_pos_lt _ _ _ _ Vy Vx C).
Qed.

(** ** The operations round the exact result *)

Lemma shl_align_fst (m : positive) (e e' : Z) :
  e' <= e -> Zpos (fst (shl_align m e e')) = Zpos m * 2 ^ (e - e').
Proof.
  intros H. destruct (shl_align_spec m e e') as [Hlt Hge].
  destruct (Z_lt_le_dec e' e) as [C|C].
  - now destruct (Hlt C).
  - rewrite (Hge C). cbn [fst]. replace (e - e') with 0 by lia. cbn. lia.
Qed.

Lemma cond_Zopp_mul (s : bool) (a b : Z) :
  cond_Zopp s a * b = cond_Zopp s (a * b).
Proof. destruct s; cbn [cond_Zopp]; lia. Qed.

Lemma aligned_scaled (s : bool) (m : positive) (e ez : Z) :
  -1074 <= ez <= e ->
  cond_Zopp s (Zpos (fst (shl_align m e ez))) * 2 ^ (ez + 1074)
  = scaled (S754_finite s m e).
Proof.
  intros H. rewrite shl_align_fst by lia. cbn [scaled].
  rewrite !cond_Zopp_mul. f_equal.
  rewrite <- Z.mul_assoc, <- Z.pow_add_r by lia. do 2 f_equal. lia.
Qed.

(** [x - y] is the rounding of the exact difference. *)
Theorem sub_scaled (sx sy : bool) (mx my : positive) (ex ey : Z) :
  valid_binary prec emax (S754_finite sx mx ex) = true ->
  valid_binary prec emax (S754_finite sy my ey) = true ->
  SFsub prec emax (S754_finite sx mx ex) (S754_finite sy my ey)
  = binary_normalize prec emax
      (scaled (S754_finite sx mx ex) - scaled (S754_finite sy my ey))
      (-1074) false.
Proof.
  intros Vx Vy.
  destruct (valid_finite_bounds _ _ _ Vx) as (Bx & _).
  destruct (valid_finite_bounds _ _ _ Vy) as (By & _).
  cbn [SFsub]. cbv zeta.
  set (ez := Z.min ex ey).
  rewrite <- (binary_normalize_shift _ ez (ez + 1074)) by lia.
  replace (ez - (ez + 1074)) with (-1074) by lia.
  f_equal. rewrite Z.mul_sub_distr_r.
  rewrite !aligned_scaled by lia. reflexivity.
Qed.

(** [x + y] is the rounding of the exact sum. *)
Theorem add_scaled (sx sy : bool) (mx my : positive) (ex ey : Z) :
  valid_binary prec emax (S754_finite sx mx ex) = true ->
  valid_binary prec emax (S754_finite sy my ey) = true ->
  SFadd prec emax (S754_finite sx mx ex) (S754_finite sy my ey)
  = binary_normalize prec emax
      (scaled (S754_finite sx mx ex) + scaled (S754_finite sy my ey))
      (-1074) false.
Proof.
  intros Vx Vy.
  destruct (valid_finite_bounds _ _ _ Vx) as (Bx & _).
  destruct (valid_finite_bounds _ _ _ Vy) as (By & _).
  cbn [SFadd]. cbv zeta.
  set (ez := Z.min ex ey).
  rewrite <- (binary_normalize_shift _ ez (ez + 1074)) by lia.
  replace (ez - (ez + 1074)) with (-1074) by lia.
  f_equal. rewrite Z.mul_add_distr_r.
  rewrite !aligned_scaled by lia. reflexivity.
Qed.

(** The product of two canonical mantissas needs no left shift. *)
Lemma mul_aligned (mx my : positive) (ex ey : Z) :
  valid_binary prec emax (S754_finite false mx ex) = true ->
  valid_binary prec emax (S754_finite false my ey) = true ->
  ex + ey <= fexp (Zdigits2 (Zpos (mx * my)) + (ex + ey)).
Proof.
  intros Vx Vy.
  destruct (valid_finite_inv _ _ _ Vx) as [Cx _].
  destruct (valid_finite_inv _ _ _ Vy) as [Cy _].
  rewrite fexp_spec in *.
  destruct (Zdigits2_bounds (Zpos mx) ltac:(lia)) as [Lx Ux].
  destruct (Zdigits2_bounds (Zpos my) ltac:(lia)) as [Ly Uy].
  pose proof (Zdigits2_pos (Zpos mx) ltac:(lia)) as Dx.
  pose proof (Zdigits2_pos (Zpos my) ltac:(lia)) as Dy.
  assert (HD : Zdigits2 (Zpos mx) + Zdigits2 (Zpos my) - 1
               <= Zdigits2 (Zpos (mx * my))).
  { destruct (Zdigits2_bounds (Zpos (mx * my)) ltac:(lia)) as [_ U].
    pose proof (Zdigits2_pos (Zpos (mx * my)) ltac:(lia)) as D.
    destruct (Z_le_gt_dec (Zdigits2 (Zpos mx) + Zdigits2 (Zpos my) - 1)
                          (Zdigits2 (Zpos (mx * my)))) as [C|C]; [exact C|].
    assert (2 ^ Zdigits2 (Zpos (mx * my))
            <= 2 ^ (Zdigits2 (Zpos mx) - 1 + (Zdigits2 (Zpos my) - 1)))
      by (apply Z.pow_le_mono_r; lia).
    rewrite Z.pow_add_r in H by lia. pose proof (Pos2Z.inj_mul mx my) as Emul.
    set (a := 2 ^ (Zdigits2 (Zpos mx) - 1)) in *.
    set (b := 2 ^ (Zdigits2 (Zpos my) - 1)) in *.
    assert (0 < a) by (apply pow2_pos; lia).
    assert (0 < b) by (apply pow2_pos; lia).
    assert (a * b <= Zpos mx * Zpos my) by (apply Z.mul_le_mono_nonneg; lia).
    clearbody a b. forget_pow. lia. }
  lia.
Qed.

(** [x * y] is the rounding of the exact product. *)
Theorem mul_scaled (sx sy : bool) (mx my : positive) (ex ey : Z) :
  valid_binary prec emax (S754_finite sx mx ex) = true ->
  valid_binary prec emax (S754_finite sy my ey) = true ->
  SFmul prec emax (S754_finite sx mx ex) (S754_finite sy my ey)
  = binary_normalize prec emax
      (scaled (S754_finite sx mx ex) * scaled (S754_finite sy my ey))
      (-2148) false.
Proof.
  intros Vx Vy.
  destruct (valid_finite_bounds _ _ _ Vx) as (Bx & _).
  destruct (valid_finite_bounds _ _ _ Vy) as (By & _).
  cbn [SFmul].
  rewrite binary_round_aux_eq by (now apply mul_aligned).
  rewrite binary_normalize_eq.
  pose proof (pow2_pos (ex + ey + 2148) ltac:(lia)) as HP.
  assert (E : scaled (S754_finite sx mx ex) * scaled (S754_finite sy my ey)
              = cond_Zopp (xorb sx sy) (Zpos (mx * my)) * 2 ^ (ex + ey + 2148)).
  { cbn [scaled]. replace (ex + ey + 2148) with (ex + 1074 + (ey + 1074)) by lia.
    rewrite (Z.pow_add_r 2 (ex + 1074) (ey + 1074)) by lia. rewrite Pos2Z.inj_mul.
    destruct sx, sy; cbn [cond_Zopp xorb]; ring. }
  rewrite E.
  destruct (xorb sx sy); cbn [cond_Zopp].
  - destruct (- Zpos (mx * my) * 2 ^ (ex + ey + 2148)) as [|q|q] eqn:Q; try lia.
    replace (Zpos q) with (Zpos (mx * my) * 2 ^ (ex + ey + 2148)) by lia.
    replace (-2148) with (ex + ey - (ex + ey + 2148)) by lia.
    now rewrite round_me_shift by lia.
  - destruct (Zpos (mx * my) * 2 ^ (ex + ey + 2148)) as [|q|q] eqn:Q; try lia.
    rewrite <- Q.
    replace (-2148) with (ex + ey - (ex + ey + 2148)) by lia.
    now rewrite round_me_shift by lia.
Qed.

(** ** Validity, signs and exactly representable values *)

Lemma binary_normalize_valid (n e : Z) (sz : bool) :
  valid (binary_normalize prec emax n e sz) = true.
Proof.
  rewrite binary_normalize_eq. destruct n; [reflexivity| |]; apply build_valid; lia.
Qed.

Lemma add_valid (x y : spec_float) :
  valid x = true -> valid y = true -> valid (SFadd prec emax x y) = true.
Proof.
  intros Vx Vy.
  destruct x as [sx|sx| |sx mx ex], y as [sy|sy| |sy my ey];
    try exact Vx; try exact Vy; try reflexivity;
    try (destruct sx, sy; reflexivity).
  apply binary_normalize_valid.
Qed.

Lemma sub_valid (x y : spec_float) :
  valid x = true -> valid y = true -> valid (SFsub prec emax x y) = true.
Proof.
  intros Vx Vy.
  destruct x as [sx|sx| |sx mx ex], y as [sy|sy| |sy my ey];
    try exact Vx; try exact Vy; try reflexivity;
    try (destruct sx, sy; reflexivity).
  apply binary_normalize_valid.
Qed.

Lemma mul_valid (x y : spec_float) :
  valid x = true -> valid y = true -> valid (SFmul prec emax x y) = true.
Proof.
  intros Vx Vy.
  destruct x as [sx|sx| |sx mx ex], y as [sy|sy| |sy my ey]; try reflexivity.
  rewrite mul_scaled by assumption. apply binary_normalize_valid.
Qed.

Lemma build_true_not_pos (m e : Z) :
  0 < m -> SFltb (S754_zero false) (build true (round_me m e)) = false.
Proof.
  intros Hm. destruct (round_me_canonical m e Hm) as ([L _] & _).
  unfold build. destruct (round_me m e) as [q f]. cbn [fst snd] in *.
  destruct q; try lia; try reflexivity. destruct (f <=? emax - prec); reflexivity.
Qed.

Lemma binary_normalize_neg (n e : Z) (sz : bool) :
  n <= 0 -> SFltb (S754_zero false) (binary_normalize prec emax n e sz) = false.
Proof.
  intros Hn. rewrite binary_normalize_eq. destruct n; try lia.
  - now destruct sz.
  - apply build_true_not_pos; lia.
Qed.

(** A double is the rounding of its own value. *)
Lemma normalize_scaled_id (s : bool) (m : positive) (e : Z) (sz : bool) :
  valid (S754_finite s m e) = true ->
  binary_normalize prec emax (scaled (S754_finite s m e)) (-1074) sz
  = S754_finite s m e.
Proof.
  intros V. destruct (valid_finite_bounds s m e V) as (B & _).
  cbn [scaled]. rewrite cond_Zopp_mul.
  pose proof (pow2_pos (e + 1074) ltac:(lia)) as HP.
  rewrite binary_normalize_eq.
  replace (-1074) with (e - (e + 1074)) by lia.
  destruct s; cbn [cond_Zopp].
  - destruct (- (Zpos m * 2 ^ (e + 1074))) as [|q|q] eqn:Q; try lia.
    replace (Zpos q) with (Zpos m * 2 ^ (e + 1074)) by lia.
    rewrite round_me_shift by lia. now apply build_round_me_id.
  - destruct (Zpos m * 2 ^ (e + 1074)) as [|q|q] eqn:Q; try lia.
    rewrite <- Q. rewrite round_me_shift by lia. now apply build_round_me_id.
Qed.

(** Subtraction from a finite double, whatever finite double or zero is
    subtracted. *)
Theorem sub_finite_any (s : bool) (m : positive) (e : Z) (y : spec_float) :
  valid (S754_finite s m e) = true -> valid y = true ->
  is_finite y = true ->
  SFsub prec emax (S754_finite s m e) y
  = binary_normalize prec emax (scaled (S754_finite s m e) - scaled y) (-1074) false.
Proof.
  intros Vx Vy Fy. destruct y as [sy|sy| |sy my ey]; try discriminate.
  - cbn [SFsub]. change (scaled (S754_zero sy)) with 0. rewrite Z.sub_0_r.
    symmetry. now apply normalize_scaled_id.
  - now apply sub_scaled.
Qed.

Lemma leb_scaled (x y : spec_float) :
  valid x = true -> valid y = true ->
  is_finite x = true -> is_finite y = true ->
  SFleb x y = (scaled x <=? scaled y).
Proof.
  intros Vx Vy Fx Fy. unfold SFleb. rewrite (compare_scaled x y) by assumption.
  unfold Z.leb. now destruct (scaled x ?= scaled y).
Qed.

Lemma ltb_scaled (x y : spec_float) :
  valid x = true -> valid y = true ->
  is_finite x = true -> is_finite y = true ->
  SFltb x y = (scaled x <? scaled y).
Proof.
  intros Vx Vy Fx Fy. unfold SFltb. rewrite (compare_scaled x y) by assumption.
  unfold Z.ltb. now destruct (scaled x ?= scaled y).
Qed.

(** Integers below [2^53] in magnitude convert exactly. *)
Lemma of_Z_exact (a : Z) :
  Z.abs a < 2 ^ 53 ->
  let x := binary_normalize prec emax a 0 false in
  valid x = true /\ is_finite x = true /\ scaled x = a * 2 ^ 1074.
Proof.
  intros Ha x. split; [apply binary_normalize_valid|].
  subst x. rewrite binary_normalize_eq.
  assert (Hpos : forall (s : bool) (n : Z),
             0 < n < 2 ^ 53 ->
             is_finite (build s (round_me n 0)) = true
             /\ scaled (build s (round_me n 0)) = cond_Zopp s n * 2 ^ 1074).
  { intros s n Hn.
    assert (HD : Zdigits2 n <= 53) by (apply Zdigits2_le; lia).
    pose proof (Zdigits2_pos n ltac:(lia)) as HD0.
    destruct (round_q_bounds n 0 ltac:(lia)) as ([Lq _] & _ & Uq).
    rewrite round_me_unfold. cbv zeta.
    assert (Hf : fexp (Zdigits2 n + 0) = Zdigits2 n - 53) by (rewrite fexp_spec; lia).
    rewrite Hf in *. specialize (Uq ltac:(lia)).
    assert (Hq : round_q n 0 = n * 2 ^ (53 - Zdigits2 n)).
    { unfold round_q. rewrite Hf.
      destruct (Z.ltb_spec 0 (Zdigits2 n - 53)); [lia|]. do 2 f_equal. lia. }
    pose proof (pow2_pos (53 - Zdigits2 n) ltac:(lia)) as HP.
    destruct (Z.eqb_spec (round_q n 0) (2 ^ prec)) as [E|_]; [lia|].
    unfold build; cbn [fst snd]. rewrite Hq.
    destruct (n * 2 ^ (53 - Zdigits2 n)) as [|q|q] eqn:Q; try lia.
    destruct (Z.leb_spec (Zdigits2 n - 53) (emax - prec)) as [_|C];
      [|unfold emax, prec in C; lia].
    split; [reflexivity|]. cbn [scaled]. rewrite <- Q, cond_Zopp_mul.
    rewrite <- Z.mul_assoc.
    rewrite <- (Z.pow_add_r 2 (53 - Zdigits2 n) (Zdigits2 n - 53 + 1074))
      by (clear - HD HD0; lia).
    replace (53 - Zdigits2 n + (Zdigits2 n - 53 + 1074)) with 1074 by (clear; lia).
    now rewrite cond_Zopp_mul. }
  destruct a as [|p|p].
  - split; reflexivity.
  - apply (Hpos false). lia.
  - destruct (Hpos true (Zpos p) ltac:(lia)) as [F S]. split; [exact F|].
    rewrite S. reflexivity.
Qed.

(** ** Doubles as rationals, and the relative rounding error *)

Lemma Q2pow_pos (e : Z) : (0 < 2 ^ e)%Q.
Proof. apply Qpower_0_lt. reflexivity. Qed.

Lemma Q2pow_add (a b : Z) : (2 ^ (a + b) == 2 ^ a * 2 ^ b)%Q.
Proof. apply Qpower_plus. intros H. discriminate H. Qed.

Lemma Q2pow_inject (n : Z) : 0 <= n -> (inject_Z (2 ^ n) == 2 ^ n)%Q.
Proof. intros H. now rewrite Zpower_Qpower. Qed.

Lemma Q2pow_le (a b : Z) : a <= b -> (2 ^ a <= 2 ^ b)%Q.
Proof.
  intros H. replace b with (a + (b - a)) by lia. rewrite Q2pow_add.
  pose proof (Q2pow_pos a).
  assert (1 <= 2 ^ (b - a))%Q.
  { rewrite <- Q2pow_inject by lia. pose proof (pow2_pos (b - a) ltac:(lia)).
    unfold Qle; cbn. lia. }
  nra.
Qed.

Lemma B2Q_scaled (x : spec_float) :
  valid x = true -> (B2Q x == inject_Z (scaled x) * 2 ^ (-1074))%Q.
Proof.
  intros V. destruct x as [s|s| |s m e]; try (cbn; ring).
  destruct (valid_finite_bounds s m e V) as (B & _).
  cbn [B2Q scaled]. rewrite inject_Z_mult, Q2pow_inject by lia.
  rewrite <- Qmult_assoc, <- Q2pow_add. replace (e + 1074 + -1074) with e by lia.
  reflexivity.
Qed.

Lemma inject_Z_pos (n : Z) : 0 < n -> (0 < inject_Z n)%Q.
Proof. intros H. unfold Qlt; cbn. lia. Qed.

Lemma inject_Z_neg (n : Z) : n < 0 -> (inject_Z n < 0)%Q.
Proof. intros H. unfold Qlt; cbn. lia. Qed.

Lemma B2Q_pos_inv (x : spec_float) :
  (0 < B2Q x)%Q -> exists m e, x = S754_finite false m e.
Proof.
  destruct x as [s|s| |[|] m e]; cbn [B2Q cond_Zopp]; intros H;
    try (now apply Qlt_irrefl in H).
  - exfalso. pose proof (Q2pow_pos e).
    assert (inject_Z (- Z.pos m) < 0)%Q by (apply inject_Z_neg; lia).
    nra.
  - eauto.
Qed.

(** The magnitude of [m * 2^e] from rational bounds. *)
Lemma mag_bounds (m e : Z) :
  0 < m ->
  (2 ^ (Zdigits2 m + e - 1) <= inject_Z m * 2 ^ e
   /\ inject_Z m * 2 ^ e < 2 ^ (Zdigits2 m + e))%Q.
Proof.
  intros Hm. destruct (Zdigits2_bounds m Hm) as [L U].
  pose proof (Zdigits2_pos m Hm) as HD. pose proof (Q2pow_pos e) as He.
  replace (Zdigits2 m + e - 1) with (Zdigits2 m - 1 + e) by lia.
  rewrite !Q2pow_add.
  rewrite <- (Q2pow_inject (Zdigits2 m)), <- (Q2pow_inject (Zdigits2 m - 1)) by lia.
  rewrite Zle_Qle in L. rewrite Zlt_Qlt in U. split; nra.
Qed.

Lemma round_me_Qval (m e : Z) :
  0 < m ->
  (inject_Z (fst (round_me m e)) * 2 ^ snd (round_me m e)
   == inject_Z (round_q m e) * 2 ^ fexp (Zdigits2 m + e))%Q.
Proof.
  intros Hm. rewrite round_me_unfold. cbv zeta.
  destruct (Z.eqb_spec (round_q m e) (2 ^ prec)) as [E|_]; cbn [fst snd].
  - rewrite E, Z.add_comm, Q2pow_add.
    change (inject_Z (2 ^ (prec - 1))) with (4503599627370496 # 1)%Q.
    change (inject_Z (2 ^ prec)) with (9007199254740992 # 1)%Q.
    change (2 ^ 1)%Q with (2 # 1)%Q. ring.
  - reflexivity.
Qed.

(** Half a unit in the last place is at most [2^-53] of the value. *)
Lemma round_q_error (m e : Z) :
  0 < m -> -1074 <= Zdigits2 m + e - 53 ->
  (Qabs (inject_Z (round_q m e) * 2 ^ fexp (Zdigits2 m + e) - inject_Z m * 2 ^ e)
   <= unit_roundoff * (inject_Z m * 2 ^ e))%Q.
Proof.
  intros Hm Hn.
  assert (Hf : fexp (Zdigits2 m + e) = Zdigits2 m + e - 53) by (rewrite fexp_spec; lia).
  unfold round_q. rewrite Hf. set (f := Zdigits2 m + e - 53) in *.
  pose proof (Q2pow_pos e) as He.
  assert (Him : (0 < inject_Z m)%Q) by (now apply inject_Z_pos).
  destruct (Z.ltb_spec e f) as [C|C].
  - destruct (rne_shr_bounds m (f - e) ltac:(lia)) as [_ Herr].
    destruct (Zdigits2_bounds m Hm) as [L _].
    set (q := rne_shr m (f - e)) in *. clearbody q.
    assert (HZ : 2 ^ 53 * Z.abs (q * 2 ^ (f - e) - m) <= m).
    { assert (E52 : 2 ^ (Zdigits2 m - 1) = 2 ^ (f - e) * 2 ^ 52).
      { rewrite <- Z.pow_add_r by lia. f_equal. unfold f. lia. }
      rewrite E52 in L. change (2 ^ 52) with 4503599627370496 in L.
      change (2 ^ 53) with 9007199254740992.
      set (P := 2 ^ (f - e)) in *. clearbody P. lia. }
    assert (HQ : (inject_Z q * 2 ^ f - inject_Z m * 2 ^ e
                  == inject_Z (q * 2 ^ (f - e) - m) * 2 ^ e)%Q).
    { replace (q * 2 ^ (f - e) - m) with (q * 2 ^ (f - e) + - m) by lia.
      rewrite inject_Z_plus, inject_Z_opp, inject_Z_mult.
      rewrite Q2pow_inject by lia. replace f with (f - e + e) at 1 by lia.
      rewrite Q2pow_add. ring. }
    rewrite HQ, Qabs_Qmult, (Qabs_pos (2 ^ e)) by (now apply Qlt_le_weak).
    change (Qabs (inject_Z (q * 2 ^ (f - e) - m)))
      with (inject_Z (Z.abs (q * 2 ^ (f - e) - m))).
    rewrite Zle_Qle, inject_Z_mult in HZ.
    change (inject_Z (2 ^ 53)) with (9007199254740992 # 1)%Q in HZ.
    set (d := inject_Z (Z.abs (q * 2 ^ (f - e) - m))) in *. clearbody d.
    assert (Hd : (d <= unit_roundoff * inject_Z m)%Q) by (unfold unit_roundoff; lra).
    nra.
  - assert (HQ : (inject_Z (m * 2 ^ (e - f)) * 2 ^ f - inject_Z m * 2 ^ e == 0)%Q).
    { rewrite inject_Z_mult, Q2pow_inject by lia.
      replace e with (e - f + f) at 2 by lia. rewrite Q2pow_add. ring. }
    rewrite HQ. cbn [Qabs Z.abs]. unfold unit_roundoff. nra.
Qed.

(** In the normal range the rounding is within a relative [2^-53]. *)
Lemma normalize_pos_error (n E : Z) (sz : bool) :
  0 < n ->
  (min_normal <= inject_Z n * 2 ^ E)%Q ->
  (inject_Z n * 2 ^ E < half_overflow)%Q ->
  exists m e,
    binary_normalize prec emax n E sz = S754_finite false m e
    /\ (Qabs (B2Q (S754_finite false m e) - inject_Z n * 2 ^ E)
        <= unit_roundoff * (inject_Z n * 2 ^ E))%Q.
Proof.
  intros Hn Hlo Hhi.
  destruct (mag_bounds n E Hn) as [ML MU].
  assert (Hmag : -1021 <= Zdigits2 n + E <= 1023).
  { split.
    - destruct (Z_le_gt_dec (-1021) (Zdigits2 n + E)) as [C|C]; [exact C|].
      pose proof (Q2pow_le (Zdigits2 n + E) (-1022) ltac:(lia)) as P.
      change (2 ^ (-1022))%Q with min_normal in P. lra.
    - destruct (Z_le_gt_dec (Zdigits2 n + E) 1023) as [C|C]; [exact C|].
      pose proof (Q2pow_le 1023 (Zdigits2 n + E - 1) ltac:(lia)) as P.
      change (2 ^ 1023)%Q with half_overflow in P. lra. }
  pose proof (round_q_error n E Hn ltac:(lia)) as Herr.
  pose proof (round_me_Qval n E Hn) as Hval.
  destruct (round_q_bounds n E Hn) as ([_ Uq] & Nq & _).
  specialize (Nq ltac:(lia)).
  assert (Hf : fexp (Zdigits2 n + E) = Zdigits2 n + E - 53) by (rewrite fexp_spec; lia).
  assert (Hr : 0 < fst (round_me n E) /\ snd (round_me n E) <= 971).
  { rewrite round_me_unfold. cbv zeta. rewrite Hf.
    change (2 ^ (prec - 1)) with 4503599627370496 in *.
    destruct (Z.eqb_spec (round_q n E) (2 ^ prec)); cbn [fst snd]; lia. }
  destruct Hr as [Hq He].
  rewrite binary_normalize_eq. destruct n as [|p|p]; try lia.
  unfold build. destruct (round_me (Zpos p) E) as [q f]. cbn [fst snd] in *.
  destruct q as [|q|q]; try lia.
  destruct (Z.leb_spec f (emax - prec)) as [_|C]; [|unfold emax, prec in C; lia].
  exists q, f. split; [reflexivity|].
  cbn [B2Q cond_Zopp]. rewrite Hval. exact Herr.
Qed.

(** The standard model of a rounded product of positive doubles. *)
Theorem mul_pos_error (x y : spec_float) :
  valid x = true -> valid y = true ->
  (0 < B2Q x)%Q -> (0 < B2Q y)%Q ->
  (min_normal <= B2Q x * B2Q y)%Q -> (B2Q x * B2Q y < half_overflow)%Q ->
  valid (SFmul prec emax x y) = true
  /\ (Qabs (B2Q (SFmul prec emax x y) - B2Q x * B2Q y)
      <= unit_roundoff * (B2Q x * B2Q y))%Q.
Proof.
  intros Vx Vy Px Py Hlo Hhi.
  split; [now apply mul_valid|].
  pose proof (B2Q_scaled x Vx) as Ex. pose proof (B2Q_scaled y Vy) as Ey.
  destruct (B2Q_pos_inv x Px) as (mx & ex & ->).
  destruct (B2Q_pos_inv y Py) as (my & ey & ->).
  rewrite mul_scaled by assumption.
  set (sx := scaled (S754_finite false mx ex)) in *.
  set (sy := scaled (S754_finite false my ey)) in *.
  assert (Ev : (inject_Z (sx * sy) * 2 ^ (-2148)
                == B2Q (S754_finite false mx ex) * B2Q (S754_finite false my ey))%Q).
  { rewrite Ex, Ey, inject_Z_mult. change (-2148) with (-1074 + -1074).
    rewrite Q2pow_add. ring. }
  assert (Hn : 0 < sx * sy).
  { destruct (valid_finite_bounds false mx ex Vx) as (Bx & _).
    destruct (valid_finite_bounds false my ey Vy) as (By & _).
    pose proof (pow2_pos (ex + 1074) ltac:(lia)).
    pose proof (pow2_pos (ey + 1074) ltac:(lia)).
    unfold sx, sy; cbn [scaled cond_Zopp]. nia. }
  destruct (normalize_pos_error (sx * sy) (-2148) false Hn) as (m & e & -> & H).
  - now rewrite Ev.
  - now rewrite Ev.
  - now rewrite <- Ev.
Qed.

(** The standard model of a rounded sum of positive doubles. *)
Theorem add_pos_error (x y : spec_float) :
  valid x = true -> valid y = true ->
  (0 < B2Q x)%Q -> (0 < B2Q y)%Q ->
  (min_normal <= B2Q x + B2Q y)%Q -> (B2Q x + B2Q y < half_overflow)%Q ->
  valid (SFadd prec emax x y) = true
  /\ (Qabs (B2Q (SFadd prec emax x y) - (B2Q x + B2Q y))
      <= unit_roundoff * (B2Q x + B2Q y))%Q.
Proof.
  intros Vx Vy Px Py Hlo Hhi.
  split; [now apply add_valid|].
  pose proof (B2Q_scaled x Vx) as Ex. pose proof (B2Q_scaled y Vy) as Ey.
  destruct (B2Q_pos_inv x Px) as (mx & ex & ->).
  destruct (B2Q_pos_inv y Py) as (my & ey & ->).
  rewrite add_scaled by assumption.
  set (sx := scaled (S754_finite false mx ex)) in *.
  set (sy := scaled (S754_finite false my ey)) in *.
  assert (Ev : (inject_Z (sx + sy) * 2 ^ (-1074)
                == B2Q (S754_finite false mx ex) + B2Q (S754_finite false my ey))%Q).
  { rewrite Ex, Ey, inject_Z_plus. ring. }
  assert (Hn : 0 < sx + sy).
  { destruct (valid_finite_bounds false mx ex Vx) as (Bx & _).
    destruct (valid_finite_bounds false my ey Vy) as (By & _).
    pose proof (pow2_pos (ex + 1074) ltac:(lia)).
    pose proof (pow2_pos (ey + 1074) ltac:(lia)).
    unfold sx, sy; cbn [scaled cond_Zopp]. nia. }
  destruct (normalize_pos_error (sx + sy) (-1074) false Hn) as (m & e & -> & H).
  - now rewrite Ev.
  - now rewrite Ev.
  - now rewrite <- Ev.
Qed.

(** The same bounds without absolute values, as linear arithmetic
    takes them. *)
Corollary mul_pos_bounds (x y : float) :
  valid x = true -> valid y = true ->
  (0 < B2Q x)%Q -> (0 < B2Q y)%Q ->
  (min_normal <= B2Q x * B2Q y)%Q -> (B2Q x * B2Q y < half_overflow)%Q ->
  valid (mul x y) = true
  /\ ((1 - unit_roundoff) * (B2Q x * B2Q y) <= B2Q (mul x y))%Q
  /\ (B2Q (mul x y) <= (1 + unit_roundoff) * (B2Q x * B2Q y))%Q.
Proof.
  intros Vx Vy Px Py Hlo Hhi.
  destruct (mul_pos_error x y Vx Vy Px Py Hlo Hhi) as [V H].
  apply Qabs_diff_Qle_condition in H. unfold mul.
  split; [exact V|]. split; lra.
Qed.

Corollary add_pos_bounds (x y : float) :
  valid x = true -> valid y = true ->
  (0 < B2Q x)%Q -> (0 < B2Q y)%Q ->
  (min_normal <= B2Q x + B2Q y)%Q -> (B2Q x + B2Q y < half_overflow)%Q ->
  valid (add x y) = true
  /\ ((1 - unit_roundoff) * (B2Q x + B2Q y) <= B2Q (add x y))%Q
  /\ (B2Q (add x y) <= (1 + unit_roundoff) * (B2Q x + B2Q y))%Q.
Proof.
  intros Vx Vy Px Py Hlo Hhi.
  destruct (add_pos_error x y Vx Vy Px Py Hlo Hhi) as [V H].
  apply Qabs_diff_Qle_condition in H. unfold add.
  split; [exact V|]. split; lra.
Qed.

End B64Facts.

(** ** Order, signs and exact results of the binary64 operators

    What follows from the integer form of the results: the operators
    are monotone, keep the sign of their operands, and are exact where
    the exact result is a double. *)

Module B64Order.

Import B64 B64Facts.

Local Open Scope Z_scope.

(** *** The results as roundings of integers *)

(** A rounding is never a NaN. *)
Lemma binary_normalize_not_nan (n e : Z) (s : bool) :
  binary_normalize prec emax n e s <> S754_nan.
Proof.
  intros E. pose proof (binary_normalize_mono n n e s s (Z.le_refl n)) as H.
  rewrite E in H. discriminate H.
Qed.

(** Every double but a NaN is at most [+inf]. *)
Lemma leb_infinity (x : spec_float) :
  x <> S754_nan -> SFleb x (S754_infinity false) = true.
Proof. destruct x as [s|[|]| |s m e]; intros H; try reflexivity; now elim H. Qed.

(** On finite doubles, zeros included, each operator returns the
    rounding of the exact result, an integer in units of [2^-1074] (or
    of [2^-2148] for a product); the sign of a zero result is left open. *)
Lemma add_any (x y : spec_float) :
  valid x = true -> valid y = true ->
  is_finite x = true -> is_finite y = true ->
  exists s, SFadd prec emax x y
            = binary_normalize prec emax (scaled x + scaled y) (-1074) s.
Proof.
  intros Vx Vy Fx Fy.
  destruct x as [sx|sx| |sx mx ex]; try discriminate Fx;
    destruct y as [sy|sy| |sy my ey]; try discriminate Fy.
  - destruct sx, sy; eexists; cbn; reflexivity.
  - exists false. cbn [SFadd]. rewrite Z.add_0_l. symmetry.
    now apply normalize_scaled_id.
  - exists false. cbn [SFadd]. change (scaled (S754_zero sy)) with 0.
    rewrite Z.add_0_r. symmetry. now apply normalize_scaled_id.
  - exists false. now apply add_scaled.
Qed.

Lemma sub_any (x y : spec_float) :
  valid x = true -> valid y = true ->
  is_finite x = true -> is_finite y = true ->
  exists s, SFsub prec emax x y
            = binary_normalize prec emax (scaled x - scaled y) (-1074) s.
Proof.
  intros Vx Vy Fx Fy.
  destruct x as [sx|sx| |sx mx ex]; try discriminate Fx.
  - destruct y as [sy|sy| |sy my ey]; try discriminate Fy.
    + destruct sx, sy; eexists; cbn; reflexivity.
    + exists false. cbn [SFsub]. change (scaled (S754_zero sx)) with 0.
      replace (0 - scaled (S754_finite sy my ey))
        with (scaled (S754_finite (negb sy) my ey))
        by (cbn [scaled]; destruct sy; cbn [negb cond_Zopp]; ring).
      symmetry. now apply normalize_scaled_id.
  - exists false. now apply sub_finite_any.
Qed.

Lemma mul_any (x y : spec_float) :
  valid x = true -> valid y = true ->
  is_finite x = true -> is_finite y = true ->
  exists s, SFmul prec emax x y
            = binary_normalize prec emax (scaled x * scaled y) (-2148) s.
Proof.
  intros Vx Vy Fx Fy.
  destruct x as [sx|sx| |sx mx ex]; try discriminate Fx;
    destruct y as [sy|sy| |sy my ey]; try discriminate Fy.
  - eexists. cbn. reflexivity.
  - eexists. cbn. reflexivity.
  - eexists. cbn [SFmul]. change (scaled (S754_zero sy)) with 0.
    rewrite Z.mul_0_r. cbn. reflexivity.
  - exists false. now apply mul_scaled.
Qed.

(** *** Monotonicity *)

(** Below a finite double there is no [+inf]. *)
Lemma leb_finite_inv (x y : spec_float) :
  nonneg x = true -> SFleb x y = true -> is_finite y = true ->
  is_finite x = true.
Proof.
  destruct x as [s|[|]| |[|] m e]; intros N H F; try discriminate N;
    try reflexivity.
  destruct y as [sy|sy| |sy my ey]; try discriminate F; discriminate H.
Qed.

Lemma nonneg_infinite (x : spec_float) :
  nonneg x = true -> is_finite x = false -> x = S754_infinity false.
Proof.
  destruct x as [s|[|]| |[|] m e]; intros N F;
    try discriminate N; try discriminate F; reflexivity.
Qed.

Lemma add_not_nan (x y : spec_float) :
  valid x = true -> valid y = true -> is_finite x = true -> nonneg y = true ->
  SFadd prec emax x y <> S754_nan.
Proof.
  intros Vx Vy Fx Ny. destruct (is_finite y) eqn:Fy.
  - destruct (add_any x y Vx Vy Fx Fy) as (s & ->).
    apply binary_normalize_not_nan.
  - rewrite (nonneg_infinite y Ny Fy).
    destruct x as [sx|sx| |sx mx ex]; try discriminate Fx; discriminate.
Qed.

(** A sum grows with its second operand, [+inf] included. *)
Lemma add_mono_r (x y1 y2 : spec_float) :
  valid x = true -> is_finite x = true ->
  valid y1 = true -> nonneg y1 = true ->
  valid y2 = true -> nonneg y2 = true ->
  SFleb y1 y2 = true ->
  SFleb (SFadd prec emax x y1) (SFadd prec emax x y2) = true.
Proof.
  intros Vx Fx V1 N1 V2 N2 H. destruct (is_finite y2) eqn:F2.
  - pose proof (leb_finite_inv y1 y2 N1 H F2) as F1.
    destruct (add_any x y1 Vx V1 Fx F1) as (s1 & ->).
    destruct (add_any x y2 Vx V2 Fx F2) as (s2 & ->).
    apply binary_normalize_mono.
    rewrite leb_scaled in H by assumption. apply Z.leb_le in H. lia.
  - rewrite (nonneg_infinite y2 N2 F2).
    replace (SFadd prec emax x (S754_infinity false)) with (S754_infinity false)
      by (destruct x as [sx|sx| |sx mx ex]; try discriminate Fx; reflexivity).
    apply leb_infinity. now apply add_not_nan.
Qed.

(** A difference grows with its minuend. *)
Lemma sub_mono_l (p1 p2 a : spec_float) :
  valid p1 = true -> nonneg p1 = true ->
  valid p2 = true -> nonneg p2 = true ->
  valid a = true -> is_finite a = true ->
  SFleb p1 p2 = true ->
  SFleb (SFsub prec emax p1 a) (SFsub prec emax p2 a) = true.
Proof.
  intros V1 N1 V2 N2 Va Fa H.
  assert (NN : forall p, valid p = true -> nonneg p = true ->
                 SFsub prec emax p a <> S754_nan).
  { intros p Vp Np. destruct (is_finite p) eqn:Fp.
    - destruct (sub_any p a Vp Va Fp Fa) as (s & ->).
      apply binary_normalize_not_nan.
    - rewrite (nonneg_infinite p Np Fp).
      destruct a as [sa|sa| |sa ma ea]; try discriminate Fa; discriminate. }
  destruct (is_finite p2) eqn:F2.
  - pose proof (leb_finite_inv p1 p2 N1 H F2) as F1.
    destruct (sub_any p1 a V1 Va F1 Fa) as (s1 & ->).
    destruct (sub_any p2 a V2 Va F2 Fa) as (s2 & ->).
    apply binary_normalize_mono.
    rewrite leb_scaled in H by assumption. apply Z.leb_le in H. lia.
  - rewrite (nonneg_infinite p2 N2 F2).
    replace (SFsub prec emax (S754_infinity false) a) with (S754_infinity false)
      by (destruct a as [sa|sa| |sa ma ea]; try discriminate Fa; reflexivity).
    apply leb_infinity. now apply NN.
Qed.

Lemma finite_nonneg_scaled (x : spec_float) : nonneg x = true -> 0 <= scaled x.
Proof.
  destruct x as [s|s| |[|] m e]; intros H; try discriminate H;
    cbn [scaled cond_Zopp]; lia.
Qed.

(** A product by a positive double grows with the other factor. *)
Lemma mul_mono_l (x1 x2 : spec_float) (m : positive) (e : Z) :
  valid x1 = true -> nonneg x1 = true ->
  valid x2 = true -> nonneg x2 = true ->
  valid (S754_finite false m e) = true ->
  SFleb x1 x2 = true ->
  SFleb (SFmul prec emax x1 (S754_finite false m e))
        (SFmul prec emax x2 (S754_finite false m e)) = true.
Proof.
  intros V1 N1 V2 N2 Vc H. set (c := S754_finite false m e) in *.
  assert (Pc : 0 <= scaled c) by now apply finite_nonneg_scaled.
  destruct (is_finite x2) eqn:F2.
  - pose proof (leb_finite_inv x1 x2 N1 H F2) as F1.
    destruct (mul_any x1 c V1 Vc F1 eq_refl) as (s1 & ->).
    destruct (mul_any x2 c V2 Vc F2 eq_refl) as (s2 & ->).
    apply binary_normalize_mono.
    rewrite leb_scaled in H by assumption. apply Z.leb_le in H.
    now apply Z.mul_le_mono_nonneg_r.
  - rewrite (nonneg_infinite x2 N2 F2).
    change (SFmul prec emax (S754_infinity false) c) with (S754_infinity false).
    apply leb_infinity. destruct (is_finite x1) eqn:F1.
    + destruct (mul_any x1 c V1 Vc F1 eq_refl) as (s1 & ->).
      apply binary_normalize_not_nan.
    + rewrite (nonneg_infinite x1 N1 F1). discriminate.
Qed.

(** A product of a finite double that is not negative grows with the
    other factor. *)
Lemma mul_mono_r (x c1 c2 : spec_float) :
  valid x = true -> is_finite x = true -> nonneg x = true ->
  valid c1 = true -> is_finite c1 = true ->
  valid c2 = true -> is_finite c2 = true ->
  SFleb c1 c2 = true ->
  SFleb (SFmul prec emax x c1) (SFmul prec emax x c2) = true.
Proof.
  intros Vx Fx Nx V1 F1 V2 F2 H.
  destruct (mul_any x c1 Vx V1 Fx F1) as (s1 & ->).
  destruct (mul_any x c2 Vx V2 Fx F2) as (s2 & ->).
  apply binary_normalize_mono.
  rewrite leb_scaled in H by assumption. apply Z.leb_le in H.
  apply Z.mul_le_mono_nonneg_l; [|exact H]. now apply finite_nonneg_scaled.
Qed.

(** *** Signs *)
Lemma build_false_nonneg (m e : Z) :
  0 < m -> nonneg (build false (round_me m e)) = true.
Proof.
  intros Hm. destruct (round_me_canonical m e Hm) as ((L & _) & _).
  unfold build. destruct (fst (round_me m e)); try lia; try reflexivity.
  now destruct (snd (round_me m e) <=? emax - prec).
Qed.

Lemma binary_normalize_nonneg (n e : Z) :
  0 <= n -> nonneg (binary_normalize prec emax n e false) = true.
Proof.
  intros Hn. rewrite binary_normalize_eq. destruct n; try lia.
  - reflexivity.
  - now apply build_false_nonneg.
Qed.

(** Products and sums of doubles that are not negative are not
    negative, and not [-0.0]. *)
Lemma mul_nonneg (x y : spec_float) :
  valid x = true -> valid y = true ->
  nonneg x = true -> nonneg y = true ->
  is_finite x = true -> is_finite y = true ->
  nonneg (SFmul prec emax x y) = true.
Proof.
  intros Vx Vy Nx Ny Fx Fy.
  destruct x as [[|]|sx| |[|] mx ex]; try discriminate Fx; try discriminate Nx;
    destruct y as [[|]|sy| |[|] my ey]; try discriminate Fy; try discriminate Ny;
    try reflexivity.
  rewrite mul_scaled by assumption. apply binary_normalize_nonneg.
  cbn [scaled cond_Zopp]. lia.
Qed.

Lemma add_nonneg (x y : spec_float) :
  valid x = true -> valid y = true ->
  nonneg x = true -> nonneg y = true ->
  is_finite x = true ->
  nonneg (SFadd prec emax x y) = true.
Proof.
  intros Vx Vy Nx Ny Fx.
  destruct x as [[|]|sx| |[|] mx ex]; try discriminate Fx; try discriminate Nx;
    destruct y as [[|]|[|]| |[|] my ey]; try discriminate Ny;
    try reflexivity.
  rewrite add_scaled by assumption. apply binary_normalize_nonneg.
  cbn [scaled cond_Zopp]. lia.
Qed.

(** *** Strict comparisons *)
Lemma round_q_pos (m : Z) : 0 < m -> 0 < round_q m (-1074).
Proof.
  intros Hm. destruct (round_q_bounds m (-1074) Hm) as (_ & N & _).
  destruct (Z.le_gt_cases (-1074) (Zdigits2 m + -1074 - 53)) as [L|L].
  - specialize (N L). pose proof (pow2_pos (prec - 1) ltac:(unfold prec; lia)). lia.
  - unfold round_q. rewrite fexp_spec.
    replace (Z.max (Zdigits2 m + -1074 - 53) (-1074)) with (-1074) by lia.
    rewrite Z.ltb_irrefl, Z.sub_diag, Z.pow_0_r. lia.
Qed.

Lemma round_me_pos (m : Z) : 0 < m -> 0 < fst (round_me m (-1074)).
Proof.
  intros Hm. unfold round_me.
  destruct (round_q m (-1074) =? 2 ^ prec); cbn [fst].
  - apply pow2_pos. unfold prec; lia.
  - now apply round_q_pos.
Qed.

(** A non-zero multiple of [2^-1074] does not round to zero. *)
Lemma binary_normalize_lt_zero (n : Z) (s : bool) :
  n < 0 ->
  SFltb (binary_normalize prec emax n (-1074) s) (S754_zero false) = true.
Proof.
  intros Hn. rewrite binary_normalize_eq. destruct n as [|p|p]; try lia.
  pose proof (round_me_pos (Zpos p) ltac:(lia)) as H. unfold build.
  destruct (fst (round_me (Zpos p) (-1074))); try lia.
  now destruct (snd (round_me (Zpos p) (-1074)) <=? emax - prec).
Qed.

Lemma binary_normalize_gt_zero (n : Z) (s : bool) :
  0 < n ->
  SFltb (S754_zero false) (binary_normalize prec emax n (-1074) s) = true.
Proof.
  intros Hn. rewrite binary_normalize_eq. destruct n as [|p|p]; try lia.
  pose proof (round_me_pos (Zpos p) ltac:(lia)) as H. unfold build.
  destruct (fst (round_me (Zpos p) (-1074))); try lia.
  now destruct (snd (round_me (Zpos p) (-1074)) <=? emax - prec).
Qed.

(** The difference of two distinct finite doubles is not zero, and
    has the sign of the exact difference. *)
Lemma sub_lt_zero (x y : spec_float) :
  valid x = true -> valid y = true ->
  is_finite x = true -> is_finite y = true ->
  SFltb x y = true ->
  SFltb (SFsub prec emax x y) (S754_zero false) = true.
Proof.
  intros Vx Vy Fx Fy H. rewrite ltb_scaled in H by assumption.
  apply Z.ltb_lt in H.
  destruct (sub_any x y Vx Vy Fx Fy) as (s & ->).
  apply binary_normalize_lt_zero. lia.
Qed.

Lemma sub_gt_zero (x y : spec_float) :
  valid x = true -> valid y = true ->
  is_finite x = true -> is_finite y = true ->
  SFltb y x = true ->
  SFltb (S754_zero false) (SFsub prec emax x y) = true.
Proof.
  intros Vx Vy Fx Fy H. rewrite ltb_scaled in H by assumption.
  apply Z.ltb_lt in H.
  destruct (sub_any x y Vx Vy Fx Fy) as (s & ->).
  apply binary_normalize_gt_zero. lia.
Qed.

(** The order of the doubles is the order of their values. *)
Lemma B2Q_lt_scaled (x y : spec_float) :
  valid x = true -> valid y = true ->
  (B2Q x < B2Q y)%Q -> scaled x < scaled y.
Proof.
  intros Vx Vy H. rewrite (B2Q_scaled x Vx), (B2Q_scaled y Vy) in H.
  pose proof (Q2pow_pos (-1074)) as P.
  destruct (Z.lt_ge_cases (scaled x) (scaled y)) as [L|L]; [exact L|].
  exfalso. apply (Qlt_irrefl (inject_Z (scaled x) * 2 ^ (-1074))).
  eapply Qlt_le_trans; [exact H|].
  apply Qmult_le_compat_r; [|now apply Qlt_le_weak].
  rewrite <- Zle_Qle. lia.
Qed.

Lemma B2Q_pos_finite (x : spec_float) : (0 < B2Q x)%Q -> is_finite x = true.
Proof. intros H. now destruct (B2Q_pos_inv x H) as (m & e & ->). Qed.

Lemma ltb_of_B2Q (x y : spec_float) :
  valid x = true -> valid y = true ->
  is_finite x = true -> is_finite y = true ->
  (B2Q x < B2Q y)%Q -> SFltb x y = true.
Proof.
  intros Vx Vy Fx Fy H. rewrite ltb_scaled by assumption.
  apply Z.ltb_lt. now apply B2Q_lt_scaled.
Qed.

(** *** Exact results *)

(** A double is its own rounding. *)
Lemma normalize_scaled_any (x : spec_float) :
  valid x = true -> is_finite x = true ->
  exists s, x = binary_normalize prec emax (scaled x) (-1074) s.
Proof.
  intros V F. destruct x as [s|s| |s m e]; try discriminate F.
  - exists s. reflexivity.
  - exists false. symmetry. now apply normalize_scaled_id.
Qed.

(** [x - x] is [+0.0] for a finite [x]. *)
Lemma sub_diag (x : spec_float) :
  valid x = true -> is_finite x = true -> nonneg x = true ->
  SFsub prec emax x x = S754_zero false.
Proof.
  intros V F N. destruct x as [[|]|s| |[|] m e];
    try discriminate F; try discriminate N; try reflexivity.
  rewrite sub_scaled by assumption. now rewrite Z.sub_diag.
Qed.

(** Taking a non-negative amount off a rate does not raise it. *)
Lemma sub_le_minuend (p a : spec_float) :
  valid p = true -> is_finite p = true ->
  valid a = true -> is_finite a = true ->
  0 <= scaled a -> SFleb (SFsub prec emax p a) p = true.
Proof.
  intros Vp Fp Va Fa H.
  destruct (sub_any p a Vp Va Fp Fa) as (s & ->).
  destruct (normalize_scaled_any p Vp Fp) as (s' & E). rewrite E at 2.
  apply binary_normalize_mono. lia.
Qed.

(** Taking a non-positive amount off a rate does not lower it. *)
Lemma sub_ge_minuend (p a : spec_float) :
  valid p = true -> is_finite p = true ->
  valid a = true -> is_finite a = true ->
  scaled a <= 0 -> SFleb p (SFsub prec emax p a) = true.
Proof.
  intros Vp Fp Va Fa H.
  destruct (sub_any p a Vp Va Fp Fa) as (s & ->).
  destruct (normalize_scaled_any p Vp Fp) as (s' & E). rewrite E at 1.
  apply binary_normalize_mono. lia.
Qed.

(** The sign of a difference follows the order of its operands. *)
Lemma sub_le_zero (x y : spec_float) :
  valid x = true -> valid y = true ->
  is_finite x = true -> is_finite y = true ->
  SFleb x y = true -> SFleb (SFsub prec emax x y) (S754_zero false) = true.
Proof.
  intros Vx Vy Fx Fy H. rewrite leb_scaled in H by assumption.
  apply Z.leb_le in H.
  destruct (sub_any x y Vx Vy Fx Fy) as (s & ->).
  change (S754_zero false) with (binary_normalize prec emax 0 (-1074) false).
  apply binary_normalize_mono. lia.
Qed.

Lemma sub_ge_zero (x y : spec_float) :
  valid x = true -> valid y = true ->
  nonneg x = true -> is_finite y = true ->
  SFleb y x = true -> SFleb (S754_zero false) (SFsub prec emax x y) = true.
Proof.
  intros Vx Vy Nx Fy H. destruct (is_finite x) eqn:Fx.
  - rewrite leb_scaled in H by assumption. apply Z.leb_le in H.
    destruct (sub_any x y Vx Vy Fx Fy) as (s & ->).
    change (S754_zero false) with (binary_normalize prec emax 0 (-1074) false).
    apply binary_normalize_mono. lia.
  - rewrite (nonneg_infinite x Nx Fx).
    destruct y as [sy|sy| |sy my ey]; try discriminate Fy; reflexivity.
Qed.

(** *** The relative error of a difference *)
Lemma inject_Z_sub (a b : Z) : (inject_Z (a - b) == inject_Z a - inject_Z b)%Q.
Proof. unfold Z.sub. rewrite inject_Z_plus, inject_Z_opp. reflexivity. Qed.

(** [x * 1.0] is [x]. *)
Lemma mul_one (m : positive) (e : Z) :
  valid (S754_finite false m e) = true ->
  SFmul prec emax (S754_finite false m e) one = S754_finite false m e.
Proof.
  intros V. unfold one. rewrite mul_scaled by (exact V || reflexivity).
  replace (scaled (S754_finite false 4503599627370496 (-52))) with (2 ^ 1074)
    by reflexivity.
  change (-2148) with (-1074 - 1074).
  rewrite binary_normalize_shift by lia.
  now apply normalize_scaled_id.
Qed.

(** The standard model of a rounded difference of positive doubles. *)
Lemma sub_pos_bounds (x y : float) :
  valid x = true -> valid y = true ->
  (0 < B2Q y)%Q -> (B2Q y < B2Q x)%Q ->
  (min_normal <= B2Q x - B2Q y)%Q -> (B2Q x - B2Q y < half_overflow)%Q ->
  valid (sub x y) = true
  /\ ((1 - unit_roundoff) * (B2Q x - B2Q y) <= B2Q (sub x y))%Q
  /\ (B2Q (sub x y) <= (1 + unit_roundoff) * (B2Q x - B2Q y))%Q.
Proof.
  intros Vx Vy Py Hlt Hlo Hhi.
  split; [now apply sub_valid|].
  assert (Px : (0 < B2Q x)%Q) by lra.
  pose proof (B2Q_scaled x Vx) as Ex. pose proof (B2Q_scaled y Vy) as Ey.
  destruct (B2Q_pos_inv x Px) as (mx & ex & ->).
  destruct (B2Q_pos_inv y Py) as (my & ey & ->).
  unfold sub. rewrite sub_scaled by assumption.
  set (sx := scaled (S754_finite false mx ex)) in *.
  set (sy := scaled (S754_finite false my ey)) in *.
  assert (Ev : (inject_Z (sx - sy) * 2 ^ (-1074)
                == B2Q (S754_finite false mx ex) - B2Q (S754_finite false my ey))%Q).
  { rewrite Ex, Ey, inject_Z_sub. ring. }
  assert (Hn : 0 < sx - sy).
  { pose proof (Q2pow_pos (-1074)) as PW.
    destruct (Z_lt_le_dec 0 (sx - sy)) as [C|C]; [exact C|]. exfalso.
    assert (inject_Z (sx - sy) <= 0)%Q by (rewrite Zle_Qle in C; exact C).
    assert (inject_Z (sx - sy) * 2 ^ (-1074) <= 0)%Q by nra.
    lra. }
  destruct (normalize_pos_error (sx - sy) (-1074) false Hn) as (m & e & -> & H).
  - now rewrite Ev.
  - now rewrite Ev.
  - rewrite Ev in H. apply Qabs_diff_Qle_condition in H. split; lra.
Qed.

End B64Order.

(** ** Division

    [SpecFloat] divides the mantissas after shifting the dividend left,
    keeps the location of the remainder and rounds the quotient.  In
    the range of the normal doubles the result is within a relative
    [2^-53] of the exact quotient. *)

Module B64Div.

Import B64 B64Facts B64Order.

Local Open Scope Z_scope.

(** *** From the bit-level definition to the rounded quotient *)

(** The location [SFdiv] computes for a remainder [r] of a division by
    [d] is [loc_of r d]. *)
Lemma new_location_spec (d r : Z) :
  0 < d -> 0 <= r < d -> new_location d r = loc_of r d.
Proof.
  intros Hd Hr. unfold new_location, new_location_even, new_location_odd, loc_of.
  destruct (Z.even d) eqn:Ev; [reflexivity|].
  destruct (Z.eqb_spec r 0) as [_|Hr0]; [reflexivity|]. f_equal.
  assert (Ho : Z.odd d = true) by (rewrite <- Z.negb_even, Ev; reflexivity).
  apply Z.odd_spec in Ho. destruct Ho as (k & Hk).
  destruct (Z.compare_spec (2 * r + 1) d), (Z.compare_spec (2 * r) d);
    try reflexivity; exfalso; lia.
Qed.

(** A location and the round and sticky bits that stand for it. *)
Lemma shr_record_of_loc_spec (m : Z) (l : location) :
  shr_m (shr_record_of_loc m l) = m
  /\ loc_of_shr_record (shr_record_of_loc m l) = l.
Proof. destruct l as [|[| |]]; split; reflexivity. Qed.

(** One right shift: if the record holds [n / d] and the location of
    [n mod d] in [0, d), it then holds the same for [2 * d]. *)
Lemma shr_1_div (rec : shr_record) (n d : Z) :
  0 <= n -> 0 < d ->
  shr_m rec = n / d ->
  loc_of_shr_record rec = loc_of (n mod d) d ->
  shr_m (shr_1 rec) = n / (d * 2)
  /\ loc_of_shr_record (shr_1 rec) = loc_of (n mod (d * 2)) (d * 2).
Proof.
  intros Hm HP Hq Hl.
  rewrite <- Z.div_div by lia.
  rewrite Z.rem_mul_r by lia.
  pose proof (Z.mod_pos_bound n d HP) as Hr.
  pose proof (Z.div_pos n d Hm HP) as Ha.
  set (a := n / d) in *. set (r := n mod d) in *.
  clearbody a r.
  destruct rec as [mm rb sb]; cbn [shr_m] in Hq; subst mm.
  assert (Ha2 : a = 2 * (a / 2) + a mod 2) by (apply Z.div_mod; lia).
  pose proof (Z.mod_pos_bound a 2 ltac:(lia)) as Hb.
  set (q := a / 2) in *. set (b := a mod 2) in *. clearbody q b.
  unfold loc_of in *.
  destruct a as [|[p|p|]|p]; try lia;
    (assert (Hb' : b = 0 \/ b = 1) by lia);
    (destruct Hb' as [-> | ->]; [try lia | try lia]);
    rewrite ?Z.mul_0_r, ?Z.mul_1_r, ?Z.add_0_r in *;
    destruct rb, sb; cbn [shr_1 shr_m loc_of_shr_record orb] in *;
    (split; [lia|]);
    repeat match goal with
           | H : context [?x =? ?y] |- _ => destruct (Z.eqb_spec x y)
           | |- context [?x =? ?y] => destruct (Z.eqb_spec x y)
           end; try discriminate;
    repeat match goal with
           | H : context [?x ?= ?y] |- _ => destruct (Z.compare_spec x y)
           | |- context [?x ?= ?y] => destruct (Z.compare_spec x y)
           end; try discriminate; try reflexivity; exfalso; lia.
Qed.

Lemma shr_iter_div (rec : shr_record) (n d : Z) (k : nat) :
  0 <= n -> 0 < d ->
  shr_m rec = n / d ->
  loc_of_shr_record rec = loc_of (n mod d) d ->
  shr_m (Nat.iter k shr_1 rec) = n / (d * 2 ^ Z.of_nat k)
  /\ loc_of_shr_record (Nat.iter k shr_1 rec)
     = loc_of (n mod (d * 2 ^ Z.of_nat k)) (d * 2 ^ Z.of_nat k).
Proof.
  intros Hn Hd Hq Hl. induction k as [|k [IH1 IH2]].
  - cbn [Nat.iter Z.of_nat]. rewrite Z.pow_0_r, Z.mul_1_r. now split.
  - rewrite Nat2Z.inj_succ, Z.pow_succ_r by lia. cbn [Nat.iter].
    replace (d * (2 * 2 ^ Z.of_nat k)) with (d * 2 ^ Z.of_nat k * 2) by lia.
    apply shr_1_div; auto.
    pose proof (pow2_pos (Z.of_nat k) ltac:(lia)). nia.
Qed.

(** What [shr] leaves of a quotient. *)
Lemma shr_div (rec : shr_record) (n d e k : Z) :
  0 <= n -> 0 < d ->
  shr_m rec = n / d ->
  loc_of_shr_record rec = loc_of (n mod d) d ->
  let res := shr rec e k in
  snd res = e + Z.max 0 k
  /\ round_nearest_even (shr_m (fst res)) (loc_of_shr_record (fst res))
     = rne_div n (d * 2 ^ Z.max 0 k).
Proof.
  intros Hn Hd Hq Hl. unfold rne_div. destruct k as [|p|p]; cbn [shr fst snd].
  - cbn [Z.max Z.compare]. rewrite Z.pow_0_r, Z.mul_1_r, Z.add_0_r, Hq, Hl.
    now split.
  - rewrite iter_pos_nat.
    destruct (shr_iter_div rec n d (Pos.to_nat p) Hn Hd Hq Hl) as [H1 H2].
    rewrite positive_nat_Z in H1, H2. rewrite H1, H2.
    replace (Z.max 0 (Zpos p)) with (Zpos p) by lia. now split.
  - replace (Z.max 0 (Zneg p)) with 0 by lia.
    rewrite Z.pow_0_r, Z.mul_1_r, Z.add_0_r, Hq, Hl. now split.
Qed.

(** The rounded quotient is within a half of the exact one. *)
Lemma rne_div_bounds (n d : Z) :
  0 < d ->
  n / d <= rne_div n d <= n / d + 1
  /\ - d <= 2 * (rne_div n d * d - n) <= d.
Proof.
  intros HP.
  pose proof (Z.div_mod n d ltac:(lia)) as Hdm.
  pose proof (Z.mod_pos_bound n d HP) as Hr.
  unfold rne_div.
  set (q := n / d) in *. set (r := n mod d) in *.
  clearbody q r.
  rne_cases; nia.
Qed.

(** [SpecFloat]'s rounding of a quotient [n / d] given with its
    remainder, when the result is a normal double. *)
Lemma binary_round_aux_div (s : bool) (n d e : Z) :
  0 <= n -> 0 < d ->
  let k := Z.max 0 (fexp (Zdigits2 (n / d) + e) - e) in
  let q := rne_div n (d * 2 ^ k) in
  2 ^ 52 <= q <= 2 ^ 53 -> -1074 <= e + k ->
  binary_round_aux prec emax s (n / d) e (loc_of (n mod d) d)
  = build s (if q =? 2 ^ 53 then (2 ^ 52, e + k + 1) else (q, e + k)).
Proof.
  intros Hn Hd k q Hq He.
  unfold binary_round_aux, shr_fexp.
  change (SpecFloat.fexp prec emax) with fexp.
  destruct (shr_record_of_loc_spec (n / d) (loc_of (n mod d) d)) as [R1 R2].
  destruct (shr_div (shr_record_of_loc (n / d) (loc_of (n mod d) d)) n d e
                    (fexp (Zdigits2 (n / d) + e) - e) Hn Hd R1 R2) as [E1 E2].
  destruct (shr (shr_record_of_loc (n / d) (loc_of (n mod d) d)) e
                (fexp (Zdigits2 (n / d) + e) - e)) as [rec e'].
  cbn [fst snd] in E1, E2. rewrite E2. subst e'. fold k. fold q.
  cbn [shr_record_of_loc].
  destruct (Z.eqb_spec q (2 ^ 53)) as [->|Hne].
  - replace (fexp (Zdigits2 (2 ^ 53) + (e + k)) - (e + k)) with 1
      by (rewrite fexp_spec; change (Zdigits2 (2 ^ 53)) with 54; lia).
    reflexivity.
  - assert (Hdq : Zdigits2 q = 53) by (apply Zdigits2_unique; lia).
    rewrite shr_nonpos by (rewrite fexp_spec, Hdq; lia).
    reflexivity.
Qed.

Lemma div_eucl_div_mod (a b : Z) : Z.div_eucl a b = (a / b, a mod b).
Proof. unfold Z.div, Z.modulo. now destruct (Z.div_eucl a b). Qed.

(** The quotient [SFdiv] starts from: the dividend's mantissa is shifted
    left by [s] bits, so that the quotient has enough of them. *)
Lemma SFdiv_core_binary_spec (mx my : positive) (ex ey : Z) :
  let e' := Z.min (fexp (Zdigits2 (Zpos mx) + ex - (Zdigits2 (Zpos my) + ey)))
                  (ex - ey) in
  let n := Zpos mx * 2 ^ (ex - ey - e') in
  SFdiv_core_binary prec emax (Zpos mx) ex (Zpos my) ey
  = (n / Zpos my, e', loc_of (n mod Zpos my) (Zpos my)).
Proof.
  intros e' n. unfold SFdiv_core_binary.
  change (SpecFloat.fexp prec emax) with fexp. fold e'.
  assert (Hs : 0 <= ex - ey - e') by (unfold e'; lia).
  assert (Hm : match ex - ey - e' with
               | Zpos _ => Z.shiftl (Zpos mx) (ex - ey - e')
               | Z0 => Zpos mx
               | Zneg _ => 0
               end = n).
  { unfold n. destruct (ex - ey - e') as [|p|p] eqn:E; try lia.
    now rewrite Z.shiftl_mul_pow2 by lia. }
  rewrite Hm, div_eucl_div_mod.
  rewrite new_location_spec; [reflexivity|lia|].
  apply Z.mod_pos_bound. lia.
Qed.

(** *** The quotient of two positive doubles *)
Lemma pow2_lt_inv (a b : Z) : 0 <= b -> 2 ^ a < 2 ^ b -> a < b.
Proof.
  intros Hb H. destruct (Z.lt_ge_cases a b) as [L|L]; [exact L|].
  assert (2 ^ b <= 2 ^ a) by (apply Z.pow_le_mono_r; lia). lia.
Qed.

(** The magnitude of a double from the digits of its mantissa. *)
Lemma scaled_mag (m : positive) (e : Z) :
  valid (S754_finite false m e) = true ->
  2 ^ (Zdigits2 (Zpos m) + e + 1074 - 1) <= Zpos m * 2 ^ (e + 1074)
  /\ Zpos m * 2 ^ (e + 1074) < 2 ^ (Zdigits2 (Zpos m) + e + 1074).
Proof.
  intros V. destruct (valid_finite_bounds false m e V) as (Be & _).
  destruct (Zdigits2_bounds (Zpos m) ltac:(lia)) as [L U].
  pose proof (Zdigits2_pos (Zpos m) ltac:(lia)) as Hd.
  pose proof (pow2_pos (e + 1074) ltac:(lia)) as HP.
  replace (Zdigits2 (Zpos m) + e + 1074 - 1)
    with (Zdigits2 (Zpos m) - 1 + (e + 1074)) by lia.
  replace (Zdigits2 (Zpos m) + e + 1074)
    with (Zdigits2 (Zpos m) + (e + 1074)) by lia.
  rewrite (Z.pow_add_r 2 (Zdigits2 (Zpos m) - 1) (e + 1074)) by lia.
  rewrite (Z.pow_add_r 2 (Zdigits2 (Zpos m)) (e + 1074)) by lia.
  split.
  - apply Z.mul_le_mono_nonneg_r; lia.
  - apply Z.mul_lt_mono_pos_r; lia.
Qed.

(** For [x = mx * 2^ex] and [y = my * 2^ey] with [x / y] between
    [2^-1022] and [2^1023], [SFdiv] divides [n = mx * 2^s] by [my] and
    rounds the quotient, in units of [2^e'], after [k] more shifts. *)
Section Quotient.

Variables (mx my : positive) (ex ey : Z).
Hypothesis Vx : valid (S754_finite false mx ex) = true.
Hypothesis Vy : valid (S754_finite false my ey) = true.

Let sx := Zpos mx * 2 ^ (ex + 1074).
Let sy := Zpos my * 2 ^ (ey + 1074).

(** The quotient is in the range of the normal doubles. *)
Hypothesis Hlo : sy <= sx * 2 ^ 1022.
Hypothesis Hhi : sx < sy * 2 ^ 1023.

Let t := Zdigits2 (Zpos mx) + ex - (Zdigits2 (Zpos my) + ey).
Let e' := Z.min (fexp t) (ex - ey).
Let n := Zpos mx * 2 ^ (ex - ey - e').
Let k := Z.max 0 (fexp (Zdigits2 (n / Zpos my) + e') - e').

(** The difference [t] of the magnitudes of [x] and [y]. *)
Lemma quotient_magnitude : -1022 <= t <= 1023.
Proof.
  destruct (scaled_mag mx ex Vx) as [Lx Ux]. destruct (scaled_mag my ey Vy) as [Ly Uy].
  fold sx in Lx, Ux. fold sy in Ly, Uy.
  destruct (valid_finite_bounds false mx ex Vx) as (Bx & _).
  destruct (valid_finite_bounds false my ey Vy) as (By & _).
  pose proof (Zdigits2_pos (Zpos mx) ltac:(lia)) as D1.
  pose proof (Zdigits2_pos (Zpos my) ltac:(lia)) as D2.
  set (a1 := Zdigits2 (Zpos mx) + ex + 1074) in *.
  set (a2 := Zdigits2 (Zpos my) + ey + 1074) in *.
  assert (T : t = a1 - a2) by (unfold t, a1, a2; lia).
  split.
  - assert (H : 2 ^ (a2 - 1) < 2 ^ (a1 + 1022)).
    { rewrite (Z.pow_add_r 2 a1 1022) by lia.
      pose proof (pow2_pos 1022 ltac:(lia)).
      eapply Z.le_lt_trans; [exact Ly|]. eapply Z.le_lt_trans; [exact Hlo|].
      apply Z.mul_lt_mono_pos_r; assumption. }
    apply pow2_lt_inv in H; lia.
  - assert (H : 2 ^ (a1 - 1) < 2 ^ (a2 + 1023)).
    { rewrite (Z.pow_add_r 2 a2 1023) by lia.
      pose proof (pow2_pos 1023 ltac:(lia)).
      eapply Z.le_lt_trans; [exact Lx|]. eapply Z.lt_trans; [exact Hhi|].
      apply Z.mul_lt_mono_pos_r; assumption. }
    apply pow2_lt_inv in H; lia.
Qed.

(** The exponent of the quotient is that of a normal double. *)
Lemma quotient_exponent :
  -1074 <= e' /\ e' <= ex - ey /\ (e' = t - 53 \/ e' = -1074 /\ t = -1022).
Proof.
  pose proof quotient_magnitude as Ht.
  destruct (valid_finite_bounds false mx ex Vx) as (Bx & _ & _ & Dx).
  destruct (valid_finite_bounds false my ey Vy) as (By & _ & _ & Dy).
  pose proof (Zdigits2_pos (Zpos mx) ltac:(lia)) as D1.
  pose proof (Zdigits2_pos (Zpos my) ltac:(lia)) as D2.
  unfold e'. rewrite fexp_spec. unfold t in *. lia.
Qed.

(** The quotient has 53 or 54 bits, so at most one shift follows. *)
Lemma quotient_shift : k = Z.max 0 (Zdigits2 (n / Zpos my) - 53).
Proof.
  destruct quotient_exponent as (L & _). unfold k. rewrite fexp_spec. lia.
Qed.

(** The dividend in terms of [x]. *)
Lemma quotient_scaled :
  n * 2 ^ (ey + 1074) * 2 ^ (e' + 1074) = sx * 2 ^ 1074.
Proof.
  destruct quotient_exponent as (L & U & _).
  destruct (valid_finite_bounds false mx ex Vx) as (Bx & _).
  destruct (valid_finite_bounds false my ey Vy) as (By & _).
  unfold n, sx. rewrite <- !Z.mul_assoc. f_equal.
  rewrite <- !Z.pow_add_r by lia. f_equal. lia.
Qed.

(** The exact quotient is at least [2^52] units of the last place
    kept, and less than [2^53]. *)
Lemma quotient_bounds :
  Zpos my * 2 ^ (k + 52) <= n /\ n < Zpos my * 2 ^ (k + 53).
Proof.
  rewrite quotient_shift.
  destruct quotient_exponent as (L & U & Hc).
  destruct (valid_finite_bounds false mx ex Vx) as (Bx & _ & _ & Dx).
  destruct (valid_finite_bounds false my ey Vy) as (By & _ & _ & Dy).
  pose proof (Zdigits2_pos (Zpos mx) ltac:(lia)) as D1.
  pose proof (Zdigits2_pos (Zpos my) ltac:(lia)) as D2.
  assert (Hn : 0 < n).
  { unfold n. pose proof (pow2_pos (ex - ey - e') ltac:(lia)). nia. }
  pose proof (Z.div_mod n (Zpos my) ltac:(lia)) as Hdm.
  pose proof (Z.mod_pos_bound n (Zpos my) ltac:(lia)) as Hr.
  pose proof (Z.div_pos n (Zpos my) ltac:(lia) ltac:(lia)) as Hq0.
  set (q0 := n / Zpos my) in *. set (r := n mod Zpos my) in *.
  set (K := Zdigits2 q0).
  assert (HU : q0 < 2 ^ K).
  { destruct (Z.eq_dec q0 0) as [->|Hne]; [reflexivity|].
    apply (Zdigits2_bounds q0). lia. }
  assert (HK0 : 0 <= K).
  { destruct (Z.eq_dec q0 0) as [E|Hne].
    - unfold K. rewrite E. cbn. lia.
    - pose proof (Zdigits2_pos q0 ltac:(lia)). unfold K. lia. }
  destruct (Z_le_gt_dec K 53) as [C|C].
  - replace (Z.max 0 (K - 53)) with 0 by lia. cbn [Z.add].
    split.
    + destruct Hc as [Hc|[Hc Ht]].
      * (* the mantissa was shifted to 53 + d2 - d1 bits more *)
        destruct (Zdigits2_bounds (Zpos mx) ltac:(lia)) as [Lx _].
        destruct (Zdigits2_bounds (Zpos my) ltac:(lia)) as [_ Uy].
        assert (Es : ex - ey - e' = 53 - Zdigits2 (Zpos mx) + Zdigits2 (Zpos my))
          by (unfold t in Hc; lia).
        assert (Ep : 2 ^ (Zdigits2 (Zpos mx) - 1) * 2 ^ (ex - ey - e')
                     = 2 ^ Zdigits2 (Zpos my) * 2 ^ 52).
        { rewrite <- !Z.pow_add_r by lia. f_equal. lia. }
        unfold n.
        pose proof (pow2_pos (ex - ey - e') ltac:(lia)) as Ps.
        pose proof (pow2_pos 52 ltac:(lia)) as P52.
        set (S := 2 ^ (ex - ey - e')) in *. set (P := 2 ^ 52) in *.
        set (A := 2 ^ (Zdigits2 (Zpos mx) - 1)) in *.
        set (B := 2 ^ Zdigits2 (Zpos my)) in *.
        clearbody S P A B. nia.
      * pose proof quotient_scaled as Hs. rewrite Hc in Hs.
        change (-1074 + 1074) with 0 in Hs. rewrite Z.pow_0_r, Z.mul_1_r in Hs.
        pose proof (pow2_pos (ey + 1074) ltac:(lia)) as PA.
        apply (Z.mul_le_mono_pos_r _ _ (2 ^ (ey + 1074)) PA).
        rewrite Hs. fold sy in Hlo.
        replace (Zpos my * 2 ^ 52 * 2 ^ (ey + 1074)) with (sy * 2 ^ 52)
          by (unfold sy; ring).
        change (2 ^ 1074) with (2 ^ 1022 * 2 ^ 52).
        rewrite Z.mul_assoc. apply Z.mul_le_mono_nonneg_r; [lia|exact Hlo].
    + assert (HP : 2 ^ K <= 2 ^ 53) by (apply Z.pow_le_mono_r; lia).
      set (P := 2 ^ 53) in *. set (PK := 2 ^ K) in *. clearbody P PK. nia.
  - replace (Z.max 0 (K - 53)) with (K - 53) by lia.
    replace (K - 53 + 52) with (K - 1) by lia.
    replace (K - 53 + 53) with K by lia.
    assert (Hne : 0 < q0).
    { destruct (Z.eq_dec q0 0) as [E|Hne]; [|lia].
      exfalso. unfold K in C. rewrite E in C. cbn in C. lia. }
    destruct (Zdigits2_bounds q0 Hne) as [LK _]. fold K in LK.
    set (P1 := 2 ^ (K - 1)) in *. set (PK := 2 ^ K) in *. clearbody P1 PK.
    split; nia.
Qed.

Lemma quotient_no_overflow : e' + k <= 970.
Proof.
  destruct quotient_exponent as (L & U & _).
  destruct quotient_bounds as (Ln & _).
  destruct (valid_finite_bounds false my ey Vy) as (By & _).
  pose proof quotient_scaled as Hs.
  assert (Hk : 0 <= k) by (unfold k; lia).
  pose proof (pow2_pos (ey + 1074) ltac:(lia)) as PA.
  pose proof (pow2_pos (e' + 1074) ltac:(lia)) as PE.
  pose proof (pow2_pos 1074 ltac:(lia)) as P1074.
  assert (H1 : Zpos my * 2 ^ (k + 52) * 2 ^ (ey + 1074) * 2 ^ (e' + 1074)
               <= sx * 2 ^ 1074).
  { rewrite <- Hs. apply Z.mul_le_mono_nonneg_r; [lia|].
    apply Z.mul_le_mono_nonneg_r; [lia|exact Ln]. }
  assert (H2 : sx * 2 ^ 1074 < sy * 2 ^ 1023 * 2 ^ 1074)
    by (apply Z.mul_lt_mono_pos_r; assumption).
  assert (H3 : sy * 2 ^ (k + 52 + (e' + 1074)) < sy * 2 ^ (1023 + 1074)).
  { rewrite (Z.pow_add_r 2 (k + 52) (e' + 1074)) by lia.
    rewrite (Z.pow_add_r 2 1023 1074) by lia.
    unfold sy in *.
    set (A := 2 ^ (ey + 1074)) in *. set (B := 2 ^ (e' + 1074)) in *.
    set (C := 2 ^ (k + 52)) in *. set (X := sx * 2 ^ 1074) in *.
    set (P := 2 ^ 1023) in *. set (R := 2 ^ 1074) in *.
    clearbody A B C X P R. nia. }
  assert (Hsy : 0 < sy) by (unfold sy; nia).
  apply Z.mul_lt_mono_pos_l in H3; [|exact Hsy].
  apply pow2_lt_inv in H3; lia.
Qed.

(** The double [SFdiv] returns, against the exact quotient [n / my] in
    units of [2^e']. *)
Lemma quotient_rounded :
  exists (m : positive) (e : Z),
    SFdiv prec emax (S754_finite false mx ex) (S754_finite false my ey)
    = S754_finite false m e
    /\ valid (S754_finite false m e) = true
    /\ e' <= e
    /\ Zpos m * 2 ^ (e - e') = rne_div n (Zpos my * 2 ^ k) * 2 ^ k
    /\ - n <= 2 ^ 53 * (Zpos m * 2 ^ (e - e') * Zpos my - n) <= n.
Proof.
  destruct quotient_exponent as (L & U & _).
  destruct quotient_bounds as (Ln & Un).
  pose proof quotient_no_overflow as Ho.
  assert (Hk : 0 <= k) by (unfold k; lia).
  assert (Hn : 0 < n).
  { unfold n. pose proof (pow2_pos (ex - ey - e') ltac:(lia)). nia. }
  pose proof (pow2_pos k Hk) as Pk.
  destruct (rne_div_bounds n (Zpos my * 2 ^ k) ltac:(nia)) as (_ & Hr).
  set (q := rne_div n (Zpos my * 2 ^ k)) in *.
  rewrite (Z.pow_add_r 2 k 52), (Z.pow_add_r 2 k 53) in * by lia.
  change (2 ^ 52) with 4503599627370496 in *.
  change (2 ^ 53) with 9007199254740992 in *.
  assert (Hq : 4503599627370496 <= q <= 9007199254740992).
  { set (D := Zpos my * 2 ^ k) in *.
    assert (HD : 0 < D) by (unfold D; nia).
    assert (Ln' : D * 4503599627370496 <= n) by (unfold D; lia).
    assert (Un' : n < D * 9007199254740992) by (unfold D; lia).
    clearbody D q. split.
    - destruct (Z_le_gt_dec 4503599627370496 q) as [C|C]; [exact C|]. exfalso. nia.
    - destruct (Z_le_gt_dec q 9007199254740992) as [C|C]; [exact C|]. exfalso. nia. }
  cbn [SFdiv xorb].
  pose proof (SFdiv_core_binary_spec mx my ex ey) as Hcore. cbv zeta in Hcore.
  fold t in Hcore. fold e' in Hcore. fold n in Hcore. rewrite Hcore.
  pose proof (binary_round_aux_div false n (Zpos my) e' ltac:(lia) ltac:(lia)) as Hb.
  cbv zeta in Hb. fold k in Hb. fold q in Hb.
  change (2 ^ 52) with 4503599627370496 in Hb.
  change (2 ^ 53) with 9007199254740992 in Hb.
  rewrite (Hb Hq ltac:(lia)). clear Hb Hcore.
  destruct (Z.eqb_spec q 9007199254740992) as [Eq|Hne].
  - exists 4503599627370496%positive, (e' + k + 1).
    unfold build; cbn [fst snd].
    destruct (Z.leb_spec (e' + k + 1) (emax - prec)) as [_|C];
      [|unfold emax, prec in C; lia].
    split; [reflexivity|]. split.
    + cbn [valid valid_binary]. unfold bounded, canonical_mantissa.
      change (SpecFloat.fexp prec emax) with fexp.
      change (Zpos (digits2_pos 4503599627370496)) with 53.
      rewrite fexp_spec.
      replace (Z.max (53 + (e' + k + 1) - 53) (-1074)) with (e' + k + 1) by lia.
      rewrite Z.eqb_refl. apply Z.leb_le. unfold emax, prec. lia.
    + split; [lia|].
      replace (e' + k + 1 - e') with (k + 1) by lia.
      rewrite (Z.pow_add_r 2 k 1), Z.pow_1_r by lia.
      rewrite Eq in Hr. rewrite Eq.
      set (P := 2 ^ k) in *. clearbody P. split; nia.
  - destruct q as [|q'|q']; try lia.
    exists q', (e' + k).
    unfold build; cbn [fst snd].
    destruct (Z.leb_spec (e' + k) (emax - prec)) as [_|C];
      [|unfold emax, prec in C; lia].
    split; [reflexivity|]. split.
    + cbn [valid valid_binary]. unfold bounded, canonical_mantissa.
      change (SpecFloat.fexp prec emax) with fexp.
      change (Zpos (digits2_pos q')) with (Zdigits2 (Zpos q')).
      assert (Hd : Zdigits2 (Zpos q') = 53)
        by (apply Zdigits2_unique;
            [change (2 ^ (53 - 1)) with 4503599627370496;
             change (2 ^ 53) with 9007199254740992; lia|lia]).
      rewrite Hd, fexp_spec.
      replace (Z.max (53 + (e' + k) - 53) (-1074)) with (e' + k) by lia.
      rewrite Z.eqb_refl. apply Z.leb_le. unfold emax, prec. lia.
    + split; [lia|].
      replace (e' + k - e') with k by lia.
      set (P := 2 ^ k) in *. clearbody P. split; nia.
Qed.

End Quotient.

(** *** The relative error of a quotient *)
Lemma Qdiv_bounds_scaled (sx sy : Z) (w v : Q) :
  0 < sy -> (0 < w)%Q ->
  (v == (inject_Z sx * w) / (inject_Z sy * w))%Q ->
  (v * inject_Z sy == inject_Z sx)%Q.
Proof.
  intros Hy Hw Hv. rewrite Hv. field. split.
  - intros E. rewrite E in Hw. now apply Qlt_irrefl in Hw.
  - intros E. apply inject_Z_pos in Hy. rewrite E in Hy. now apply Qlt_irrefl in Hy.
Qed.

(** The standard model of a rounded quotient of positive doubles. *)
Theorem div_pos_error (x y : spec_float) :
  valid x = true -> valid y = true ->
  (0 < B2Q x)%Q -> (0 < B2Q y)%Q ->
  (min_normal <= B2Q x / B2Q y)%Q -> (B2Q x / B2Q y < half_overflow)%Q ->
  valid (SFdiv prec emax x y) = true
  /\ (Qabs (B2Q (SFdiv prec emax x y) - B2Q x / B2Q y)
      <= unit_roundoff * (B2Q x / B2Q y))%Q.
Proof.
  intros Vx Vy Px Py Hlo Hhi.
  pose proof (B2Q_scaled x Vx) as Ex. pose proof (B2Q_scaled y Vy) as Ey.
  destruct (B2Q_pos_inv x Px) as (mx & ex & ->).
  destruct (B2Q_pos_inv y Py) as (my & ey & ->).
  cbn [scaled cond_Zopp] in Ex, Ey.
  destruct (valid_finite_bounds false mx ex Vx) as (Bx & _).
  destruct (valid_finite_bounds false my ey Vy) as (By & _).
  pose proof (pow2_pos (ex + 1074) ltac:(lia)) as PX.
  pose proof (pow2_pos (ey + 1074) ltac:(lia)) as PY.
  set (sx := Zpos mx * 2 ^ (ex + 1074)) in *.
  set (sy := Zpos my * 2 ^ (ey + 1074)) in *.
  assert (Hsx : 0 < sx) by (unfold sx; nia).
  assert (Hsy : 0 < sy) by (unfold sy; nia).
  set (v := (B2Q (S754_finite false mx ex) / B2Q (S754_finite false my ey))%Q) in *.
  assert (Hv : (v * inject_Z sy == inject_Z sx)%Q).
  { apply (Qdiv_bounds_scaled sx sy (2 ^ (-1074))%Q); [exact Hsy|apply Q2pow_pos|].
    unfold v. now rewrite Ex, Ey. }
  pose proof (inject_Z_pos sy Hsy) as PSY.
  assert (Zlo : sy <= sx * 2 ^ 1022).
  { rewrite Zle_Qle, inject_Z_mult.
    assert (E1 : (min_normal * inject_Z (2 ^ 1022) == 1)%Q) by reflexivity.
    assert (P1 : (0 < inject_Z (2 ^ 1022))%Q) by reflexivity.
    set (c := inject_Z (2 ^ 1022)) in *. clearbody c.
    set (SX := inject_Z sx) in *. set (SY := inject_Z sy) in *. clearbody SX SY.
    assert (A : (min_normal * SY <= SX)%Q)
      by (rewrite <- Hv; apply Qmult_le_compat_r; [exact Hlo|lra]).
    assert (B : (min_normal * SY * c <= SX * c)%Q)
      by (apply Qmult_le_compat_r; lra).
    assert (C : (min_normal * SY * c == SY)%Q)
      by (rewrite <- (Qmult_1_l SY) at 2; rewrite <- E1; ring).
    rewrite C in B. exact B. }
  assert (Zhi : sx < sy * 2 ^ 1023).
  { rewrite Zlt_Qlt, inject_Z_mult.
    change (inject_Z (2 ^ 1023)) with half_overflow.
    assert (A : (v * inject_Z sy < half_overflow * inject_Z sy)%Q)
      by (apply Qmult_lt_compat_r; assumption).
    rewrite Hv in A. rewrite Qmult_comm. exact A. }
  destruct (quotient_rounded mx my ex ey Vx Vy Zlo Zhi)
    as (m & e & Ediv & Vr & He & _ & Herr).
  rewrite Ediv. split; [exact Vr|].
  set (e0 := Z.min (fexp (Zdigits2 (Zpos mx) + ex - (Zdigits2 (Zpos my) + ey)))
                   (ex - ey)) in *.
  assert (He0 : e0 <= ex - ey) by (unfold e0; lia).
  set (n := Zpos mx * 2 ^ (ex - ey - e0)) in *.
  pose proof (pow2_pos (ex - ey - e0) ltac:(lia)) as PS.
  assert (Hn : 0 < n) by (unfold n; nia).
  (* the exact quotient and the double, in units of [2^e0] *)
  assert (Hvn : (v * inject_Z (Zpos my) == inject_Z n * 2 ^ e0)%Q).
  { unfold v, n. cbn [B2Q cond_Zopp].
    rewrite inject_Z_mult, Q2pow_inject by lia.
    replace ex with (ex - ey - e0 + e0 + ey) at 1 by lia.
    rewrite !Q2pow_add. field. split.
    - pose proof (Q2pow_pos ey) as P. intros E. rewrite E in P.
      now apply Qlt_irrefl in P.
    - discriminate. }
  assert (Hval : (B2Q (S754_finite false m e)
                  == inject_Z (Zpos m * 2 ^ (e - e0)) * 2 ^ e0)%Q).
  { cbn [B2Q cond_Zopp]. rewrite inject_Z_mult, Q2pow_inject by lia.
    replace e with (e - e0 + e0) at 1 by lia. rewrite Q2pow_add. ring. }
  rewrite Hval.
  pose proof (Q2pow_pos e0) as PW.
  assert (PM : (0 < inject_Z (Zpos my))%Q) by (apply inject_Z_pos; lia).
  assert (PN : (0 < inject_Z n)%Q) by (now apply inject_Z_pos).
  destruct Herr as [Hl Hu].
  rewrite Zle_Qle in Hl, Hu.
  rewrite inject_Z_opp in Hl.
  rewrite inject_Z_mult, inject_Z_sub, inject_Z_mult in Hl, Hu.
  change (inject_Z (2 ^ 53)) with (9007199254740992 # 1)%Q in Hl, Hu.
  set (A := inject_Z (Zpos m * 2 ^ (e - e0))) in *.
  set (M := inject_Z (Zpos my)) in *.
  set (N := inject_Z n) in *.
  set (W := (2 ^ e0)%Q) in *.
  clearbody A M N W v.
  unfold unit_roundoff.
  assert (E1 : ((A * W - v) * M == (A * M - N) * W)%Q) by lra.
  assert (E2 : ((1 # 9007199254740992) * v * M
                == (1 # 9007199254740992) * N * W)%Q) by lra.
  assert (B1 : ((A * M - N) * W <= (1 # 9007199254740992) * N * W)%Q)
    by (apply Qmult_le_compat_r; lra).
  assert (B2 : (- ((1 # 9007199254740992) * N) * W <= (A * M - N) * W)%Q)
    by (apply Qmult_le_compat_r; lra).
  assert (G1 : ((A * W - v) * M <= (1 # 9007199254740992) * v * M)%Q) by lra.
  assert (G2 : (- ((1 # 9007199254740992) * v) * M <= (A * W - v) * M)%Q) by lra.
  apply Qmult_le_r in G1; [|exact PM]. apply Qmult_le_r in G2; [|exact PM].
  apply Qabs_Qle_condition. split; assumption.
Qed.

Corollary div_pos_bounds (x y : float) :
  valid x = true -> valid y = true ->
  (0 < B2Q x)%Q -> (0 < B2Q y)%Q ->
  (min_normal <= B2Q x / B2Q y)%Q -> (B2Q x / B2Q y < half_overflow)%Q ->
  valid (div x y) = true
  /\ ((1 - unit_roundoff) * (B2Q x / B2Q y) <= B2Q (div x y))%Q
  /\ (B2Q (div x y) <= (1 + unit_roundoff) * (B2Q x / B2Q y))%Q.
Proof.
  intros Vx Vy Px Py Hlo Hhi.
  destruct (div_pos_error x y Vx Vy Px Py Hlo Hhi) as [V H].
  apply Qabs_diff_Qle_condition in H. unfold div.
  split; [exact V|]. split; lra.
Qed.

(** [x / x] is [1.0]. *)
Lemma div_self (m : positive) (e : Z) :
  valid (S754_finite false m e) = true ->
  SFdiv prec emax (S754_finite false m e) (S754_finite false m e) = one.
Proof.
  intros V.
  destruct (valid_finite_bounds false m e V) as (Be & _).
  pose proof (pow2_pos (e + 1074) ltac:(lia)) as PE.
  pose proof (pow2_pos 1022 ltac:(lia)) as P1.
  pose proof (pow2_pos 1023 ltac:(lia)) as P2.
  destruct (quotient_rounded m m e e V V) as (q & f & Ediv & Vr & Hf & Hq & _).
  { assert (0 < Zpos m * 2 ^ (e + 1074)) by nia.
    set (X := Zpos m * 2 ^ (e + 1074)) in *.
    set (P := 2 ^ 1022) in *. clearbody P X. nia. }
  { assert (0 < Zpos m * 2 ^ (e + 1074)) by nia.
    set (X := Zpos m * 2 ^ (e + 1074)) in *.
    set (P := 2 ^ 1023) in *.
    assert (1 < P) by (unfold P; apply (Z.pow_gt_1 2 1023); lia).
    clearbody P X. nia. }
  rewrite Ediv.
  replace (Zdigits2 (Zpos m) + e - (Zdigits2 (Zpos m) + e)) with 0 in * by lia.
  replace (e - e) with 0 in * by lia.
  change (Z.min (fexp 0) 0) with (-53) in *.
  change (0 - -53) with 53 in *.
  rewrite (Z.mul_comm (Zpos m) (2 ^ 53)), Z.div_mul in Hq by lia.
  change (Z.max 0 (fexp (Zdigits2 (2 ^ 53) + -53) - -53)) with 1 in Hq.
  assert (Er : rne_div (2 ^ 53 * Zpos m) (Zpos m * 2 ^ 1) = 2 ^ 52).
  { unfold rne_div. rewrite (Z.mul_comm (2 ^ 53) (Zpos m)).
    rewrite Z.div_mul_cancel_l, Z.mul_mod_distr_l by lia.
    reflexivity. }
  rewrite Er in Hq.
  destruct (valid_finite_inv false q f Vr) as (Cq & _).
  destruct (valid_finite_bounds false q f Vr) as (Bf & Uq & _).
  replace (f - -53) with (f + 53) in Hq by lia.
  change (2 ^ 52 * 2 ^ 1) with (2 ^ 53) in Hq.
  assert (Hd : Zdigits2 (Zpos q) + (f + 53) = 54).
  { rewrite <- Zdigits2_mul_pow by lia. now rewrite Hq. }
  rewrite fexp_spec in Cq.
  assert (Ef : f = -52) by lia. subst f.
  change (2 ^ (-52 + 53)) with 2 in Hq. change (2 ^ 53) with 9007199254740992 in Hq.
  assert (Eq : q = 4503599627370496%positive) by lia.
  now subst q.
Qed.

End B64Div.

(** ** Between two doubles

    Rounding is monotone and leaves a double alone.  A difference or a
    product whose exact value lies between two finite doubles is
    therefore a finite double between them, whatever its magnitude:
    this is how the script's values are shown never to overflow. *)

Module B64Range.

Import B64 B64Facts B64Order.

Local Open Scope Z_scope.

Lemma Qscale_le (a b E : Z) :
  (inject_Z a * 2 ^ E <= inject_Z b * 2 ^ E)%Q <-> a <= b.
Proof.
  pose proof (Q2pow_pos E) as P. split; intros H.
  - destruct (Z.le_gt_cases a b) as [L|L]; [exact L|]. exfalso.
    assert (inject_Z b < inject_Z a)%Q by (rewrite <- Zlt_Qlt; exact L).
    assert (inject_Z b * 2 ^ E < inject_Z a * 2 ^ E)%Q
      by (apply Qmult_lt_compat_r; assumption).
    lra.
  - apply Qmult_le_compat_r; [|now apply Qlt_le_weak].
    now rewrite <- Zle_Qle.
Qed.

(** The rounding of a number between two finite doubles is a finite
    double between them. *)
Lemma normalize_between (n j : Z) (s : bool) (lo hi : spec_float) :
  valid lo = true -> valid hi = true ->
  is_finite lo = true -> is_finite hi = true ->
  0 <= j ->
  scaled lo * 2 ^ j <= n <= scaled hi * 2 ^ j ->
  is_finite (binary_normalize prec emax n (-1074 - j) s) = true
  /\ scaled lo <= scaled (binary_normalize prec emax n (-1074 - j) s)
     <= scaled hi.
Proof.
  intros Vl Vh Fl Fh Hj Hn.
  set (r := binary_normalize prec emax n (-1074 - j) s).
  assert (L : SFleb lo r = true).
  { destruct (normalize_scaled_any lo Vl Fl) as (s1 & E). rewrite E.
    rewrite <- (binary_normalize_shift (scaled lo) (-1074) j) by lia.
    apply binary_normalize_mono. lia. }
  assert (H : SFleb r hi = true).
  { destruct (normalize_scaled_any hi Vh Fh) as (s1 & E). rewrite E.
    rewrite <- (binary_normalize_shift (scaled hi) (-1074) j) by lia.
    apply binary_normalize_mono. lia. }
  assert (Vr : valid r = true) by apply binary_normalize_valid.
  assert (Fr : is_finite r = true).
  { pose proof (binary_normalize_not_nan n (-1074 - j) s) as N. fold r in N.
    clearbody r. destruct r as [sr|[|]| |sr mr er]; try reflexivity.
    - destruct lo as [sl|sl| |sl ml el]; try discriminate Fl; discriminate L.
    - destruct hi as [sh|sh| |sh mh eh]; try discriminate Fh; discriminate H.
    - now contradiction N. }
  split; [exact Fr|].
  rewrite leb_scaled in L, H by assumption.
  apply Z.leb_le in L, H. lia.
Qed.

Lemma sub_between (x y lo hi : spec_float) :
  valid x = true -> valid y = true -> valid lo = true -> valid hi = true ->
  is_finite x = true -> is_finite y = true ->
  is_finite lo = true -> is_finite hi = true ->
  (B2Q lo <= B2Q x - B2Q y)%Q -> (B2Q x - B2Q y <= B2Q hi)%Q ->
  valid (sub x y) = true /\ is_finite (sub x y) = true
  /\ (B2Q lo <= B2Q (sub x y))%Q /\ (B2Q (sub x y) <= B2Q hi)%Q.
Proof.
  intros Vx Vy Vl Vh Fx Fy Fl Fh Hl Hh.
  assert (V : valid (sub x y) = true) by now apply sub_valid.
  split; [exact V|].
  rewrite (B2Q_scaled (sub x y) V).
  rewrite (B2Q_scaled x Vx), (B2Q_scaled y Vy) in Hl, Hh.
  rewrite (B2Q_scaled lo Vl) in *. rewrite (B2Q_scaled hi Vh) in *.
  assert (E : (inject_Z (scaled x) * 2 ^ (-1074) - inject_Z (scaled y) * 2 ^ (-1074)
               == inject_Z (scaled x - scaled y) * 2 ^ (-1074))%Q)
    by (rewrite inject_Z_sub; ring).
  rewrite E in Hl, Hh. apply Qscale_le in Hl, Hh.
  unfold sub in *. destruct (sub_any x y Vx Vy Fx Fy) as (s & ->).
  destruct (normalize_between (scaled x - scaled y) 0 s lo hi) as (F & B1 & B2);
    try assumption; try lia.
  change (-1074 - 0) with (-1074) in *.
  split; [exact F|]. split; apply Qscale_le; assumption.
Qed.

Lemma mul_between (x y lo hi : spec_float) :
  valid x = true -> valid y = true -> valid lo = true -> valid hi = true ->
  is_finite x = true -> is_finite y = true ->
  is_finite lo = true -> is_finite hi = true ->
  (B2Q lo <= B2Q x * B2Q y)%Q -> (B2Q x * B2Q y <= B2Q hi)%Q ->
  valid (mul x y) = true /\ is_finite (mul x y) = true
  /\ (B2Q lo <= B2Q (mul x y))%Q /\ (B2Q (mul x y) <= B2Q hi)%Q.
Proof.
  intros Vx Vy Vl Vh Fx Fy Fl Fh Hl Hh.
  assert (V : valid (mul x y) = true) by now apply mul_valid.
  split; [exact V|].
  rewrite (B2Q_scaled (mul x y) V).
  rewrite (B2Q_scaled x Vx), (B2Q_scaled y Vy) in Hl, Hh.
  rewrite (B2Q_scaled lo Vl) in *. rewrite (B2Q_scaled hi Vh) in *.
  assert (E : (inject_Z (scaled x) * 2 ^ (-1074) * (inject_Z (scaled y) * 2 ^ (-1074))
               == inject_Z (scaled x * scaled y) * 2 ^ (-2148))%Q).
  { rewrite inject_Z_mult. change (-2148) with (-1074 + -1074).
    rewrite Q2pow_add. ring. }
  assert (S : forall a, (inject_Z a * 2 ^ (-1074)
                         == inject_Z (a * 2 ^ 1074) * 2 ^ (-2148))%Q).
  { intros a. rewrite inject_Z_mult, Q2pow_inject by lia.
    rewrite <- Qmult_assoc, <- Q2pow_add. reflexivity. }
  rewrite E in Hl, Hh. rewrite S in Hl, Hh. apply Qscale_le in Hl, Hh.
  unfold mul in *. destruct (mul_any x y Vx Vy Fx Fy) as (s & ->).
  destruct (normalize_between (scaled x * scaled y) 1074 s lo hi) as (F & B1 & B2);
    try assumption; try lia.
  change (-1074 - 1074) with (-2148) in *.
  split; [exact F|]. split; apply Qscale_le; assumption.
Qed.

(** A double of value at least 256 is a multiple of [2^-44]. *)
Lemma exponent_of_large (m : positive) (e : Z) :
  valid (S754_finite false m e) = true ->
  (256 <= B2Q (S754_finite false m e))%Q -> -44 <= e.
Proof.
  intros V H. destruct (valid_finite_bounds false m e V) as (_ & Hm & _).
  destruct (Z.le_gt_cases (-44) e) as [L|L]; [exact L|]. exfalso.
  cbn [B2Q cond_Zopp] in H.
  pose proof (Q2pow_le e (-45) ltac:(lia)) as W.
  pose proof (Q2pow_pos e) as PW.
  assert (M : (inject_Z (Zpos m) < inject_Z (2 ^ 53))%Q)
    by (rewrite <- Zlt_Qlt; exact Hm).
  assert (PM : (0 < inject_Z (Zpos m))%Q) by (apply inject_Z_pos; lia).
  change (inject_Z (2 ^ 53)) with (9007199254740992 # 1)%Q in M.
  replace (2 ^ (-45))%Q with (1 # 35184372088832)%Q in W by reflexivity.
  set (Mq := inject_Z (Zpos m)) in *. set (Wq := (2 ^ e)%Q) in *.
  assert (Mq * Wq <= Mq * (1 # 35184372088832))%Q
    by (apply Qmult_le_l; assumption).
  lra.
Qed.

(** Line 90 when the profit is at least 256: a difference
    [old_profit - absorb_rupees] that rounds to a positive double is at
    least [2^-44], since the profit is a multiple of [2^-44] and the
    absorption is a whole number. *)
Lemma sub_positive_gap (p : spec_float) (a : Z) :
  valid p = true -> (256 <= B2Q p)%Q -> -5000 <= a <= 5000 ->
  SFltb (S754_zero false) (SFsub prec emax p (of_Z a)) = true ->
  ((1 # 17592186044416) <= B2Q p - inject_Z a)%Q.
Proof.
  intros Vp HP Ha H.
  assert (PP : (0 < B2Q p)%Q) by lra.
  destruct (B2Q_pos_inv p PP) as (m & e & ->).
  pose proof (exponent_of_large m e Vp HP) as He.
  destruct (of_Z_exact a) as (Va & Fa & Sa).
  { change (2 ^ 53) with 9007199254740992. lia. }
  fold (of_Z a) in Va, Fa, Sa.
  destruct (sub_any (S754_finite false m e) (of_Z a) Vp Va eq_refl Fa) as (s & E).
  rewrite E in H. rewrite Sa in H.
  set (n := scaled (S754_finite false m e) - a * 2 ^ 1074) in *.
  assert (Hn : 0 < n).
  { destruct (Z_lt_le_dec 0 n) as [C|C]; [exact C|].
    rewrite (binary_normalize_neg n (-1074) s C) in H. discriminate H. }
  assert (Hg : 2 ^ 1030 <= n).
  { pose proof (pow2_pos 1030 ltac:(lia)) as P.
    assert (Hd : n = (Zpos m * 2 ^ (e + 44) - a * 2 ^ 44) * 2 ^ 1030).
    { unfold n. cbn [scaled cond_Zopp].
      replace (e + 1074) with ((e + 44) + 1030) by lia.
      rewrite Z.pow_add_r by lia.
      replace (2 ^ 1074) with (2 ^ 44 * 2 ^ 1030)
        by (rewrite <- Z.pow_add_r by lia; reflexivity).
      set (G := 2 ^ 1030). set (J := 2 ^ 44). set (K := 2 ^ (e + 44)). ring. }
    set (D := Zpos m * 2 ^ (e + 44) - a * 2 ^ 44) in Hd.
    set (G := 2 ^ 1030) in *. clearbody D G.
    rewrite Hd in Hn |- *.
    assert (0 < D) by (apply (Z.mul_pos_cancel_r D G P); exact Hn).
    replace G with (1 * G) at 1 by ring.
    apply Z.mul_le_mono_nonneg_r; lia. }
  rewrite (B2Q_scaled _ Vp).
  assert (Ea : (inject_Z a == inject_Z (a * 2 ^ 1074) * 2 ^ (-1074))%Q).
  { rewrite inject_Z_mult, Q2pow_inject by lia.
    rewrite <- Qmult_assoc, <- Q2pow_add. cbn. ring. }
  rewrite Ea.
  assert (En : (inject_Z (scaled (S754_finite false m e)) * 2 ^ (-1074)
                - inject_Z (a * 2 ^ 1074) * 2 ^ (-1074)
                == inject_Z n * 2 ^ (-1074))%Q)
    by (unfold n; rewrite inject_Z_sub; ring).
  rewrite En.
  assert (Eg : ((1 # 17592186044416) == inject_Z (2 ^ 1030) * 2 ^ (-1074))%Q).
  { rewrite Q2pow_inject by lia. rewrite <- Q2pow_add. reflexivity. }
  rewrite Eg. now apply Qscale_le.
Qed.

End B64Range.

(** ** Elementary facts about the binary64 operators *)

Lemma mul_comm (x y : B64.float) : B64.mul x y = B64.mul y x.
Proof.
  destruct x as [sx|sx| |sx mx ex], y as [sy|sy| |sy my ey]; cbn;
    try reflexivity; try (now rewrite xorb_comm).
  now rewrite xorb_comm, Pos.mul_comm, Z.add_comm.
Qed.

Lemma pymax_b64 (a b : B64.float) :
  pymax a b = if B64.ltb a b then b else a.
Proof. reflexivity. Qed.

Lemma lt_zero_nonneg (x : B64.float) :
  B64.ltb B64.zero x = true -> B64.nonneg x = true.
Proof. now destruct x as [[|]|[|]| |[|] m e]. Qed.

Lemma nonneg_not_lt_zero (x : B64.float) :
  B64.nonneg x = true -> B64.ltb x B64.zero = false.
Proof. now destruct x as [[|]|[|]| |[|] m e]. Qed.

Lemma pymax_zero_nonneg (x : B64.float) :
  B64.nonneg (pymax B64.zero x) = true.
Proof.
  rewrite pymax_b64. destruct (B64.ltb B64.zero x) eqn:E.
  - now apply lt_zero_nonneg.
  - reflexivity.
Qed.

Lemma pymax_Q (a b : Q) : pymax a b = if Qle_bool b a then a else b.
Proof. unfold pymax; cbn. now destruct (Qle_bool b a). Qed.

Lemma pymax_Q_ge (a b : Q) : (a <= pymax a b)%Q.
Proof.
  rewrite pymax_Q. destruct (Qle_bool b a) eqn:E.
  - apply Qle_refl.
  - destruct (Qlt_le_dec a b) as [L|L].
    + now apply Qlt_le_weak.
    + apply Qle_bool_iff in L. congruence.
Qed.

(** ** The script's values in binary64 *)

(** The slider's fraction [pp / 100.0] is one of thirteen doubles. *)
Lemma itc_fraction_valid (pp : Z) :
  (0 <= pp <= 12)%Z ->
  B64.valid (B64.div (B64.of_Z pp) (B64.of_Z 100)) = true.
Proof.
  intros H.
  assert (Hcases : (pp = 0 \/ pp = 1 \/ pp = 2 \/ pp = 3 \/ pp = 4 \/ pp = 5
                    \/ pp = 6 \/ pp = 7 \/ pp = 8 \/ pp = 9 \/ pp = 10
                    \/ pp = 11 \/ pp = 12)%Z) by lia.
  repeat (destruct Hcases as [->|Hcases]; [vm_compute; reflexivity|]).
  subst pp; vm_compute; reflexivity.
Qed.

Lemma profit_old_valid (base : B64.float) (pp : Z) :
  B64.valid base = true -> (0 <= pp <= 12)%Z ->
  B64.valid (profit_old base (B64.of_Z pp)) = true.
Proof.
  intros Vb Hpp. unfold profit_old; cbn [num_add num_mul num_div num_of_Z B64.num].
  apply B64Facts.add_valid; [exact Vb|].
  apply B64Facts.mul_valid; [exact Vb|]. now apply itc_fraction_valid.
Qed.

Lemma absorb_exact (a : Z) :
  (-5000 <= a <= 5000)%Z ->
  B64.valid (B64.of_Z a) = true /\ B64.is_finite (B64.of_Z a) = true
  /\ B64.scaled (B64.of_Z a) = (a * 2 ^ 1074)%Z.
Proof.
  intros H. apply B64Facts.of_Z_exact.
  change (2 ^ 53)%Z with 9007199254740992%Z. lia.
Qed.

(** Python's [max(0.0, .)] is monotone. *)
Lemma pymax_zero_mono (d1 d2 : B64.float) :
  B64.leb d2 d1 = true ->
  B64.leb (pymax B64.zero d2) (pymax B64.zero d1) = true.
Proof.
  rewrite !pymax_b64.
  destruct d1 as [[|]|[|]| |[|] m1 e1], d2 as [[|]|[|]| |[|] m2 e2];
    cbn; intros H; try reflexivity; try discriminate H; exact H.
Qed.

(** Subtracting more leaves less: the rounded difference is antitone in
    the subtrahend. *)
Lemma sub_antitone (p a1 a2 : B64.float) :
  B64.valid p = true -> B64.is_finite p = true ->
  B64.valid a1 = true -> B64.is_finite a1 = true ->
  B64.valid a2 = true -> B64.is_finite a2 = true ->
  (B64.scaled a1 <= B64.scaled a2)%Z ->
  B64.leb (B64.sub p a2) (B64.sub p a1) = true.
Proof.
  intros Vp Fp V1 F1 V2 F2 Hle.
  destruct p as [sp|sp| |sp mp ep]; try discriminate Fp.
  - (* a zero minuend: the difference is the negated subtrahend *)
    assert (Hs : forall a, B64.valid a = true -> B64.is_finite a = true ->
                   B64.valid (B64.sub (S754_zero sp) a) = true
                   /\ B64.is_finite (B64.sub (S754_zero sp) a) = true
                   /\ B64.scaled (B64.sub (S754_zero sp) a) = (- B64.scaled a)%Z).
    { intros [s|s| |s m e] Va Fa; try discriminate Fa.
      - destruct sp, s; repeat split.
      - repeat split; [exact Va|]. unfold B64.sub. cbn [SFsub B64.scaled].
        destruct s; cbn [negb cond_Zopp]; ring. }
    destruct (Hs a1 V1 F1) as (V1' & F1' & S1).
    destruct (Hs a2 V2 F2) as (V2' & F2' & S2).
    unfold B64.leb. rewrite B64Facts.leb_scaled by assumption.
    rewrite S1, S2. apply Z.leb_le. lia.
  - unfold B64.sub, B64.leb.
    rewrite !B64Facts.sub_finite_any by assumption.
    apply B64Facts.binary_normalize_mono. lia.
Qed.

(** Line 90 never goes back up as the absorption grows. *)
Lemma chosen_base_antitone (p a1 a2 : B64.float) :
  B64.valid p = true ->
  B64.valid a1 = true -> B64.is_finite a1 = true ->
  B64.valid a2 = true -> B64.is_finite a2 = true ->
  (B64.scaled a1 <= B64.scaled a2)%Z ->
  B64.leb (chosen_base p a2) (chosen_base p a1) = true.
Proof.
  intros Vp V1 F1 V2 F2 Hle. unfold chosen_base.
  cbn [num_sub num_of_Z B64.num]. change (B64.of_Z 0) with B64.zero.
  destruct (B64.is_finite p) eqn:Fp.
  - apply pymax_zero_mono. now apply sub_antitone.
  - destruct p as [sp|[|]| |sp mp ep]; try discriminate Fp;
      destruct a1 as [s1|s1| |s1 m1 e1]; try discriminate F1;
      destruct a2 as [s2|s2| |s2 m2 e2]; try discriminate F2; reflexivity.
Qed.

(** Once the absorption reaches the old profit the chosen rate is [0.0]. *)
Lemma chosen_base_floor (p a : B64.float) :
  B64.valid p = true -> B64.valid a = true -> B64.is_finite a = true ->
  B64.leb p a = true -> chosen_base p a = B64.zero.
Proof.
  intros Vp Va Fa Hle. unfold chosen_base.
  cbn [num_sub num_of_Z B64.num]. change (B64.of_Z 0) with B64.zero.
  rewrite pymax_b64.
  assert (Hn : B64.ltb B64.zero (B64.sub p a) = false); [|now rewrite Hn].
  destruct p as [sp|[|]| |sp mp ep].
  - destruct a as [s|s| |[|] m e]; try discriminate Fa; try discriminate Hle;
      destruct sp; try destruct s; reflexivity.
  - destruct a as [s|s| |s m e]; try discriminate Fa; reflexivity.
  - destruct a as [s|s| |s m e]; try discriminate Fa; discriminate Hle.
  - discriminate Hle.
  - unfold B64.leb in Hle.
    rewrite B64Facts.leb_scaled in Hle by (assumption || reflexivity).
    apply Z.leb_le in Hle.
    unfold B64.sub, B64.ltb. rewrite B64Facts.sub_finite_any by assumption.
    apply B64Facts.binary_normalize_neg. lia.
Qed.

Lemma ltb_leb (x y : B64.float) : B64.ltb x y = true -> B64.leb x y = true.
Proof.
  unfold B64.ltb, B64.leb, SFltb, SFleb.
  now destruct (SFcompare x y) as [[| |]|].
Qed.

Lemma pymax_Q_mono (a x y : Q) : (x <= y)%Q -> (pymax a x <= pymax a y)%Q.
Proof.
  intros H. rewrite !pymax_Q.
  destruct (Qle_bool x a) eqn:Ex, (Qle_bool y a) eqn:Ey;
    try apply Qle_bool_iff in Ex; try apply Qle_bool_iff in Ey; try lra.
  destruct (Qlt_le_dec a y) as [L|L]; [lra|].
  apply Qle_bool_iff in L. congruence.
Qed.

(** ** Rounding errors along the script

    Each product and sum of positive doubles in the normal range is
    within a relative [2^-53] of the exact one.  Chaining these bounds
    through the formulas is linear arithmetic once the constants are
    evaluated. *)

Ltac eval_double t :=
  let v := eval vm_compute in t in
  replace t with v in * by (vm_compute; reflexivity).

Ltac eval_value c :=
  let q := eval vm_compute in (B64.B2Q c) in
  replace (B64.B2Q c) with q in * by (vm_compute; reflexivity).

Ltac unfold_bounds :=
  unfold B64.min_normal, B64.half_overflow, B64.unit_roundoff,
    B64.rate_min, B64.rate_max in *.

(** At the break-even offset and no absorption the guest's new bill is
    the old one up to rounding. *)
Lemma break_even_close (base : B64.float) :
  B64.valid base = true ->
  (B64.rate_min <= B64.B2Q base)%Q -> (B64.B2Q base <= B64.rate_max)%Q ->
  (Qabs (B64.B2Q (guest_pay_new (chosenRate base GUEST_BREAK_EVEN_PP (B64.of_Z 0)))
         - B64.B2Q (guest_pay_old base))
   <= (1 # 1000000000000000) * B64.B2Q (guest_pay_old base))%Q.
Proof.
  intros Vb Hlo Hhi.
  unfold guest_pay_new, guest_pay_old, chosenRate, chosen_base, profit_old.
  cbn [num_add num_sub num_mul num_div num_of_Z B64.num].
  eval_double (B64.div GUEST_BREAK_EVEN_PP (B64.of_Z 100)).
  eval_double (B64.add (B64.of_Z 1) NEW_OUTPUT_GST).
  eval_double (B64.add (B64.of_Z 1) OLD_OUTPUT_GST).
  eval_double (B64.of_Z 0).
  set (cG := S754_finite false 4803839602528528 (-56)).
  set (c105 := S754_finite false 4728779608739021 (-52)).
  set (c112 := S754_finite false 5044031582654956 (-52)).
  assert (EG : B64.B2Q cG = ltac:(let q := eval vm_compute in (B64.B2Q cG) in exact q))
    by (vm_compute; reflexivity).
  assert (E105 : B64.B2Q c105 = ltac:(let q := eval vm_compute in (B64.B2Q c105) in exact q))
    by (vm_compute; reflexivity).
  assert (E112 : B64.B2Q c112 = ltac:(let q := eval vm_compute in (B64.B2Q c112) in exact q))
    by (vm_compute; reflexivity).
  unfold_bounds.
  set (B := B64.B2Q base) in *.
  (* t1 = base * (G / 100) *)
  destruct (B64Facts.mul_pos_bounds base cG Vb eq_refl) as (V1 & L1 & U1);
    fold B; rewrite ?EG; unfold B64.min_normal, B64.half_overflow; try lra.
  rewrite EG in L1, U1. fold B in L1, U1.
  set (t1 := B64.mul base cG) in *. set (T1 := B64.B2Q t1) in *.
  unfold B64.unit_roundoff in *.
  (* t2 = base + t1 *)
  destruct (B64Facts.add_pos_bounds base t1 Vb V1) as (V2 & L2 & U2);
    fold B T1; unfold B64.min_normal, B64.half_overflow; try lra.
  fold B T1 in L2, U2.
  set (t2 := B64.add base t1) in *. set (T2 := B64.B2Q t2) in *.
  unfold B64.unit_roundoff in *.
  assert (P2 : (0 < T2)%Q) by lra.
  destruct (B64Facts.B2Q_pos_inv t2 P2) as (m2 & e2 & E2).
  assert (Ech : @pymax B64.float B64.num (S754_zero false) (B64.sub t2 (S754_zero false)) = t2)
    by (rewrite E2; reflexivity).
  rewrite Ech.
  (* new = t2 * 1.05, old = base * 1.12 *)
  destruct (B64Facts.mul_pos_bounds t2 c105 V2 eq_refl) as (V3 & L3 & U3);
    fold T2; rewrite ?E105; unfold B64.min_normal, B64.half_overflow; try lra.
  rewrite E105 in L3, U3. fold T2 in L3, U3.
  destruct (B64Facts.mul_pos_bounds base c112 Vb eq_refl) as (V4 & L4 & U4);
    fold B; rewrite ?E112; unfold B64.min_normal, B64.half_overflow; try lra.
  rewrite E112 in L4, U4. fold B in L4, U4.
  unfold B64.unit_roundoff in *.
  apply Qabs_Qle_condition. split; lra.
Qed.

(** The two ways of writing the old profit agree up to rounding. *)
Lemma neutral_close_to_profit (base : B64.float) (pp : Z) :
  B64.valid base = true -> (0 <= pp <= 12)%Z ->
  (B64.rate_min <= B64.B2Q base)%Q -> (B64.B2Q base <= B64.rate_max)%Q ->
  (Qabs (B64.B2Q (neutral_adr base (B64.of_Z pp))
         - B64.B2Q (profit_old base (B64.of_Z pp)))
   <= (1 # 1000000000000000) * B64.B2Q (profit_old base (B64.of_Z pp)))%Q.
Proof.
  intros Vb Hpp Hlo Hhi.
  assert (PB : (0 < B64.B2Q base)%Q) by (unfold B64.rate_min in Hlo; lra).
  unfold neutral_adr, profit_old.
  cbn [num_add num_sub num_mul num_div num_of_Z B64.num].
  assert (Hcases : (pp = 0 \/ pp = 1 \/ pp = 2 \/ pp = 3 \/ pp = 4 \/ pp = 5
                    \/ pp = 6 \/ pp = 7 \/ pp = 8 \/ pp = 9 \/ pp = 10
                    \/ pp = 11 \/ pp = 12)%Z) by lia.
  clear Hpp.
  destruct Hcases as [->|Hcases].
  - (* no offset: the old profit is the base itself *)
    eval_double (B64.div (B64.of_Z 0) (B64.of_Z 100)).
    eval_double (B64.add (B64.of_Z 1) (S754_zero false)).
    destruct (B64Facts.B2Q_pos_inv base PB) as (m & e & ->).
    change (B64.add (S754_finite false m e)
                    (B64.mul (S754_finite false m e) (S754_zero false)))
      with (S754_finite false m e).
    set (base := S754_finite false m e) in *.
    set (one := S754_finite false 4503599627370496 (-52)) in *.
    destruct (B64Facts.mul_pos_bounds base one Vb eq_refl) as (V1 & L1 & U1);
      try eval_value one; unfold_bounds; try lra.
    eval_value one. unfold_bounds.
    apply Qabs_Qle_condition. split; lra.
  - repeat (destruct Hcases as [->|Hcases] || subst pp);
      match goal with
      | |- context [B64.div (B64.of_Z ?n) (B64.of_Z 100)] =>
          eval_double (B64.div (B64.of_Z n) (B64.of_Z 100))
      end;
      match goal with
      | |- context [B64.add (B64.of_Z 1) ?c] =>
          eval_double (B64.add (B64.of_Z 1) c)
      end;
      match goal with
      | |- context [B64.add base (B64.mul base ?c)] =>
          match goal with
          | |- context [B64.B2Q (B64.mul base ?k) - _] =>
              destruct (B64Facts.mul_pos_bounds base c Vb eq_refl) as (V1 & L1 & U1);
              try eval_value c; unfold_bounds; try lra;
              eval_value c; unfold_bounds;
              destruct (B64Facts.add_pos_bounds base (B64.mul base c) Vb V1)
                as (V2 & L2 & U2);
              unfold_bounds; try lra;
              destruct (B64Facts.mul_pos_bounds base k Vb eq_refl) as (V3 & L3 & U3);
              try eval_value k; unfold_bounds; try lra;
              eval_value k; unfold_bounds;
              apply Qabs_Qle_condition; split; lra
          end
      end.
Qed.

Lemma pymax_Q_above (a x : Q) : (a <= x)%Q -> (pymax a x == x)%Q.
Proof.
  intros H. rewrite pymax_Q. destruct (Qle_bool x a) eqn:E.
  - apply Qle_bool_iff in E. lra.
  - reflexivity.
Qed.

(** In exact arithmetic the break-even offset is 20/3 and equalises the
    two bills. *)
Lemma break_even_exact (b : Q) :
  (0 <= b)%Q ->
  (guest_pay_new (chosenRate b GUEST_BREAK_EVEN_PP 0) == guest_pay_old b)%Q.
Proof.
  intros Hb.
  assert (EG : (GUEST_BREAK_EVEN_PP == 20 # 3)%Q) by reflexivity.
  assert (EP : (profit_old b GUEST_BREAK_EVEN_PP - 0 == b * (16 # 15))%Q).
  { unfold profit_old. cbn [num_add num_mul num_div num_of_Z Exact.num].
    rewrite EG. cbn [inject_Z]. field. }
  unfold guest_pay_new, guest_pay_old, chosenRate, chosen_base.
  cbn [num_add num_sub num_mul num_of_Z Exact.num].
  rewrite (pymax_Q_above (inject_Z 0)).
  - change (inject_Z 0) with 0%Q. rewrite EP.
    unfold OLD_OUTPUT_GST, NEW_OUTPUT_GST; cbn [num_lit Exact.num inject_Z]. field.
  - change (inject_Z 0) with 0%Q. rewrite EP. lra.
Qed.

(** ** More of the script's values in binary64 *)

(** The slider has thirteen values; a fact about all of them is checked
    on each. *)
Lemma enumerate_offsets (pp : Z) :
  (0 <= pp <= 12)%Z ->
  In pp [0; 1; 2; 3; 4; 5; 6; 7; 8; 9; 10; 11; 12]%Z.
Proof. intros H. cbn. lia. Qed.

Ltac each_offset H :=
  apply enumerate_offsets in H; cbn [In] in H;
  repeat (destruct H as [H|H]; [subst|]); [..|contradiction].

(** The fractions [pp / 100.0] are finite, not negative, and grow
    with [pp]. *)
Lemma itc_fraction_finite (pp : Z) :
  (0 <= pp <= 12)%Z ->
  B64.is_finite (B64.div (B64.of_Z pp) (B64.of_Z 100)) = true
  /\ B64.nonneg (B64.div (B64.of_Z pp) (B64.of_Z 100)) = true.
Proof. intros H. each_offset H; vm_compute; auto. Qed.

Lemma itc_fraction_mono (pp1 pp2 : Z) :
  (0 <= pp1)%Z -> (pp1 <= pp2)%Z -> (pp2 <= 12)%Z ->
  B64.leb (B64.div (B64.of_Z pp1) (B64.of_Z 100))
          (B64.div (B64.of_Z pp2) (B64.of_Z 100)) = true.
Proof.
  intros H0 H1 H2.
  assert (A : (0 <= pp1 <= 12)%Z) by lia.
  assert (B : (0 <= pp2 <= 12)%Z) by lia.
  each_offset A; each_offset B; first [lia | vm_compute; reflexivity].
Qed.

(** The old profit of a base rate that is finite and not negative. *)
Section SweepOrder.

Variable base : B64.float.

Hypothesis Vb : B64.valid base = true.

Hypothesis Fb : B64.is_finite base = true.

Hypothesis Nb : B64.nonneg base = true.

Lemma profit_old_nonneg (pp : Z) :
  (0 <= pp <= 12)%Z -> B64.nonneg (profit_old base (B64.of_Z pp)) = true.
Proof.
  intros Hpp. unfold profit_old. cbn [num_add num_mul num_div num_of_Z B64.num].
  destruct (itc_fraction_finite pp Hpp) as (Fc & Nc).
  pose proof (itc_fraction_valid pp Hpp) as Vc.
  apply B64Order.add_nonneg; try assumption.
  - now apply B64Facts.mul_valid.
  - now apply B64Order.mul_nonneg.
Qed.

Lemma profit_old_mono (pp1 pp2 : Z) :
  (0 <= pp1)%Z -> (pp1 <= pp2)%Z -> (pp2 <= 12)%Z ->
  B64.leb (profit_old base (B64.of_Z pp1)) (profit_old base (B64.of_Z pp2)) = true.
Proof.
  intros H0 H1 H2.
  assert (A : (0 <= pp1 <= 12)%Z) by lia.
  assert (B : (0 <= pp2 <= 12)%Z) by lia.
  destruct (itc_fraction_finite pp1 A) as (F1 & N1).
  destruct (itc_fraction_finite pp2 B) as (F2 & N2).
  pose proof (itc_fraction_valid pp1 A) as V1.
  pose proof (itc_fraction_valid pp2 B) as V2.
  unfold profit_old. cbn [num_add num_mul num_div num_of_Z B64.num].
  apply B64Order.add_mono_r; try assumption.
  - now apply B64Facts.mul_valid.
  - now apply B64Order.mul_nonneg.
  - now apply B64Facts.mul_valid.
  - now apply B64Order.mul_nonneg.
  - apply B64Order.mul_mono_r; try assumption. now apply itc_fraction_mono.
Qed.

End SweepOrder.

(** The new bill is monotone in the rate it is charged on. *)
Lemma guest_pay_new_mono (x1 x2 : B64.float) :
  B64.valid x1 = true -> B64.nonneg x1 = true ->
  B64.valid x2 = true -> B64.nonneg x2 = true ->
  B64.leb x1 x2 = true ->
  B64.leb (guest_pay_new x1) (guest_pay_new x2) = true.
Proof.
  intros V1 N1 V2 N2 H. unfold guest_pay_new.
  cbn [num_add num_mul num_of_Z B64.num].
  replace (B64.add (B64.of_Z 1) NEW_OUTPUT_GST)
    with (S754_finite false 4728779608739021 (-52)) by (vm_compute; reflexivity).
  now apply B64Order.mul_mono_l.
Qed.

(** Line 90 is monotone in the old profit. *)
Lemma chosen_base_valid (p a : B64.float) :
  B64.valid p = true -> B64.valid a = true ->
  B64.valid (chosen_base p a) = true.
Proof.
  intros Vp Va. unfold chosen_base. rewrite pymax_b64.
  cbn [num_sub num_of_Z B64.num].
  destruct (B64.ltb _ _); [now apply B64Facts.sub_valid | reflexivity].
Qed.

Lemma chosen_base_mono (p1 p2 a : B64.float) :
  B64.valid p1 = true -> B64.nonneg p1 = true ->
  B64.valid p2 = true -> B64.nonneg p2 = true ->
  B64.valid a = true -> B64.is_finite a = true ->
  B64.leb p1 p2 = true ->
  B64.leb (chosen_base p1 a) (chosen_base p2 a) = true.
Proof.
  intros V1 N1 V2 N2 Va Fa H. unfold chosen_base.
  cbn [num_sub num_of_Z B64.num]. change (B64.of_Z 0) with B64.zero.
  apply pymax_zero_mono. now apply B64Order.sub_mono_l.
Qed.

(** The new bill at the chosen rate grows with the slider value and
    falls with the absorption. *)
Lemma bill_mono_in_offset (base : B64.float) (a pp1 pp2 : Z) :
  B64.valid base = true -> B64.is_finite base = true -> B64.nonneg base = true ->
  (-5000 <= a <= 5000)%Z ->
  (0 <= pp1)%Z -> (pp1 <= pp2)%Z -> (pp2 <= 12)%Z ->
  B64.leb (guest_pay_new (chosenRate base (B64.of_Z pp1) (B64.of_Z a)))
          (guest_pay_new (chosenRate base (B64.of_Z pp2) (B64.of_Z a))) = true.
Proof.
  intros Vb Fb Nb Ha H0 H1 H2.
  destruct (absorb_exact a Ha) as (Va & Fa & _).
  assert (A : (0 <= pp1 <= 12)%Z) by lia.
  assert (B : (0 <= pp2 <= 12)%Z) by lia.
  pose proof (profit_old_valid base pp1 Vb A) as Vp1.
  pose proof (profit_old_valid base pp2 Vb B) as Vp2.
  unfold chosenRate.
  apply guest_pay_new_mono.
  - now apply chosen_base_valid.
  - apply pymax_zero_nonneg.
  - now apply chosen_base_valid.
  - apply pymax_zero_nonneg.
  - apply chosen_base_mono; try assumption.
    + now apply profit_old_nonneg.
    + now apply profit_old_nonneg.
    + now apply profit_old_mono.
Qed.

Lemma bill_antitone_in_absorption (base : B64.float) (pp a1 a2 : Z) :
  B64.valid base = true -> (0 <= pp <= 12)%Z ->
  (-5000 <= a1)%Z -> (a1 <= a2)%Z -> (a2 <= 5000)%Z ->
  B64.leb (guest_pay_new (chosenRate base (B64.of_Z pp) (B64.of_Z a2)))
          (guest_pay_new (chosenRate base (B64.of_Z pp) (B64.of_Z a1))) = true.
Proof.
  intros Vb Hpp H0 H1 H2.
  destruct (absorb_exact a1 ltac:(lia)) as (V1 & F1 & S1).
  destruct (absorb_exact a2 ltac:(lia)) as (V2 & F2 & S2).
  pose proof (profit_old_valid base pp Vb Hpp) as Vp.
  unfold chosenRate. apply guest_pay_new_mono.
  - now apply chosen_base_valid.
  - apply pymax_zero_nonneg.
  - now apply chosen_base_valid.
  - apply pymax_zero_nonneg.
  - apply chosen_base_antitone; try assumption.
    rewrite S1, S2. apply Z.mul_le_mono_nonneg_r; [|exact H1].
    now apply Z.lt_le_incl, B64Facts.pow2_pos.
Qed.

(** The element of the sweep at an index. *)
Lemma y_vals_nth (base : B64.float) (a : Z) (i : nat) (u : B64.float) :
  nth_error (y_vals base a) i = Some u ->
  (i < 13)%nat
  /\ u = guest_pay_new (chosenRate base (B64.of_Z (Z.of_nat i)) (B64.of_Z a)).
Proof.
  intros H.
  do 13 (destruct i as [|i]; [injection H as <-; split; [lia|reflexivity]|]).
  destruct i; discriminate H.
Qed.

(** With no absorption the chosen rate is the old profit. *)
Lemma chosen_base_no_absorption (p : B64.float) :
  B64.nonneg p = true -> B64.is_finite p = true ->
  chosen_base p (B64.of_Z 0) = p.
Proof.
  destruct p as [[|]|sp| |[|] m e]; intros N F;
    try discriminate N; try discriminate F; reflexivity.
Qed.

(** The slider's fraction [pp / 100.0] is within 1e-17 of [pp/100]. *)
Lemma itc_fraction_value (pp : Z) :
  (0 <= pp <= 12)%Z ->
  (inject_Z pp * (1 # 100) - (1 # 100000000000000000)
   <= B64.B2Q (B64.div (B64.of_Z pp) (B64.of_Z 100)))%Q
  /\ (B64.B2Q (B64.div (B64.of_Z pp) (B64.of_Z 100))
      <= inject_Z pp * (1 # 100) + (1 # 100000000000000000))%Q
  /\ ((1 <= pp)%Z ->
      (0 < B64.B2Q (B64.div (B64.of_Z pp) (B64.of_Z 100)))%Q).
Proof.
  intros H. each_offset H;
    (split; [vm_compute; discriminate|
             split; [vm_compute; discriminate|
                     intros L; first [exfalso; lia | vm_compute; reflexivity]]]).
Qed.

(** The old profit [base + base * (pp / 100.0)] against the exact one:
    two roundings, each within [2^-53]. *)
Lemma profit_old_enclosure (base : B64.float) (pp : Z) :
  B64.valid base = true -> (0 <= pp <= 12)%Z ->
  (B64.rate_min <= B64.B2Q base)%Q -> (B64.B2Q base <= B64.rate_max)%Q ->
  let C := B64.B2Q (B64.div (B64.of_Z pp) (B64.of_Z 100)) in
  let B := B64.B2Q base in
  let P := B64.B2Q (profit_old base (B64.of_Z pp)) in
  ((1 - B64.unit_roundoff) * (B + (1 - B64.unit_roundoff) * (C * B)) <= P)%Q
  /\ (P <= (1 + B64.unit_roundoff) * (B + (1 + B64.unit_roundoff) * (C * B)))%Q.
Proof.
  intros Vb Hpp Hlo Hhi C B P. fold B in Hlo, Hhi.
  assert (PB : (0 < B)%Q) by (unfold B64.rate_min in Hlo; lra).
  destruct (itc_fraction_value pp Hpp) as (CL & CU & CP). fold C in CL, CU, CP.
  pose proof (itc_fraction_valid pp Hpp) as Vc.
  destruct (Z.eq_dec pp 0) as [->|Hnz].
  - assert (EP : profit_old base (B64.of_Z 0) = base).
    { destruct (B64Facts.B2Q_pos_inv base PB) as (m & e & ->). reflexivity. }
    subst P. rewrite EP. fold B.
    assert (EC : C = 0%Q) by reflexivity. rewrite EC.
    unfold B64.unit_roundoff. split; lra.
  - assert (L1 : (1 <= pp)%Z) by lia. specialize (CP L1).
    assert (Q1 : (1 <= inject_Z pp)%Q) by (rewrite Zle_Qle in L1; exact L1).
    assert (Q12 : (inject_Z pp <= 12)%Q)
      by (destruct Hpp as (_ & U); rewrite Zle_Qle in U; exact U).
    assert (X1 : ((9 # 1000) * B <= C * B)%Q)
      by (apply Qmult_le_compat_r; lra).
    assert (X2 : (C * B <= (13 # 100) * B)%Q)
      by (apply Qmult_le_compat_r; lra).
    subst P. unfold profit_old. cbn [num_add num_mul num_div num_of_Z B64.num].
    set (c := B64.div (B64.of_Z pp) (B64.of_Z 100)) in *.
    destruct (B64Facts.mul_pos_bounds base c Vb Vc) as (V1 & A1 & U1);
      fold B C; unfold_bounds; try lra.
    fold B C in A1, U1.
    destruct (B64Facts.add_pos_bounds base (B64.mul base c) Vb V1) as (V2 & A2 & U2);
      fold B; unfold_bounds; try lra.
    fold B in A2, U2. split; lra.
Qed.

(** The two bills with no absorption, on either side of the
    break-even offset. *)
Lemma bills_without_absorption (base : B64.float) (pp : Z) :
  B64.valid base = true -> (0 <= pp <= 12)%Z ->
  (B64.rate_min <= B64.B2Q base)%Q -> (B64.B2Q base <= B64.rate_max)%Q ->
  B64.valid (guest_pay_new (chosenRate base (B64.of_Z pp) (B64.of_Z 0))) = true
  /\ B64.valid (guest_pay_old base) = true
  /\ (0 < B64.B2Q (guest_pay_new (chosenRate base (B64.of_Z pp) (B64.of_Z 0))))%Q
  /\ (0 < B64.B2Q (guest_pay_old base))%Q
  /\ ((pp <= 6)%Z ->
      (B64.B2Q (guest_pay_new (chosenRate base (B64.of_Z pp) (B64.of_Z 0)))
       < B64.B2Q (guest_pay_old base))%Q)
  /\ ((7 <= pp)%Z ->
      (B64.B2Q (guest_pay_old base)
       < B64.B2Q (guest_pay_new (chosenRate base (B64.of_Z pp) (B64.of_Z 0))))%Q).
Proof.
  intros Vb Hpp Hlo Hhi.
  destruct (profit_old_enclosure base pp Vb Hpp Hlo Hhi) as (PL & PU).
  destruct (itc_fraction_value pp Hpp) as (CL & CU & _).
  pose proof (profit_old_valid base pp Vb Hpp) as Vp.
  set (B := B64.B2Q base) in *.
  set (C := B64.B2Q (B64.div (B64.of_Z pp) (B64.of_Z 100))) in *.
  set (p := profit_old base (B64.of_Z pp)) in *.
  set (P := B64.B2Q p) in *.
  assert (PB : (0 < B)%Q) by (unfold B64.rate_min in Hlo; lra).
  assert (Q0 : (0 <= inject_Z pp)%Q)
    by (destruct Hpp as (L & _); rewrite Zle_Qle in L; exact L).
  assert (Q12 : (inject_Z pp <= 12)%Q)
    by (destruct Hpp as (_ & U); rewrite Zle_Qle in U; exact U).
  assert (X1 : (- (1 # 1000) * B <= C * B)%Q)
    by (apply Qmult_le_compat_r; lra).
  assert (X2 : (C * B <= (13 # 100) * B)%Q)
    by (apply Qmult_le_compat_r; lra).
  unfold_bounds.
  assert (PP : (0 < P)%Q) by lra.
  assert (Ech : chosenRate base (B64.of_Z pp) (B64.of_Z 0) = p).
  { unfold chosenRate. fold p.
    destruct (B64Facts.B2Q_pos_inv p PP) as (m & e & ->). reflexivity. }
  rewrite Ech.
  unfold guest_pay_new, guest_pay_old.
  cbn [num_add num_mul num_of_Z B64.num].
  eval_double (B64.add (B64.of_Z 1) OLD_OUTPUT_GST).
  eval_double (B64.add (B64.of_Z 1) NEW_OUTPUT_GST).
  set (c112 := S754_finite false 5044031582654956 (-52)).
  set (c105 := S754_finite false 4728779608739021 (-52)).
  destruct (B64Facts.mul_pos_bounds p c105 Vp eq_refl) as (V1 & L1 & U1);
    fold P; try eval_value c105; unfold_bounds; try lra.
  destruct (B64Facts.mul_pos_bounds base c112 Vb eq_refl) as (V2 & L2 & U2);
    fold B; try eval_value c112; unfold_bounds; try lra.
  fold P in L1, U1. fold B in L2, U2.
  eval_value c105. eval_value c112. unfold_bounds.
  split; [exact V1|]. split; [exact V2|].
  split; [lra|]. split; [lra|]. split.
  - intros H6. assert (Q6 : (inject_Z pp <= 6)%Q) by (rewrite Zle_Qle in H6; exact H6).
    assert (X3 : (C * B <= (601 # 10000) * B)%Q)
      by (apply Qmult_le_compat_r; lra).
    lra.
  - intros H7. assert (Q7 : (7 <= inject_Z pp)%Q) by (rewrite Zle_Qle in H7; exact H7).
    assert (X3 : ((699 # 10000) * B <= C * B)%Q)
      by (apply Qmult_le_compat_r; lra).
    lra.
Qed.

(** The calculation block, once it has returned. *)
Lemma calculation_inv (base : B64.float) (pp a : Z) (o : outputs) :
  calculation base pp a = Some o ->
  old_profit o = profit_old base (B64.of_Z pp)
  /\ neutral_base o = neutral_adr base (B64.of_Z pp)
  /\ chosen o = chosenRate base (B64.of_Z pp) (B64.of_Z a)
  /\ new_profit_chosen o = chosenRate base (B64.of_Z pp) (B64.of_Z a)
  /\ guest_old o = guest_pay_old base
  /\ guest_new_chosen o
     = guest_pay_new (chosenRate base (B64.of_Z pp) (B64.of_Z a))
  /\ guest_delta_chosen o
     = B64.sub (guest_pay_new (chosenRate base (B64.of_Z pp) (B64.of_Z a)))
               (guest_pay_old base).
Proof.
  intros Hc. unfold calculation in Hc.
  destruct (uplift_pct _ base) as [u1|]; [|discriminate].
  destruct (uplift_pct _ base) as [u2|]; [|discriminate].
  injection Hc as <-. repeat split.
Qed.

(** A positive base rate passes the division of lines 97-98. *)
Lemma positive_not_zero (x : B64.float) :
  (0 < B64.B2Q x)%Q -> B64.eqb x B64.zero = false.
Proof. intros H. now destruct (B64Facts.B2Q_pos_inv x H) as (m & e & ->). Qed.

(** The break-even offset lies between the slider values 6 and 7. *)
Lemma break_even_between_6_and_7 (pp : Z) :
  (0 <= pp <= 12)%Z ->
  B64.ltb (B64.of_Z pp) GUEST_BREAK_EVEN_PP = (pp <=? 6)%Z
  /\ B64.ltb GUEST_BREAK_EVEN_PP (B64.of_Z pp) = (7 <=? pp)%Z.
Proof. intros H. each_offset H; split; vm_compute; reflexivity. Qed.

(** Python's [max(0.0, d)] against a bound that is not negative. *)
Lemma pymax_zero_le (d p : B64.float) :
  B64.nonneg p = true -> B64.leb d p = true ->
  B64.leb (pymax B64.zero d) p = true.
Proof.
  intros N H. rewrite pymax_b64. destruct (B64.ltb B64.zero d); [exact H|].
  destruct p as [[|]|[|]| |[|] m e]; try discriminate N; reflexivity.
Qed.

Lemma pymax_zero_ge (d p : B64.float) :
  B64.nonneg p = true -> B64.leb p d = true ->
  B64.leb p (pymax B64.zero d) = true.
Proof.
  intros N H. rewrite pymax_b64. destruct (B64.ltb B64.zero d) eqn:E; [exact H|].
  destruct p as [[|]|[|]| |[|] m e]; try discriminate N;
    destruct d as [[|]|[|]| |[|] md ed];
    try discriminate H; try discriminate E; reflexivity.
Qed.

(** An old profit that has not overflowed comes from a finite base. *)
Lemma profit_old_finite_base (base : B64.float) (pp : Z) :
  (0 <= pp <= 12)%Z -> B64.nonneg base = true ->
  B64.is_finite (profit_old base (B64.of_Z pp)) = true ->
  B64.is_finite base = true.
Proof.
  intros Hpp N F. destruct (itc_fraction_finite pp Hpp) as (Fc & Nc).
  unfold profit_old in F. cbn [num_add num_mul num_div num_of_Z B64.num] in F.
  destruct base as [[|]|[|]| |[|] m e]; try discriminate N; try reflexivity.
  destruct (B64.div (B64.of_Z pp) (B64.of_Z 100)) as [[|]|[|]| |[|] mc ec];
    try discriminate Fc; try discriminate Nc; discriminate F.
Qed.

(** The factor [1 + pp / 100.0] is within 3e-16 of [1 + pp/100]. *)
Lemma one_plus_fraction_value (pp : Z) :
  (0 <= pp <= 12)%Z ->
  B64.valid (B64.add (B64.of_Z 1) (B64.div (B64.of_Z pp) (B64.of_Z 100))) = true
  /\ (1 + inject_Z pp * (1 # 100) - (3 # 10000000000000000)
      <= B64.B2Q (B64.add (B64.of_Z 1) (B64.div (B64.of_Z pp) (B64.of_Z 100))))%Q
  /\ (B64.B2Q (B64.add (B64.of_Z 1) (B64.div (B64.of_Z pp) (B64.of_Z 100)))
      <= 1 + inject_Z pp * (1 # 100) + (3 # 10000000000000000))%Q.
Proof.
  intros H. each_offset H;
    (split; [vm_compute; reflexivity|split; vm_compute; discriminate]).
Qed.

(** The calculation block on a base rate that is not zero. *)
Lemma calculation_explicit (base : B64.float) (pp a : Z) :
  B64.eqb base B64.zero = false ->
  calculation base pp a
  = Some {| old_profit := profit_old base (B64.of_Z pp);
            neutral_base := neutral_adr base (B64.of_Z pp);
            chosen := chosenRate base (B64.of_Z pp) (B64.of_Z a);
            new_profit_chosen := chosenRate base (B64.of_Z pp) (B64.of_Z a);
            guest_old := guest_pay_old base;
            guest_new_chosen :=
              guest_pay_new (chosenRate base (B64.of_Z pp) (B64.of_Z a));
            guest_delta_chosen :=
              B64.sub (guest_pay_new (chosenRate base (B64.of_Z pp) (B64.of_Z a)))
                      (guest_pay_old base);
            adr_uplift_pct_neutral :=
              B64.mul (B64.sub (B64.div (neutral_adr base (B64.of_Z pp)) base)
                               (B64.of_Z 1))
                      (B64.of_Z 100);
            adr_uplift_pct_chosen :=
              B64.mul (B64.sub (B64.div (chosenRate base (B64.of_Z pp) (B64.of_Z a))
                                        base)
                               (B64.of_Z 1))
                      (B64.of_Z 100) |}.
Proof.
  intros E. unfold calculation, uplift_pct, truediv.
  cbn [num_is_zero B64.num]. rewrite E. reflexivity.
Qed.

(** Line 97 or 98 on the doubles, for a rate [nb] within 5e-16 of
    [(1 + pp/100) * base]: three more roundings between the slider value
    and the uplift shown. *)
Lemma uplift_bound (base nb : B64.float) (pp : Z) :
  B64.valid base = true -> B64.valid nb = true -> (1 <= pp <= 12)%Z ->
  (B64.rate_min <= B64.B2Q base)%Q -> (B64.B2Q base <= B64.rate_max)%Q ->
  ((1 + inject_Z pp * (1 # 100) - (5 # 10000000000000000)) * B64.B2Q base
   <= B64.B2Q nb)%Q ->
  (B64.B2Q nb
   <= (1 + inject_Z pp * (1 # 100) + (5 # 10000000000000000)) * B64.B2Q base)%Q ->
  B64.valid (B64.mul (B64.sub (B64.div nb base) (B64.of_Z 1)) (B64.of_Z 100)) = true
  /\ (Qabs (B64.B2Q (B64.mul (B64.sub (B64.div nb base) (B64.of_Z 1))
                             (B64.of_Z 100))
            - inject_Z pp)
      <= 1 # 10000000000000)%Q.
Proof.
  intros Vb V1 Hpp Hlo Hhi NL NU.
  set (B := B64.B2Q base) in *. set (N := B64.B2Q nb) in *.
  assert (PB : (0 < B)%Q) by (unfold B64.rate_min in Hlo; lra).
  assert (Q1 : (1 <= inject_Z pp)%Q)
    by (destruct Hpp as (L & _); rewrite Zle_Qle in L; exact L).
  assert (Q12 : (inject_Z pp <= 12)%Q)
    by (destruct Hpp as (_ & U); rewrite Zle_Qle in U; exact U).
  unfold_bounds.
  (* the ratio of the rate to the base *)
  set (v := (N / B)%Q).
  assert (Hv : (v * B == N)%Q).
  { unfold v. field. intros E. rewrite E in PB. now apply Qlt_irrefl in PB. }
  assert (VL : (1 + inject_Z pp * (1 # 100) - (5 # 10000000000000000) <= v)%Q)
    by (apply (Qmult_le_r _ _ B PB); lra).
  assert (VU : (v <= 1 + inject_Z pp * (1 # 100) + (5 # 10000000000000000))%Q)
    by (apply (Qmult_le_r _ _ B PB); lra).
  assert (PN : (0 < N)%Q).
  { rewrite <- Hv. apply Qmult_lt_0_compat; lra. }
  destruct (B64Div.div_pos_bounds nb base V1 Vb) as (V2 & L2 & U2);
    fold B N v; unfold_bounds; try lra.
  fold B N v in L2, U2.
  set (r := B64.div nb base) in *. set (R := B64.B2Q r) in *.
  (* minus one *)
  replace (B64.of_Z 1) with B64.one by reflexivity.
  destruct (B64Order.sub_pos_bounds r B64.one V2 eq_refl) as (V3 & L3 & U3);
    fold R; try eval_value B64.one; unfold_bounds; try lra.
  fold R in L3, U3. eval_value B64.one.
  set (d := B64.sub r B64.one) in *. set (D := B64.B2Q d) in *.
  (* times a hundred *)
  destruct (B64Facts.mul_pos_bounds d (B64.of_Z 100) V3 eq_refl) as (V4 & L4 & U4);
    fold D; try eval_value (B64.of_Z 100); unfold_bounds; try lra.
  fold D in L4, U4. eval_value (B64.of_Z 100).
  split; [exact V4|].
  apply Qabs_Qle_condition. split; lra.
Qed.

(** Lines 86 and 97: the neutral rate and its uplift. *)
Lemma neutral_uplift_bound (base : B64.float) (pp : Z) :
  B64.valid base = true -> (1 <= pp <= 12)%Z ->
  (B64.rate_min <= B64.B2Q base)%Q -> (B64.B2Q base <= B64.rate_max)%Q ->
  (Qabs (B64.B2Q (B64.mul (B64.sub (B64.div (neutral_adr base (B64.of_Z pp)) base)
                                   (B64.of_Z 1))
                          (B64.of_Z 100))
         - inject_Z pp)
   <= 1 # 10000000000000)%Q.
Proof.
  intros Vb Hpp Hlo Hhi.
  destruct (one_plus_fraction_value pp ltac:(lia)) as (Vc & CL & CU).
  assert (Vn : B64.valid (neutral_adr base (B64.of_Z pp)) = true).
  { unfold neutral_adr. cbn [num_add num_mul num_div num_of_Z B64.num].
    now apply B64Facts.mul_valid. }
  apply uplift_bound; try assumption.
  all: unfold neutral_adr; cbn [num_add num_mul num_div num_of_Z B64.num].
  all: set (c := B64.add (B64.of_Z 1) (B64.div (B64.of_Z pp) (B64.of_Z 100))) in *.
  all: set (C := B64.B2Q c) in *; set (B := B64.B2Q base) in *.
  all: assert (PB : (0 < B)%Q) by (unfold B64.rate_min in Hlo; lra).
  all: assert (Q1 : (1 <= inject_Z pp)%Q)
         by (destruct Hpp as (L & _); rewrite Zle_Qle in L; exact L).
  all: assert (Q12 : (inject_Z pp <= 12)%Q)
         by (destruct Hpp as (_ & U); rewrite Zle_Qle in U; exact U).
  all: assert (X1 : ((1 + inject_Z pp * (1 # 100) - (3 # 10000000000000000)) * B
                     <= C * B)%Q) by (apply Qmult_le_compat_r; lra).
  all: assert (X2 : (C * B
                     <= (1 + inject_Z pp * (1 # 100) + (3 # 10000000000000000)) * B)%Q)
         by (apply Qmult_le_compat_r; lra).
  all: assert (X3 : (inject_Z pp * B <= 12 * B)%Q)
         by (apply Qmult_le_compat_r; lra).
  all: assert (X4 : (1 * B <= inject_Z pp * B)%Q)
         by (apply Qmult_le_compat_r; lra).
  all: unfold_bounds.
  all: destruct (B64Facts.mul_pos_bounds base c Vb Vc) as (V1 & L1 & U1);
         fold B C; unfold_bounds; try lra.
  all: fold B C in L1, U1; lra.
Qed.

(** Lines 85, 90 and 98 with no absorption: the chosen rate is the old
    profit, and its uplift is the slider value up to rounding. *)
Lemma chosen_uplift_bound (base : B64.float) (pp : Z) :
  B64.valid base = true -> (1 <= pp <= 12)%Z ->
  (B64.rate_min <= B64.B2Q base)%Q -> (B64.B2Q base <= B64.rate_max)%Q ->
  (Qabs (B64.B2Q (B64.mul (B64.sub (B64.div (profit_old base (B64.of_Z pp)) base)
                                   (B64.of_Z 1))
                          (B64.of_Z 100))
         - inject_Z pp)
   <= 1 # 10000000000000)%Q.
Proof.
  intros Vb Hpp Hlo Hhi.
  destruct (profit_old_enclosure base pp Vb ltac:(lia) Hlo Hhi) as (PL & PU).
  destruct (itc_fraction_value pp ltac:(lia)) as (CL & CU & _).
  pose proof (profit_old_valid base pp Vb ltac:(lia)) as Vp.
  apply uplift_bound; try assumption.
  all: set (C := B64.B2Q (B64.div (B64.of_Z pp) (B64.of_Z 100))) in *.
  all: set (B := B64.B2Q base) in *.
  all: assert (PB : (0 < B)%Q) by (unfold B64.rate_min in Hlo; lra).
  all: assert (Q1 : (1 <= inject_Z pp)%Q)
         by (destruct Hpp as (L & _); rewrite Zle_Qle in L; exact L).
  all: assert (Q12 : (inject_Z pp <= 12)%Q)
         by (destruct Hpp as (_ & U); rewrite Zle_Qle in U; exact U).
  all: assert (X1 : ((inject_Z pp * (1 # 100) - (1 # 100000000000000000)) * B
                     <= C * B)%Q) by (apply Qmult_le_compat_r; lra).
  all: assert (X2 : (C * B
                     <= (inject_Z pp * (1 # 100) + (1 # 100000000000000000)) * B)%Q)
         by (apply Qmult_le_compat_r; lra).
  all: assert (X3 : (inject_Z pp * B <= 12 * B)%Q)
         by (apply Qmult_le_compat_r; lra).
  all: assert (X4 : (1 * B <= inject_Z pp * B)%Q)
         by (apply Qmult_le_compat_r; lra).
  all: unfold_bounds; lra.
Qed.

(** With the slider at 0 the neutral rate is the base and the uplift is
    [0.0] exactly. *)
Lemma neutral_uplift_zero (base : B64.float) :
  B64.valid base = true -> (0 < B64.B2Q base)%Q ->
  B64.mul (B64.sub (B64.div (neutral_adr base (B64.of_Z 0)) base) (B64.of_Z 1))
          (B64.of_Z 100)
  = B64.zero.
Proof.
  intros Vb PB. destruct (B64Facts.B2Q_pos_inv base PB) as (m & e & ->).
  unfold neutral_adr. cbn [num_add num_mul num_div num_of_Z B64.num].
  replace (B64.add (B64.of_Z 1) (B64.div (B64.of_Z 0) (B64.of_Z 100)))
    with B64.one by reflexivity.
  unfold B64.mul at 2. rewrite B64Order.mul_one by exact Vb.
  unfold B64.div. rewrite B64Div.div_self by exact Vb.
  reflexivity.
Qed.

(** The uplift of the base rate over itself is [0.0]. *)
Lemma self_uplift_zero (base : B64.float) :
  B64.valid base = true -> (0 < B64.B2Q base)%Q ->
  B64.mul (B64.sub (B64.div base base) (B64.of_Z 1)) (B64.of_Z 100) = B64.zero.
Proof.
  intros Vb PB. destruct (B64Facts.B2Q_pos_inv base PB) as (m & e & ->).
  unfold B64.div. rewrite B64Div.div_self by exact Vb. reflexivity.
Qed.

(** With the slider at 0 the old profit is the base rate. *)
Lemma profit_old_no_offset (base : B64.float) :
  (0 < B64.B2Q base)%Q -> profit_old base (B64.of_Z 0) = base.
Proof.
  intros PB. destruct (B64Facts.B2Q_pos_inv base PB) as (m & e & ->). reflexivity.
Qed.

(** An [int] within 53 bits converts to the double of the same value. *)
Lemma of_Z_value (b : Z) :
  (Z.abs b < 2 ^ 53)%Z ->
  B64.valid (B64.of_Z b) = true /\ (B64.B2Q (B64.of_Z b) == inject_Z b)%Q.
Proof.
  intros H. destruct (B64Facts.of_Z_exact b H) as (V & _ & S).
  split; [exact V|]. rewrite (B64Facts.B2Q_scaled _ V).
  unfold B64.of_Z. rewrite S, inject_Z_mult, B64Facts.Q2pow_inject by lia.
  rewrite <- Qmult_assoc, <- B64Facts.Q2pow_add. cbn. ring.
Qed.

(** A finite double above [0.0] has a positive value. *)
Lemma lt_zero_value (x : B64.float) :
  B64.is_finite x = true -> B64.ltb B64.zero x = true -> (0 < B64.B2Q x)%Q.
Proof.
  intros F H.
  destruct x as [s|s| |[|] m e]; try discriminate F; try discriminate H.
  cbn [B64.B2Q cond_Zopp]. apply Qmult_lt_0_compat.
  - apply B64Facts.inject_Z_pos. lia.
  - apply B64Facts.Q2pow_pos.
Qed.

(** Lines 97-98 on a positive rate whose ratio to the base is in the
    normal range: the uplift is a finite double. *)
Lemma uplift_finite (rate base : B64.float) :
  B64.valid rate = true -> B64.valid base = true ->
  (0 < B64.B2Q base)%Q ->
  (B64.min_normal * B64.B2Q base <= B64.B2Q rate)%Q ->
  (B64.B2Q rate <= B64.rate_max * B64.B2Q base)%Q ->
  B64.is_finite (B64.mul (B64.sub (B64.div rate base) (B64.of_Z 1))
                         (B64.of_Z 100)) = true.
Proof.
  intros Vr Vb PB Hlo Hhi.
  set (two_1000 := S754_finite false 4503599627370496 948).
  set (two_1010 := S754_finite false 4503599627370496 958).
  set (B := B64.B2Q base) in *. set (N := B64.B2Q rate) in *.
  assert (PN : (0 < N)%Q) by (unfold_bounds; lra).
  set (v := (N / B)%Q).
  assert (Hv : (v * B == N)%Q).
  { unfold v. field. intros E. rewrite E in PB. now apply Qlt_irrefl in PB. }
  assert (VL : (B64.min_normal <= v)%Q)
    by (apply (Qmult_le_r _ _ B PB); rewrite Hv; exact Hlo).
  assert (VU : (v <= B64.rate_max)%Q)
    by (apply (Qmult_le_r _ _ B PB); rewrite Hv; exact Hhi).
  unfold_bounds.
  destruct (B64Div.div_pos_bounds rate base Vr Vb) as (V2 & L2 & U2);
    fold B N v; unfold_bounds; try lra.
  fold B N v in L2, U2.
  set (r := B64.div rate base) in *. set (R := B64.B2Q r) in *.
  assert (Fr : B64.is_finite r = true) by (apply B64Order.B2Q_pos_finite; fold R; lra).
  (* minus one *)
  destruct (B64Range.sub_between r (B64.of_Z 1) (B64.of_Z (-1)) two_1000)
    as (V3 & F3 & L3 & U3); try reflexivity; try assumption; fold R.
  { eval_value (B64.of_Z 1). eval_value (B64.of_Z (-1)). lra. }
  { eval_value (B64.of_Z 1). eval_value two_1000. lra. }
  set (d := B64.sub r (B64.of_Z 1)) in *. set (D := B64.B2Q d) in *.
  (* times a hundred *)
  destruct (B64Range.mul_between d (B64.of_Z 100) (B64.of_Z (-100)) two_1010)
    as (V4 & F4 & _); try reflexivity; try assumption; fold D.
  { eval_value (B64.of_Z 100). eval_value (B64.of_Z (-100)).
    eval_value (B64.of_Z (-1)). lra. }
  { eval_value (B64.of_Z 100). eval_value two_1010. eval_value two_1000. lra. }
Qed.

(** Python's [max(0.0, d)] by cases, and its value. *)
Lemma pymax_zero_cases (d : B64.float) :
  (B64.ltb B64.zero d = true -> pymax B64.zero d = d)
  /\ (B64.ltb B64.zero d = false -> pymax B64.zero d = B64.zero).
Proof. rewrite pymax_b64. split; intros ->; reflexivity. Qed.

Lemma pymax_zero_value (d : B64.float) :
  B64.is_finite d = true ->
  (B64.B2Q (pymax B64.zero d) == Qmax 0 (B64.B2Q d))%Q.
Proof.
  intros F. rewrite pymax_b64. destruct (B64.ltb B64.zero d) eqn:E.
  - pose proof (lt_zero_value d F E) as P.
    rewrite Q.max_r; [reflexivity|now apply Qlt_le_weak].
  - change (B64.B2Q B64.zero) with 0%Q.
    rewrite Q.max_l; [reflexivity|].
    destruct d as [s|s| |[|] m e]; try discriminate F; try discriminate E;
      try apply Qle_refl.
    cbn [B64.B2Q].
    pose proof (B64Facts.Q2pow_pos e) as PW.
    set (A := inject_Z (cond_Zopp true (Z.pos m))).
    assert (HA : (A < 0)%Q) by (apply B64Facts.inject_Z_neg; cbn; lia).
    set (W := (2 ^ e)%Q) in *.
    assert (A * W <= 0 * W)%Q by (apply Qmult_le_compat_r; lra).
    lra.
Qed.

(** On the rationals [max(0, x)] is the library's maximum. *)
Lemma pymax_Q_max (x : Q) : (pymax (0 : Q) x == Qmax 0 x)%Q.
Proof.
  rewrite pymax_Q. destruct (Qle_bool x 0) eqn:E.
  - apply Qle_bool_iff in E. now rewrite Q.max_l.
  - destruct (Qlt_le_dec 0 x) as [L|L].
    + rewrite Q.max_r; [reflexivity|now apply Qlt_le_weak].
    + apply Qle_bool_iff in L. congruence.
Qed.

(** Lines 67-71 against the real products: the two bills are within
    2.1e-16 of [1.12 * base] and [1.05 * base], relatively, for a base
    rate between 1e-300 and 1e300 (one rounding of the factor and one
    of the product). *)
Lemma guest_pay_close (base : B64.float) :
  B64.valid base = true ->
  (B64.rate_min <= B64.B2Q base)%Q -> (B64.B2Q base <= B64.rate_max)%Q ->
  B64.valid (guest_pay_old base) = true
  /\ B64.valid (guest_pay_new base) = true
  /\ (Qabs (B64.B2Q (guest_pay_old base) - (112 # 100) * B64.B2Q base)
      <= (21 # 100000000000000000) * ((112 # 100) * B64.B2Q base))%Q
  /\ (Qabs (B64.B2Q (guest_pay_new base) - (105 # 100) * B64.B2Q base)
      <= (21 # 100000000000000000) * ((105 # 100) * B64.B2Q base))%Q.
Proof.
  intros Vb Hlo Hhi.
  assert (PB : (0 < B64.B2Q base)%Q) by (unfold_bounds; lra).
  unfold guest_pay_old, guest_pay_new.
  cbn [num_add num_mul num_of_Z B64.num].
  eval_double (B64.add (B64.of_Z 1) OLD_OUTPUT_GST).
  eval_double (B64.add (B64.of_Z 1) NEW_OUTPUT_GST).
  set (c112 := S754_finite false 5044031582654956 (-52)).
  set (c105 := S754_finite false 4728779608739021 (-52)).
  destruct (B64Facts.mul_pos_bounds base c112 Vb eq_refl) as (V1 & L1 & U1);
    try eval_value c112; unfold_bounds; try lra.
  destruct (B64Facts.mul_pos_bounds base c105 Vb eq_refl) as (V2 & L2 & U2);
    try eval_value c105; unfold_bounds; try lra.
  eval_value c112. eval_value c105. unfold_bounds.
  split; [exact V1|]. split; [exact V2|].
  split; apply Qabs_Qle_condition; split; lra.
Qed.

(** Below 1e-300 the bills are below [2^-900]. *)
Lemma guest_pay_tiny (base : B64.float) :
  B64.valid base = true -> B64.is_finite base = true ->
  (0 <= B64.B2Q base)%Q -> (B64.B2Q base <= B64.rate_min)%Q ->
  B64.is_finite (guest_pay_old base) = true
  /\ B64.is_finite (guest_pay_new base) = true
  /\ (Qabs (B64.B2Q (guest_pay_old base) - (112 # 100) * B64.B2Q base)
      <= 1 # 1000000000)%Q
  /\ (Qabs (B64.B2Q (guest_pay_new base) - (105 # 100) * B64.B2Q base)
      <= 1 # 1000000000)%Q.
Proof.
  intros Vb Fb H0 H1.
  unfold guest_pay_old, guest_pay_new.
  cbn [num_add num_mul num_of_Z B64.num].
  eval_double (B64.add (B64.of_Z 1) OLD_OUTPUT_GST).
  eval_double (B64.add (B64.of_Z 1) NEW_OUTPUT_GST).
  set (c112 := S754_finite false 5044031582654956 (-52)).
  set (c105 := S754_finite false 4728779608739021 (-52)).
  set (tiny := S754_finite false 4503599627370496 (-952)).
  set (B := B64.B2Q base) in *.
  destruct (B64Range.mul_between base c112 B64.zero tiny)
    as (_ & F1 & L1 & U1); try reflexivity; try assumption; fold B.
  { eval_value c112. change (B64.B2Q B64.zero) with 0%Q. lra. }
  { eval_value c112. eval_value tiny. unfold_bounds. lra. }
  destruct (B64Range.mul_between base c105 B64.zero tiny)
    as (_ & F2 & L2 & U2); try reflexivity; try assumption; fold B.
  { eval_value c105. change (B64.B2Q B64.zero) with 0%Q. lra. }
  { eval_value c105. eval_value tiny. unfold_bounds. lra. }
  change (B64.B2Q B64.zero) with 0%Q in L1, L2.
  eval_value tiny. unfold_bounds.
  split; [exact F1|]. split; [exact F2|].
  split; apply Qabs_Qle_condition; split; lra.
Qed.

(** ** The text of a double *)

Module DisplayFacts.

Import String Display.

Local Open Scope string_scope.

(** A rational within a half of an integer rounds to it. *)
Lemma round_half_even_near (q : Q) (n : Z) :
  (Qabs (q - inject_Z n) < 1 # 2)%Q -> round_half_even q = n.
Proof.
  intros H. apply Qabs_Qlt_condition in H. destruct H as [L U].
  pose proof (Qfloor_le q) as FL. pose proof (Qlt_floor q) as FU.
  unfold round_half_even. set (f := Qfloor q) in *. clearbody f.
  rewrite inject_Z_plus in FU. change (inject_Z 1) with 1%Q in FU.
  assert (Hf : (f = n \/ f = n - 1)%Z).
  { destruct (Z_le_gt_dec f n) as [C1|C1].
    - destruct (Z_le_gt_dec (n - 1) f) as [C2|C2]; [lia|]. exfalso.
      assert (C3 : (f + 2 <= n)%Z) by lia.
      rewrite Zle_Qle, inject_Z_plus in C3. change (inject_Z 2) with 2%Q in C3.
      clear C1 C2. lra.
    - exfalso. assert (C3 : (n + 1 <= f)%Z) by lia.
      rewrite Zle_Qle, inject_Z_plus in C3. change (inject_Z 1) with 1%Q in C3.
      clear C1. lra. }
  destruct Hf as [->| ->].
  - assert (C : (q - inject_Z n ?= 1 # 2)%Q = Lt) by (rewrite <- Qlt_alt; exact U).
    now rewrite C.
  - assert (E : (inject_Z (n - 1) == inject_Z n - 1)%Q).
    { unfold Z.sub. rewrite inject_Z_plus. reflexivity. }
    assert (C : (q - inject_Z (n - 1) ?= 1 # 2)%Q = Gt)
      by (rewrite <- Qgt_alt, E; lra).
    rewrite C. lia.
Qed.

(** The text of a positive double that is within a half of [n] units of
    the last digit shown. *)
Lemma format_f_near (plus comma : bool) (precision : nat) (x : B64.float) (n : Z) :
  (0 < B64.B2Q x)%Q ->
  (Qabs (B64.B2Q x * inject_Z (10 ^ Z.of_nat precision) - inject_Z n) < 1 # 2)%Q ->
  format_f plus comma precision x
  = sign_of plus false ++ fixed comma precision n.
Proof.
  intros P H. destruct (B64Facts.B2Q_pos_inv x P) as (m & e & ->).
  cbn [format_f]. cbn [B64.B2Q cond_Zopp] in H.
  now rewrite (round_half_even_near _ n H).
Qed.

Lemma append_assoc (s1 s2 s3 : string) : (s1 ++ s2) ++ s3 = s1 ++ (s2 ++ s3).
Proof. induction s1 as [|c s1 IH]; cbn; [reflexivity|now rewrite IH]. Qed.

(** An uplift within 1e-13 of the slider value is shown as that value
    with one decimal, [0]. *)
Lemma uplift_text (u : B64.float) (pp : Z) :
  (1 <= pp <= 12)%Z ->
  (Qabs (B64.B2Q u - inject_Z pp) <= 1 # 10000000000000)%Q ->
  format_f false true 1 u = decimal pp ++ ".0".
Proof.
  intros Hpp H. apply Qabs_Qle_condition in H. destruct H as [L U].
  assert (Q1 : (1 <= inject_Z pp)%Q)
    by (destruct Hpp as (A & _); rewrite Zle_Qle in A; exact A).
  rewrite (format_f_near false true 1 u (10 * pp)).
  - unfold fixed. change (10 ^ Z.of_nat 1)%Z with 10%Z.
    rewrite (Z.mul_comm 10 pp), Z.div_mul, Z.mod_mul by lia.
    assert (A : (0 <= pp <= 12)%Z) by lia. clear - A.
    each_offset A; vm_compute; reflexivity.
  - lra.
  - change (10 ^ Z.of_nat 1)%Z with 10%Z. rewrite inject_Z_mult.
    change (inject_Z 10) with 10%Q.
    apply Qabs_Qlt_condition. split; lra.
Qed.

(** The text of an [int] amount formatted with [,.0f]. *)
Lemma format_amount (a : Z) :
  (0 < a < 2 ^ 53)%Z ->
  format_f false true 0 (B64.of_Z a) = group (decimal a).
Proof.
  intros H. destruct (of_Z_value a ltac:(lia)) as (V & E).
  assert (PA : (0 < inject_Z a)%Q) by (apply B64Facts.inject_Z_pos; lia).
  rewrite (format_f_near false true 0 (B64.of_Z a) a).
  - unfold fixed. change (10 ^ Z.of_nat 0)%Z with 1%Z. now rewrite Z.div_1_r.
  - now rewrite E.
  - change (10 ^ Z.of_nat 0)%Z with 1%Z. rewrite E.
    setoid_replace (inject_Z a * inject_Z 1 - inject_Z a)%Q with 0%Q
      by (change (inject_Z 1) with 1%Q; ring).
    reflexivity.
Qed.

End DisplayFacts.

(** ** The claims *)

(** C1: for every base rate, credit offset and absorption amount the
    chosen rate is [max(0, profit_old(base, offset) - absorption)], as a
    formula and as the script's variable [chosen_base]: it is the
    rounded difference when that is above zero and [0.0] otherwise, so
    its value is the maximum of 0 and the value of the difference, and
    it is never negative (in binary64 neither below zero, nor a
    negative zero, nor a NaN, whatever doubles come in).  In exact
    arithmetic it is the maximum of 0 and the difference. *)
Theorem chosen_rate_is_clamped_difference :
  (forall base pts absorb : B64.float,
      (B64.ltb B64.zero (B64.sub (profit_old base pts) absorb) = true ->
       chosenRate base pts absorb = B64.sub (profit_old base pts) absorb)
      /\ (B64.ltb B64.zero (B64.sub (profit_old base pts) absorb) = false ->
          chosenRate base pts absorb = B64.zero)
      /\ (B64.is_finite (B64.sub (profit_old base pts) absorb) = true ->
          (B64.B2Q (chosenRate base pts absorb)
           == Qmax 0 (B64.B2Q (B64.sub (profit_old base pts) absorb)))%Q)
      /\ B64.nonneg (chosenRate base pts absorb) = true
      /\ B64.ltb (chosenRate base pts absorb) B64.zero = false)
  /\ (forall (base_adr : B64.float) (itc_claim_pp absorb_rupees : Z) o,
         calculation base_adr itc_claim_pp absorb_rupees = Some o ->
         old_profit o = profit_old base_adr (B64.of_Z itc_claim_pp)
         /\ chosen o
            = chosenRate base_adr (B64.of_Z itc_claim_pp) (B64.of_Z absorb_rupees)
         /\ (B64.ltb B64.zero (B64.sub (old_profit o) (B64.of_Z absorb_rupees))
             = true ->
             chosen o = B64.sub (old_profit o) (B64.of_Z absorb_rupees))
         /\ (B64.ltb B64.zero (B64.sub (old_profit o) (B64.of_Z absorb_rupees))
             = false ->
             chosen o = B64.zero)
         /\ B64.nonneg (chosen o) = true)
  /\ (forall base pts absorb : Q,
         (chosenRate base pts absorb == Qmax 0 (profit_old base pts - absorb))%Q
         /\ (0 <= chosenRate base pts absorb)%Q).
Proof.
  split; [|split].
  - intros base pts absorb.
    destruct (pymax_zero_cases (B64.sub (profit_old base pts) absorb)) as (T & F).
    assert (N : B64.nonneg (chosenRate base pts absorb) = true)
      by apply pymax_zero_nonneg.
    repeat split; try assumption.
    + intros Fd. now apply pymax_zero_value.
    + now apply nonneg_not_lt_zero.
  - intros base pp a o Hc.
    destruct (calculation_inv base pp a o Hc) as (E1 & _ & E2 & _).
    rewrite E1, E2.
    destruct (pymax_zero_cases
                (B64.sub (profit_old base (B64.of_Z pp)) (B64.of_Z a))) as (T & F).
    repeat split; try assumption. apply pymax_zero_nonneg.
  - intros base pts absorb. split.
    + apply pymax_Q_max.
    + apply (pymax_Q_ge (inject_Z 0)).
Qed.

Lemma chosen_rate_is_clamped_difference_witness :
  chosenRate (B64.of_Z 6000) (B64.of_Z 3) (B64.of_Z 0)
  = B64.sub (profit_old (B64.of_Z 6000) (B64.of_Z 3)) (B64.of_Z 0)
  /\ chosenRate (B64.of_Z 6000) (B64.of_Z 3) (B64.of_Z 0) = B64.of_Z 6180.
Proof.
  assert (H : chosenRate (B64.of_Z 6000) (B64.of_Z 3) (B64.of_Z 0)
              = B64.sub (profit_old (B64.of_Z 6000) (B64.of_Z 3)) (B64.of_Z 0)).
  { apply (proj1 chosen_rate_is_clamped_difference
                 (B64.of_Z 6000) (B64.of_Z 3) (B64.of_Z 0)).
    vm_compute; reflexivity. }
  split; [exact H|]. rewrite H. vm_compute; reflexivity.
Defined.

(** C2: the neutral rate is not always the old profit.  At the smallest
    base the number input accepts, 300.0, and an offset of 11 points,
    [neutral_adr] returns 333.00000000000006 and [profit_old] 333.0:
    the two functions compute the same quantity by two expressions,
    [base * (1 + pp / 100.0)] and [base + base * (pp / 100.0)], that
    round differently. *)
Lemma neutral_rate_differs_from_old_profit :
  neutral_adr (B64.of_Z 300) (B64.of_Z 11)
  = S754_finite false 5858197952790529 (-44)
  /\ profit_old (B64.of_Z 300) (B64.of_Z 11) = B64.of_Z 333
  /\ B64.eqb (neutral_adr (B64.of_Z 300) (B64.of_Z 11))
             (profit_old (B64.of_Z 300) (B64.of_Z 11)) = false.
Proof. repeat split; vm_compute; reflexivity. Qed.

(** C3, as the claim states it, fails on the doubles.  At a base of
    10,000,000, which the number input accepts, [guest_pay_old] returns
    11200000.000000002, off by [2^-29], about 1.9e-9, from
    [1.12 * base]; and for a base in the subnormal range,
    [10 * 2^-1074], it returns [11 * 2^-1074], off by 1/56 of
    [1.12 * base], so a relative tolerance of 1e-9 fails as well. *)
Lemma guest_pay_old_misses_tolerance :
  B64.valid (B64.of_Z 10000000) = true
  /\ (B64.B2Q (B64.of_Z 10000000) == 10000000)%Q
  /\ guest_pay_old (B64.of_Z 10000000)
     = S754_finite false 6012954214400001 (-29)
  /\ (B64.B2Q (guest_pay_old (B64.of_Z 10000000))
      - (112 # 100) * B64.B2Q (B64.of_Z 10000000) == 1 # 536870912)%Q
  /\ ((1 # 1000000000)
      < Qabs (B64.B2Q (guest_pay_old (B64.of_Z 10000000))
              - (112 # 100) * B64.B2Q (B64.of_Z 10000000)))%Q
  /\ B64.valid (S754_finite false 10 (-1074)) = true
  /\ (0 <= B64.B2Q (S754_finite false 10 (-1074)))%Q
  /\ guest_pay_old (S754_finite false 10 (-1074)) = S754_finite false 11 (-1074)
  /\ ((1 # 1000000000) * ((112 # 100) * B64.B2Q (S754_finite false 10 (-1074)))
      < Qabs (B64.B2Q (guest_pay_old (S754_finite false 10 (-1074)))
              - (112 # 100) * B64.B2Q (S754_finite false 10 (-1074))))%Q.
Proof. repeat split; vm_compute; first [reflexivity | discriminate]. Qed.

(** C3, amended: for every base rate from 0 to 4,000,000 the two bills
    are finite and within 1e-9 of [1.12 * base] and [1.05 * base]; for
    every base rate between 1e-300 and 1e300 they are within 1e-15 of
    them, relatively; in exact arithmetic they are 112/100 and 105/100
    times [base] for every [base]. *)
Theorem guest_pay_is_scaled_base :
  (forall base : B64.float,
      B64.valid base = true -> B64.is_finite base = true ->
      (0 <= B64.B2Q base)%Q -> (B64.B2Q base <= 4000000)%Q ->
      B64.is_finite (guest_pay_old base) = true
      /\ B64.is_finite (guest_pay_new base) = true
      /\ (Qabs (B64.B2Q (guest_pay_old base) - (112 # 100) * B64.B2Q base)
          <= 1 # 1000000000)%Q
      /\ (Qabs (B64.B2Q (guest_pay_new base) - (105 # 100) * B64.B2Q base)
          <= 1 # 1000000000)%Q)
  /\ (forall base : B64.float,
         B64.valid base = true ->
         (B64.rate_min <= B64.B2Q base)%Q -> (B64.B2Q base <= B64.rate_max)%Q ->
         (Qabs (B64.B2Q (guest_pay_old base) - (112 # 100) * B64.B2Q base)
          <= (1 # 1000000000000000) * ((112 # 100) * B64.B2Q base))%Q
         /\ (Qabs (B64.B2Q (guest_pay_new base) - (105 # 100) * B64.B2Q base)
             <= (1 # 1000000000000000) * ((105 # 100) * B64.B2Q base))%Q)
  /\ (forall base : Q,
         guest_pay_old base == (112 # 100) * base
         /\ guest_pay_new base == (105 # 100) * base)%Q.
Proof.
  split; [|split].
  - intros base Vb Fb H0 H1.
    destruct (Qlt_le_dec (B64.B2Q base) B64.rate_min) as [Small|Normal].
    + apply guest_pay_tiny; try assumption. now apply Qlt_le_weak.
    + destruct (guest_pay_close base Vb Normal) as (V1 & V2 & A1 & A2).
      { unfold_bounds. lra. }
      assert (PB : (0 < B64.B2Q base)%Q) by (unfold_bounds; lra).
      set (B := B64.B2Q base) in *.
      set (O := B64.B2Q (guest_pay_old base)) in *.
      set (N := B64.B2Q (guest_pay_new base)) in *.
      apply Qabs_Qle_condition in A1, A2.
      assert (PO : (0 < O)%Q) by lra. assert (PN : (0 < N)%Q) by lra.
      split; [now apply B64Order.B2Q_pos_finite|].
      split; [now apply B64Order.B2Q_pos_finite|].
      split; apply Qabs_Qle_condition; split; lra.
  - intros base Vb Hlo Hhi.
    destruct (guest_pay_close base Vb Hlo Hhi) as (_ & _ & A1 & A2).
    assert (PB : (0 < B64.B2Q base)%Q) by (unfold_bounds; lra).
    split; (eapply Qle_trans; [eassumption|]); lra.
  - intros base.
    unfold guest_pay_old, guest_pay_new, OLD_OUTPUT_GST, NEW_OUTPUT_GST; cbn.
    split; ring.
Qed.

Lemma guest_pay_is_scaled_base_witness :
  B64.is_finite (guest_pay_old (B64.of_Z 6000)) = true
  /\ B64.is_finite (guest_pay_new (B64.of_Z 6000)) = true
  /\ (Qabs (B64.B2Q (guest_pay_old (B64.of_Z 6000))
         - (112 # 100) * B64.B2Q (B64.of_Z 6000))
   <= 1 # 1000000000)%Q
  /\ (Qabs (B64.B2Q (guest_pay_new (B64.of_Z 6000))
            - (105 # 100) * B64.B2Q (B64.of_Z 6000))
      <= 1 # 1000000000)%Q.
Proof.
  apply (proj1 guest_pay_is_scaled_base (B64.of_Z 6000)).
  - vm_compute; reflexivity.
  - vm_compute; reflexivity.
  - vm_compute; discriminate.
  - vm_compute; discriminate.
Defined.

(** C4: the chart's ordinates are exactly 13 values, one per integer
    offset 0, 1, ..., 12 in ascending order, the one for [pp] being
    [guest_pay_new] of the chosen rate at that offset. *)
Theorem sweep_has_one_point_per_offset :
  forall (base_adr : B64.float) (absorb_rupees : Z),
    slabs = [0; 1; 2; 3; 4; 5; 6; 7; 8; 9; 10; 11; 12]%Z
    /\ length (y_vals base_adr absorb_rupees) = 13%nat
    /\ y_vals base_adr absorb_rupees
       = map (fun pp => guest_pay_new
                          (chosenRate base_adr (B64.of_Z pp)
                                      (B64.of_Z absorb_rupees)))
             [0; 1; 2; 3; 4; 5; 6; 7; 8; 9; 10; 11; 12]%Z.
Proof.
  intros base_adr absorb_rupees. repeat split.
Qed.

(** C5: for a fixed base rate and slider value the chosen rate never
    goes up as the absorption grows over -5000..5000, it is never below
    zero, and it is [0.0] once the absorption reaches the old profit.
    This holds of the doubles the script computes, rounding included
    (for every double [base_adr], not only non-negative ones), and in
    exact arithmetic. *)
Theorem chosen_rate_antitone_in_absorption :
  forall (base_adr : B64.float) (itc_claim_pp a1 a2 : Z),
    B64.valid base_adr = true ->
    (0 <= itc_claim_pp <= 12)%Z ->
    (-5000 <= a1)%Z -> (a1 <= a2)%Z -> (a2 <= 5000)%Z ->
    B64.leb (chosenRate base_adr (B64.of_Z itc_claim_pp) (B64.of_Z a2))
            (chosenRate base_adr (B64.of_Z itc_claim_pp) (B64.of_Z a1)) = true
    /\ B64.nonneg (chosenRate base_adr (B64.of_Z itc_claim_pp) (B64.of_Z a1))
       = true
    /\ (B64.leb (profit_old base_adr (B64.of_Z itc_claim_pp)) (B64.of_Z a1)
        = true ->
        chosenRate base_adr (B64.of_Z itc_claim_pp) (B64.of_Z a1) = B64.zero)
    /\ (forall base pts x1 x2 : Q,
           (x1 <= x2)%Q ->
           (chosenRate base pts x2 <= chosenRate base pts x1)%Q
           /\ (0 <= chosenRate base pts x1)%Q).
Proof.
  intros base pp a1 a2 Vb Hpp H1 H12 H2.
  pose proof (profit_old_valid base pp Vb Hpp) as Vp.
  destruct (absorb_exact a1 ltac:(lia)) as (V1 & F1 & S1).
  destruct (absorb_exact a2 ltac:(lia)) as (V2 & F2 & S2).
  unfold chosenRate. repeat split.
  - apply chosen_base_antitone; try assumption.
    rewrite S1, S2. apply Z.mul_le_mono_nonneg_r; [|exact H12].
    now apply Z.lt_le_incl, B64Facts.pow2_pos.
  - apply pymax_zero_nonneg.
  - intros Hle. now apply chosen_base_floor.
  - unfold chosen_base. apply pymax_Q_mono. cbn. lra.
  - apply (pymax_Q_ge (inject_Z 0)).
Qed.

Lemma chosen_rate_antitone_in_absorption_witness :
  B64.leb (chosenRate (B64.of_Z 6000) (B64.of_Z 3) (B64.of_Z 200))
          (chosenRate (B64.of_Z 6000) (B64.of_Z 3) (B64.of_Z 0)) = true.
Proof.
  apply (chosen_rate_antitone_in_absorption (B64.of_Z 6000) 3 0 200).
  - vm_compute; reflexivity.
  - lia.
  - lia.
  - lia.
  - lia.
Defined.

(** C6: whenever the absorption exceeds the old profit, the chosen rate
    is exactly [0.0] and so is the guest's new bill at that rate, on
    the doubles and in exact arithmetic; in particular for a base of
    1000, no credit offset and an absorption of 5000. *)
Theorem absorbing_more_than_profit_floors_at_zero :
  forall (base_adr : B64.float) (itc_claim_pp absorb_rupees : Z),
    B64.valid base_adr = true ->
    (0 <= itc_claim_pp <= 12)%Z ->
    (-5000 <= absorb_rupees <= 5000)%Z ->
    B64.ltb (profit_old base_adr (B64.of_Z itc_claim_pp))
            (B64.of_Z absorb_rupees) = true ->
    chosenRate base_adr (B64.of_Z itc_claim_pp) (B64.of_Z absorb_rupees)
    = B64.zero
    /\ guest_pay_new
         (chosenRate base_adr (B64.of_Z itc_claim_pp) (B64.of_Z absorb_rupees))
       = B64.zero
    /\ chosenRate (B64.of_Z 1000) (B64.of_Z 0) (B64.of_Z 5000) = B64.zero
    /\ guest_pay_new (chosenRate (B64.of_Z 1000) (B64.of_Z 0) (B64.of_Z 5000))
       = B64.zero
    /\ (forall base pts absorb : Q,
           (profit_old base pts < absorb)%Q ->
           (chosenRate base pts absorb == 0)%Q
           /\ (guest_pay_new (chosenRate base pts absorb) == 0)%Q).
Proof.
  intros base pp a Vb Hpp Ha Hlt.
  pose proof (profit_old_valid base pp Vb Hpp) as Vp.
  destruct (absorb_exact a Ha) as (Va & Fa & _).
  assert (E : chosenRate base (B64.of_Z pp) (B64.of_Z a) = B64.zero).
  { unfold chosenRate. apply chosen_base_floor; try assumption.
    now apply ltb_leb. }
  rewrite E.
  split; [reflexivity|]. split; [vm_compute; reflexivity|].
  split; [vm_compute; reflexivity|]. split; [vm_compute; reflexivity|].
  intros b p x Hx.
  assert (E0 : chosenRate b p x = inject_Z 0).
  { unfold chosenRate, chosen_base. rewrite pymax_Q.
    cbn [num_sub num_of_Z Exact.num].
    destruct (Qle_bool (profit_old b p - x) (inject_Z 0)) eqn:Eq; [reflexivity|].
    assert (L : (profit_old b p - x <= inject_Z 0)%Q)
      by (change (inject_Z 0) with 0%Q; lra).
    apply Qle_bool_iff in L. congruence. }
  rewrite E0. split; [reflexivity|].
  unfold guest_pay_new; cbn [num_mul Exact.num]. change (inject_Z 0) with 0%Q. ring.
Qed.

Lemma absorbing_more_than_profit_floors_at_zero_witness :
  chosenRate (B64.of_Z 1000) (B64.of_Z 0) (B64.of_Z 5000) = B64.zero.
Proof.
  apply (absorbing_more_than_profit_floors_at_zero (B64.of_Z 1000) 0 5000).
  - vm_compute; reflexivity.
  - lia.
  - lia.
  - vm_compute; reflexivity.
Defined.

(** C7, as the claim states it, fails on the doubles for a base rate in
    the subnormal range: at [base = 10 * 2^-1074] (about 4.9e-323, a
    double that is not negative) the new bill is [12 * 2^-1074] and the
    old one [11 * 2^-1074], a relative difference of 1/11. *)
Lemma break_even_fails_for_subnormal_base :
  B64.valid (S754_finite false 10 (-1074)) = true
  /\ (0 <= B64.B2Q (S754_finite false 10 (-1074)))%Q
  /\ guest_pay_new
       (chosenRate (S754_finite false 10 (-1074)) GUEST_BREAK_EVEN_PP
                   (B64.of_Z 0))
     = S754_finite false 12 (-1074)
  /\ guest_pay_old (S754_finite false 10 (-1074))
     = S754_finite false 11 (-1074)
  /\ ((1 # 1000000) * B64.B2Q (S754_finite false 11 (-1074))
      < Qabs (B64.B2Q (S754_finite false 12 (-1074))
              - B64.B2Q (S754_finite false 11 (-1074))))%Q.
Proof.
  repeat split; try (vm_compute; reflexivity).
  vm_compute; discriminate.
Qed.

(** C7, amended: [GUEST_BREAK_EVEN_PP] is the double 6.666666666666665,
    within 1e-3 of 6.6667 (and 20/3 in exact arithmetic); at that
    offset and no absorption, for every base rate between 1e-300 and
    1e300 the guest's new bill differs from the old one by at most 1e-6
    of it (in fact 1e-15); in exact arithmetic the two bills are equal
    for every base rate that is not negative. *)
Theorem break_even_offset_equalises_bills :
  forall base_adr : B64.float,
    B64.valid base_adr = true ->
    (B64.rate_min <= B64.B2Q base_adr)%Q ->
    (B64.B2Q base_adr <= B64.rate_max)%Q ->
    (Qabs (B64.B2Q (guest_pay_new
                      (chosenRate base_adr GUEST_BREAK_EVEN_PP (B64.of_Z 0)))
           - B64.B2Q (guest_pay_old base_adr))
     <= (1 # 1000000) * B64.B2Q (guest_pay_old base_adr))%Q
    /\ (Qabs (B64.B2Q (guest_pay_new
                         (chosenRate base_adr GUEST_BREAK_EVEN_PP (B64.of_Z 0)))
              - B64.B2Q (guest_pay_old base_adr))
        <= (1 # 1000000000000000) * B64.B2Q (guest_pay_old base_adr))%Q
    /\ GUEST_BREAK_EVEN_PP = S754_finite false 7505999378950825 (-50)
    /\ (Qabs (B64.B2Q GUEST_BREAK_EVEN_PP - (66667 # 10000)) <= 1 # 1000)%Q
    /\ (GUEST_BREAK_EVEN_PP == 20 # 3)%Q
    /\ (forall base : Q,
           (0 <= base)%Q ->
           (guest_pay_new (chosenRate base GUEST_BREAK_EVEN_PP 0)
            == guest_pay_old base)%Q).
Proof.
  intros base Vb Hlo Hhi.
  pose proof (break_even_close base Vb Hlo Hhi) as H.
  assert (Hold : (0 <= B64.B2Q (guest_pay_old base))%Q).
  { apply Qabs_Qle_condition in H. lra. }
  split; [|split; [|split; [|split; [|split]]]].
  - eapply Qle_trans; [exact H|]. lra.
  - exact H.
  - vm_compute; reflexivity.
  - vm_compute; discriminate.
  - reflexivity.
  - intros b Hb. now apply break_even_exact.
Qed.

Lemma break_even_offset_equalises_bills_witness :
  (Qabs (B64.B2Q (guest_pay_new
                    (chosenRate (B64.of_Z 6000) GUEST_BREAK_EVEN_PP (B64.of_Z 0)))
         - B64.B2Q (guest_pay_old (B64.of_Z 6000)))
   <= (1 # 1000000) * B64.B2Q (guest_pay_old (B64.of_Z 6000)))%Q.
Proof.
  apply (break_even_offset_equalises_bills (B64.of_Z 6000)).
  - vm_compute; reflexivity.
  - vm_compute; discriminate.
  - vm_compute; discriminate.
Defined.

(** C8: for a base of 6000, 3 points of credit offset and no
    absorption the six outputs are 6180, 6180, 6180, 6720, 6489 and
    -231 within the spec's floating-point tolerance of 1e-9.  The
    script computes the doubles 6180 for the old profit, the neutral
    rate and the chosen rate and 6489 for the new bill, all four exact,
    6720.000000000001 for the old bill and -231.0000000000009 for the
    difference of the bills.  In exact arithmetic the six values are
    6180, 6180, 6180, 6720, 6489 and -231. *)
Theorem example_scenario_6000_3_0 :
  calculation (B64.of_Z 6000) 3 0
  = Some {| old_profit := B64.of_Z 6180;
            neutral_base := B64.of_Z 6180;
            chosen := B64.of_Z 6180;
            new_profit_chosen := B64.of_Z 6180;
            guest_old := S754_finite false 7388718138654721 (-40);
            guest_new_chosen := B64.of_Z 6489;
            guest_delta_chosen := S754_finite true 8127589952520224 (-45);
            adr_uplift_pct_neutral := S754_finite false 6755399441055750 (-51);
            adr_uplift_pct_chosen := S754_finite false 6755399441055750 (-51) |}
  /\ (B64.B2Q (B64.of_Z 6180) == 6180)%Q
  /\ (B64.B2Q (B64.of_Z 6489) == 6489)%Q
  /\ (Qabs (B64.B2Q (S754_finite false 7388718138654721 (-40)) - 6720)
      <= 1 # 1000000000)%Q
  /\ (Qabs (B64.B2Q (S754_finite true 8127589952520224 (-45)) - (-231))
      <= 1 # 1000000000)%Q
  /\ (exists o : @outputs Q,
         calculation (6000 : Q) 3 0 = Some o
         /\ (old_profit o == 6180 /\ neutral_base o == 6180
             /\ chosen o == 6180 /\ guest_old o == 6720
             /\ guest_new_chosen o == 6489
             /\ guest_delta_chosen o == -231)%Q).
Proof.
  split; [vm_compute; reflexivity|].
  split; [vm_compute; reflexivity|].
  split; [vm_compute; reflexivity|].
  split; [vm_compute; discriminate|].
  split; [vm_compute; discriminate|].
  eexists. split; [vm_compute; reflexivity|].
  cbn [old_profit neutral_base chosen guest_old guest_new_chosen
       guest_delta_chosen].
  repeat split.
Qed.

(** C9: in exact arithmetic, for a positive base rate the script's
    [adr_uplift_pct_neutral], computed as
    [(neutral_base / base_adr - 1) * 100], is the slider's value. *)
Theorem neutral_uplift_is_offset :
  forall (base_adr : Q) (itc_claim_pp absorb_rupees : Z),
    (0 < base_adr)%Q ->
    (0 <= itc_claim_pp <= 12)%Z ->
    exists o, calculation base_adr itc_claim_pp absorb_rupees = Some o
              /\ (adr_uplift_pct_neutral o == inject_Z itc_claim_pp)%Q.
Proof.
  intros base pp a Hb _.
  assert (Z0 : Qeq_bool base 0 = false).
  { destruct (Qeq_bool base 0) eqn:E; [|reflexivity].
    apply Qeq_bool_iff in E. rewrite E in Hb. now apply Qlt_irrefl in Hb. }
  unfold calculation, uplift_pct, truediv; cbn [num_is_zero Exact.num].
  rewrite Z0. eexists; split; [reflexivity|]. cbn.
  unfold neutral_adr; cbn. field.
  intros E. rewrite E in Hb. now apply Qlt_irrefl in Hb.
Qed.

Lemma neutral_uplift_is_offset_witness :
  exists o, calculation (6000 : Q) 3 0 = Some o
            /\ (adr_uplift_pct_neutral o == inject_Z 3)%Q.
Proof.
  apply (neutral_uplift_is_offset 6000 3 0).
  - reflexivity.
  - lia.
Defined.

(** C10: for every base rate, absorption amount and slider value in
    0..12, the highlighted point [guest_new_chosen] of the tiles is the
    element of the chart's series at index [itc_claim_pp]. *)
Theorem selected_point_lies_on_curve :
  forall (base_adr : B64.float) (itc_claim_pp absorb_rupees : Z) o,
    (0 <= itc_claim_pp <= 12)%Z ->
    calculation base_adr itc_claim_pp absorb_rupees = Some o ->
    nth_error (y_vals base_adr absorb_rupees) (Z.to_nat itc_claim_pp)
    = Some (guest_new_chosen o).
Proof.
  intros base pp a o Hpp Hc.
  unfold calculation in Hc.
  destruct (uplift_pct _ base) as [u1|]; [|discriminate].
  destruct (uplift_pct _ base) as [u2|]; [|discriminate].
  injection Hc as <-. cbn [guest_new_chosen].
  assert (Hcases : (pp = 0 \/ pp = 1 \/ pp = 2 \/ pp = 3 \/ pp = 4 \/ pp = 5
                    \/ pp = 6 \/ pp = 7 \/ pp = 8 \/ pp = 9 \/ pp = 10
                    \/ pp = 11 \/ pp = 12)%Z) by lia.
  repeat (destruct Hcases as [->|Hcases]; [reflexivity|]).
  subst pp; reflexivity.
Qed.

Lemma selected_point_lies_on_curve_witness :
  nth_error (y_vals (B64.of_Z 6000) 0) (Z.to_nat 3)
  = Some (B64.of_Z 6489).
Proof.
  apply (selected_point_lies_on_curve (B64.of_Z 6000) 3 0
           ({| old_profit := B64.of_Z 6180;
                    neutral_base := B64.of_Z 6180;
                    chosen := B64.of_Z 6180;
                    new_profit_chosen := B64.of_Z 6180;
                    guest_old := S754_finite false 7388718138654721 (-40);
                    guest_new_chosen := B64.of_Z 6489;
                    guest_delta_chosen := S754_finite true 8127589952520224 (-45);
                    adr_uplift_pct_neutral := S754_finite false 6755399441055750 (-51);
                    adr_uplift_pct_chosen := S754_finite false 6755399441055750 (-51) |})).
  - lia.
  - vm_compute. reflexivity.
Defined.

(** ** Further properties of the script *)

(** The spec's second example: for a base of 6000, 3 points of offset
    and an absorption of 200 the chosen rate is the double 5980 and the
    new bill the double 6279. *)
Theorem example_scenario_6000_3_200 :
  chosenRate (B64.of_Z 6000) (B64.of_Z 3) (B64.of_Z 200) = B64.of_Z 5980
  /\ guest_pay_new (chosenRate (B64.of_Z 6000) (B64.of_Z 3) (B64.of_Z 200))
     = B64.of_Z 6279.
Proof. split; vm_compute; reflexivity. Qed.

(** Against the real numbers 1.12 * base and 1.05 * base the two bills
    are off by at most 1e-15 of their value, for every base rate
    between 1e-300 and 1e300. *)
Theorem guest_pay_accuracy :
  forall base : B64.float,
    B64.valid base = true ->
    (B64.rate_min <= B64.B2Q base)%Q ->
    (B64.B2Q base <= B64.rate_max)%Q ->
    (Qabs (B64.B2Q (guest_pay_old base) - (112 # 100) * B64.B2Q base)
     <= (1 # 1000000000000000) * ((112 # 100) * B64.B2Q base))%Q
    /\ (Qabs (B64.B2Q (guest_pay_new base) - (105 # 100) * B64.B2Q base)
        <= (1 # 1000000000000000) * ((105 # 100) * B64.B2Q base))%Q.
Proof.
  intros base Vb Hlo Hhi.
  assert (PB : (0 < B64.B2Q base)%Q) by (unfold_bounds; lra).
  unfold guest_pay_old, guest_pay_new.
  cbn [num_add num_mul num_of_Z B64.num].
  eval_double (B64.add (B64.of_Z 1) OLD_OUTPUT_GST).
  eval_double (B64.add (B64.of_Z 1) NEW_OUTPUT_GST).
  set (c112 := S754_finite false 5044031582654956 (-52)).
  set (c105 := S754_finite false 4728779608739021 (-52)).
  destruct (B64Facts.mul_pos_bounds base c112 Vb eq_refl) as (V1 & L1 & U1);
    try eval_value c112; unfold_bounds; try lra.
  destruct (B64Facts.mul_pos_bounds base c105 Vb eq_refl) as (V2 & L2 & U2);
    try eval_value c105; unfold_bounds; try lra.
  eval_value c112. eval_value c105. unfold_bounds.
  split; apply Qabs_Qle_condition; split; lra.
Qed.

Lemma guest_pay_accuracy_witness :
  (Qabs (B64.B2Q (guest_pay_old (B64.of_Z 6000))
         - (112 # 100) * B64.B2Q (B64.of_Z 6000))
   <= (1 # 1000000000000000) * ((112 # 100) * B64.B2Q (B64.of_Z 6000)))%Q.
Proof.
  apply (guest_pay_accuracy (B64.of_Z 6000)).
  - vm_compute; reflexivity.
  - vm_compute; discriminate.
  - vm_compute; discriminate.
Defined.

(** How far the neutral rate can be from the old profit: for every
    base rate between 1e-300 and 1e300 and every slider value 0..12
    the doubles [neutral_adr] and [profit_old] return differ by at most
    1e-15 of the old profit; in exact arithmetic the two are equal for
    every base and offset. *)
Theorem neutral_rate_close_to_old_profit :
  forall (base_adr : B64.float) (itc_claim_pp : Z),
    B64.valid base_adr = true ->
    (0 <= itc_claim_pp <= 12)%Z ->
    (B64.rate_min <= B64.B2Q base_adr)%Q ->
    (B64.B2Q base_adr <= B64.rate_max)%Q ->
    (Qabs (B64.B2Q (neutral_adr base_adr (B64.of_Z itc_claim_pp))
           - B64.B2Q (profit_old base_adr (B64.of_Z itc_claim_pp)))
     <= (1 # 1000000000000000)
        * B64.B2Q (profit_old base_adr (B64.of_Z itc_claim_pp)))%Q
    /\ (forall base pts : Q, neutral_adr base pts == profit_old base pts)%Q.
Proof.
  intros base pp Vb Hpp Hlo Hhi. split.
  - now apply neutral_close_to_profit.
  - intros b p. unfold neutral_adr, profit_old; cbn. ring.
Qed.

Lemma neutral_rate_close_to_old_profit_witness :
  (Qabs (B64.B2Q (neutral_adr (B64.of_Z 300) (B64.of_Z 11))
         - B64.B2Q (profit_old (B64.of_Z 300) (B64.of_Z 11)))
   <= (1 # 1000000000000000)
      * B64.B2Q (profit_old (B64.of_Z 300) (B64.of_Z 11)))%Q.
Proof.
  apply (neutral_rate_close_to_old_profit (B64.of_Z 300) 11).
  - vm_compute; reflexivity.
  - lia.
  - vm_compute; discriminate.
  - vm_compute; discriminate.
Defined.

(** The chart's curve never falls from left to right: for a base
    rate that is finite and not negative and an absorption in
    -5000..5000, an ordinate of [y_vals] is at most every later one, on
    the doubles the script computes. *)
Theorem sweep_rises_with_offset :
  forall (base_adr : B64.float) (absorb_rupees : Z) (i j : nat) (u v : B64.float),
    B64.valid base_adr = true ->
    B64.is_finite base_adr = true ->
    B64.nonneg base_adr = true ->
    (-5000 <= absorb_rupees <= 5000)%Z ->
    (i <= j)%nat ->
    nth_error (y_vals base_adr absorb_rupees) i = Some u ->
    nth_error (y_vals base_adr absorb_rupees) j = Some v ->
    B64.leb u v = true.
Proof.
  intros base a i j u v Vb Fb Nb Ha Hij Hu Hv.
  apply y_vals_nth in Hu, Hv. destruct Hu as (Li & ->), Hv as (Lj & ->).
  apply bill_mono_in_offset; try assumption; lia.
Qed.

Lemma sweep_rises_with_offset_witness :
  B64.leb (B64.of_Z 6300) (B64.of_Z 6489) = true.
Proof.
  apply (sweep_rises_with_offset (B64.of_Z 6000) 0 0 3).
  - vm_compute; reflexivity.
  - vm_compute; reflexivity.
  - vm_compute; reflexivity.
  - lia.
  - lia.
  - vm_compute; reflexivity.
  - vm_compute; reflexivity.
Defined.

(** A larger absorption never raises a point of the chart: for
    every double [base_adr] and absorptions [a1 <= a2] in -5000..5000,
    each ordinate of [y_vals] at [a2] is at most the one at [a1]. *)
Theorem absorption_lowers_the_curve :
  forall (base_adr : B64.float) (a1 a2 : Z) (i : nat) (u v : B64.float),
    B64.valid base_adr = true ->
    (-5000 <= a1)%Z -> (a1 <= a2)%Z -> (a2 <= 5000)%Z ->
    nth_error (y_vals base_adr a1) i = Some u ->
    nth_error (y_vals base_adr a2) i = Some v ->
    B64.leb v u = true.
Proof.
  intros base a1 a2 i u v Vb H0 H1 H2 Hu Hv.
  apply y_vals_nth in Hu, Hv. destruct Hu as (Li & ->), Hv as (_ & ->).
  apply bill_antitone_in_absorption; try assumption; lia.
Qed.

Lemma absorption_lowers_the_curve_witness :
  B64.leb (B64.of_Z 6279) (B64.of_Z 6489) = true.
Proof.
  apply (absorption_lowers_the_curve (B64.of_Z 6000) 0 200 3).
  - vm_compute; reflexivity.
  - lia.
  - lia.
  - lia.
  - vm_compute; reflexivity.
  - vm_compute; reflexivity.
Defined.

(** The delta of the tile "Profit (New Regime @Chosen ADR)",
    [new_profit_chosen - old_profit] (line 113): for a base rate that is
    not negative and an old profit that has not overflowed, it is
    [+0.0] with no absorption (the new profit is then the old one, bit
    for bit), never above zero for an absorption that is not negative,
    and never below zero for one that is not positive. *)
Theorem profit_change_follows_absorption :
  forall (base_adr : B64.float) (itc_claim_pp absorb_rupees : Z) (o : outputs),
    B64.valid base_adr = true ->
    B64.nonneg base_adr = true ->
    (0 <= itc_claim_pp <= 12)%Z ->
    (-5000 <= absorb_rupees <= 5000)%Z ->
    calculation base_adr itc_claim_pp absorb_rupees = Some o ->
    B64.is_finite (old_profit o) = true ->
    ((absorb_rupees = 0)%Z ->
     new_profit_chosen o = old_profit o
     /\ B64.sub (new_profit_chosen o) (old_profit o) = B64.zero)
    /\ ((0 <= absorb_rupees)%Z ->
        B64.leb (new_profit_chosen o) (old_profit o) = true
        /\ B64.leb (B64.sub (new_profit_chosen o) (old_profit o)) B64.zero = true)
    /\ ((absorb_rupees <= 0)%Z ->
        B64.leb (old_profit o) (new_profit_chosen o) = true
        /\ B64.leb B64.zero (B64.sub (new_profit_chosen o) (old_profit o)) = true).
Proof.
  intros base pp a o Vb Nb Hpp Ha Hc Fp.
  destruct (calculation_inv base pp a o Hc) as (Ep & _ & _ & En & _).
  rewrite En. rewrite Ep in *. clear Ep En Hc o.
  pose proof (profit_old_finite_base base pp Hpp Nb Fp) as Fb.
  pose proof (profit_old_valid base pp Vb Hpp) as Vp.
  pose proof (profit_old_nonneg base Vb Fb Nb pp Hpp) as Np.
  destruct (absorb_exact a Ha) as (Va & Fa & Sa).
  set (p := profit_old base (B64.of_Z pp)) in *.
  pose proof (chosen_base_valid p (B64.of_Z a) Vp Va) as Vch.
  pose proof (pymax_zero_nonneg (B64.sub p (B64.of_Z a))) as Nch.
  unfold chosenRate. fold p.
  assert (P2 : (0 < 2 ^ 1074)%Z) by now apply B64Facts.pow2_pos.
  split; [|split].
  - intros ->. rewrite (chosen_base_no_absorption p Np Fp).
    split; [reflexivity|]. now apply B64Order.sub_diag.
  - intros H.
    assert (L : B64.leb (chosen_base p (B64.of_Z a)) p = true).
    { apply pymax_zero_le; [exact Np|].
      apply B64Order.sub_le_minuend; try assumption. rewrite Sa. nia. }
    split; [exact L|].
    apply B64Order.sub_le_zero; try assumption.
    exact (B64Order.leb_finite_inv _ _ Nch L Fp).
  - intros H.
    assert (L : B64.leb p (chosen_base p (B64.of_Z a)) = true).
    { apply pymax_zero_ge; [exact Np|].
      apply B64Order.sub_ge_minuend; try assumption. rewrite Sa. nia. }
    split; [exact L|].
    now apply B64Order.sub_ge_zero.
Qed.

Lemma profit_change_follows_absorption_witness :
  ((200 = 0)%Z ->
   B64.of_Z 5980 = B64.of_Z 6180
   /\ B64.sub (B64.of_Z 5980) (B64.of_Z 6180) = B64.zero)
  /\ ((0 <= 200)%Z ->
      B64.leb (B64.of_Z 5980) (B64.of_Z 6180) = true
      /\ B64.leb (B64.sub (B64.of_Z 5980) (B64.of_Z 6180)) B64.zero = true)
  /\ ((200 <= 0)%Z ->
      B64.leb (B64.of_Z 6180) (B64.of_Z 5980) = true
      /\ B64.leb B64.zero (B64.sub (B64.of_Z 5980) (B64.of_Z 6180)) = true).
Proof.
  apply (profit_change_follows_absorption (B64.of_Z 6000) 3 200
           {| old_profit := B64.of_Z 6180;
              neutral_base := B64.of_Z 6180;
              chosen := B64.of_Z 5980;
              new_profit_chosen := B64.of_Z 5980;
              guest_old := guest_pay_old (B64.of_Z 6000);
              guest_new_chosen := B64.of_Z 6279;
              guest_delta_chosen :=
                B64.sub (B64.of_Z 6279) (guest_pay_old (B64.of_Z 6000));
              adr_uplift_pct_neutral := S754_finite false 6755399441055750 (-51);
              adr_uplift_pct_chosen :=
                B64.mul (B64.sub (B64.div (B64.of_Z 5980) (B64.of_Z 6000))
                                 (B64.of_Z 1))
                        (B64.of_Z 100) |}).
  - vm_compute; reflexivity.
  - vm_compute; reflexivity.
  - lia.
  - lia.
  - vm_compute; reflexivity.
  - vm_compute; reflexivity.
Defined.

(** Lines 86 and 97 on the doubles: for a base rate between 1e-300
    and 1e300 the calculation block succeeds and
    [adr_uplift_pct_neutral] is within 1e-13 of the slider value; with
    the slider at 0 it is [0.0] exactly. *)
Theorem neutral_uplift_shown_is_offset :
  forall (base_adr : B64.float) (itc_claim_pp absorb_rupees : Z),
    B64.valid base_adr = true ->
    (B64.rate_min <= B64.B2Q base_adr)%Q ->
    (B64.B2Q base_adr <= B64.rate_max)%Q ->
    (0 <= itc_claim_pp <= 12)%Z ->
    (-5000 <= absorb_rupees <= 5000)%Z ->
    exists o,
      calculation base_adr itc_claim_pp absorb_rupees = Some o
      /\ (Qabs (B64.B2Q (adr_uplift_pct_neutral o) - inject_Z itc_claim_pp)
          <= 1 # 10000000000000)%Q
      /\ ((itc_claim_pp = 0)%Z -> adr_uplift_pct_neutral o = B64.zero).
Proof.
  intros base pp a Vb Hlo Hhi Hpp _.
  assert (PB : (0 < B64.B2Q base)%Q) by (unfold B64.rate_min in Hlo; lra).
  eexists. split; [apply calculation_explicit; now apply positive_not_zero|].
  cbn [adr_uplift_pct_neutral].
  destruct (Z.eq_dec pp 0) as [->|Hne].
  - rewrite (neutral_uplift_zero base Vb PB). split; [|reflexivity].
    vm_compute. discriminate.
  - split; [|intros E; contradiction].
    apply neutral_uplift_bound; try assumption. lia.
Qed.

Lemma neutral_uplift_shown_is_offset_witness :
  exists o,
    calculation (B64.of_Z 6000) 3 0 = Some o
    /\ (Qabs (B64.B2Q (adr_uplift_pct_neutral o) - inject_Z 3)
        <= 1 # 10000000000000)%Q
    /\ ((3 = 0)%Z -> adr_uplift_pct_neutral o = B64.zero).
Proof.
  apply (neutral_uplift_shown_is_offset (B64.of_Z 6000) 3 0).
  - vm_compute; reflexivity.
  - vm_compute; discriminate.
  - vm_compute; discriminate.
  - lia.
  - lia.
Defined.

(** In exact arithmetic, for a positive base rate and an absorption
    that does not exceed the old profit, the outputs are the closed
    forms the formulas compose to: the chosen rate is the old profit
    less the absorption, the profit changes by minus the absorption,
    and the uplift of the chosen rate is the slider value less
    [100 * absorption / base]. *)
Theorem outputs_in_closed_form :
  forall (base_adr : Q) (itc_claim_pp absorb_rupees : Z),
    (0 < base_adr)%Q ->
    (inject_Z absorb_rupees
     <= base_adr * (1 + inject_Z itc_claim_pp / 100))%Q ->
    exists o,
      calculation base_adr itc_claim_pp absorb_rupees = Some o
      /\ (old_profit o == base_adr * (1 + inject_Z itc_claim_pp / 100))%Q
      /\ (neutral_base o == old_profit o)%Q
      /\ (chosen o == old_profit o - inject_Z absorb_rupees)%Q
      /\ (new_profit_chosen o - old_profit o == - inject_Z absorb_rupees)%Q
      /\ (guest_delta_chosen o
          == base_adr * ((105 # 100) * (1 + inject_Z itc_claim_pp / 100)
                         - (112 # 100))
             - (105 # 100) * inject_Z absorb_rupees)%Q
      /\ (adr_uplift_pct_chosen o
          == inject_Z itc_claim_pp - 100 * inject_Z absorb_rupees / base_adr)%Q.
Proof.
  intros base pp a Hb Ha.
  assert (Nz : ~ (base == 0)%Q)
    by (intros E; rewrite E in Hb; now apply Qlt_irrefl in Hb).
  assert (Z0 : Qeq_bool base 0 = false).
  { destruct (Qeq_bool base 0) eqn:E; [|reflexivity].
    apply Qeq_bool_iff in E. contradiction. }
  assert (Ep : (profit_old base (inject_Z pp)
                == base * (1 + inject_Z pp / 100))%Q).
  { unfold profit_old; cbn [num_add num_mul num_div num_of_Z Exact.num].
    change (inject_Z 100) with 100%Q. field. }
  assert (Ec : (chosen_base (profit_old base (inject_Z pp)) (inject_Z a)
                == profit_old base (inject_Z pp) - inject_Z a)%Q).
  { unfold chosen_base. cbn [num_sub num_of_Z Exact.num].
    apply pymax_Q_above. change (inject_Z 0) with 0%Q. rewrite Ep. lra. }
  assert (En : (neutral_adr base (inject_Z pp) == profit_old base (inject_Z pp))%Q)
    by (unfold neutral_adr, profit_old; cbn; ring).
  unfold calculation, uplift_pct, truediv; cbn [num_is_zero Exact.num].
  rewrite Z0. eexists; split; [reflexivity|].
  cbn [old_profit neutral_base chosen new_profit_chosen guest_delta_chosen
       adr_uplift_pct_chosen].
  unfold profit_new, guest_pay_new, guest_pay_old, OLD_OUTPUT_GST, NEW_OUTPUT_GST.
  cbn [num_of_Z Exact.num].
  set (p := profit_old base (inject_Z pp)) in *.
  set (c := chosen_base p (inject_Z a)) in *.
  clearbody c. clearbody p.
  cbn [num_add num_sub num_mul num_div num_of_Z num_lit Exact.num].
  change (inject_Z 1) with 1%Q. change (inject_Z 100) with 100%Q.
  split; [exact Ep|]. split; [exact En|]. split; [exact Ec|].
  split; [rewrite Ec; ring|].
  split; rewrite Ec, Ep; field. exact Nz.
Qed.

Lemma outputs_in_closed_form_witness :
  exists o,
    calculation (6000 : Q) 3 200 = Some o
    /\ (old_profit o == 6000 * (1 + inject_Z 3 / 100))%Q
    /\ (neutral_base o == old_profit o)%Q
    /\ (chosen o == old_profit o - inject_Z 200)%Q
    /\ (new_profit_chosen o - old_profit o == - inject_Z 200)%Q
    /\ (guest_delta_chosen o
        == 6000 * ((105 # 100) * (1 + inject_Z 3 / 100) - (112 # 100))
           - (105 # 100) * inject_Z 200)%Q
    /\ (adr_uplift_pct_chosen o
        == inject_Z 3 - 100 * inject_Z 200 / 6000)%Q.
Proof.
  apply (outputs_in_closed_form 6000 3 200).
  - reflexivity.
  - vm_compute; discriminate.
Defined.

(** For every input the widgets admit and a base rate up to 1e300 (the
    base rate's widget has the minimum 300 and no maximum), the
    calculation block returns, and each of its nine outputs is a finite
    double: no tile shows [inf] or [nan]. *)
Theorem outputs_are_finite :
  forall (base_adr : B64.float) (itc_claim_pp absorb_rupees : Z),
    B64.valid base_adr = true ->
    (300 <= B64.B2Q base_adr)%Q -> (B64.B2Q base_adr <= B64.rate_max)%Q ->
    (0 <= itc_claim_pp <= 12)%Z -> (-5000 <= absorb_rupees <= 5000)%Z ->
    exists o,
      calculation base_adr itc_claim_pp absorb_rupees = Some o
      /\ Forall (fun x => B64.is_finite x = true)
           [old_profit o; neutral_base o; chosen o; new_profit_chosen o;
            guest_old o; guest_new_chosen o; guest_delta_chosen o;
            adr_uplift_pct_neutral o; adr_uplift_pct_chosen o].
Proof.
  intros base pp a Vb H300 Hhi Hpp Ha.
  set (two_1000 := S754_finite false 4503599627370496 948).
  set (two_1010 := S754_finite false 4503599627370496 958).
  assert (Hlo : (B64.rate_min <= B64.B2Q base)%Q) by (unfold B64.rate_min; lra).
  assert (PB : (0 < B64.B2Q base)%Q) by lra.
  assert (Q0 : (0 <= inject_Z pp)%Q)
    by (destruct Hpp as (L & _); rewrite Zle_Qle in L; exact L).
  assert (Q12 : (inject_Z pp <= 12)%Q)
    by (destruct Hpp as (_ & U); rewrite Zle_Qle in U; exact U).
  assert (A0 : (-5000 <= inject_Z a)%Q)
    by (destruct Ha as (L & _); rewrite Zle_Qle in L; exact L).
  assert (A1 : (inject_Z a <= 5000)%Q)
    by (destruct Ha as (_ & U); rewrite Zle_Qle in U; exact U).
  (* line 85: the old profit *)
  destruct (profit_old_enclosure base pp Vb Hpp Hlo Hhi) as (PL & PU).
  destruct (itc_fraction_value pp Hpp) as (CL & CU & _).
  pose proof (profit_old_valid base pp Vb Hpp) as Vp.
  set (p := profit_old base (B64.of_Z pp)) in *.
  set (C := B64.B2Q (B64.div (B64.of_Z pp) (B64.of_Z 100))) in *.
  set (B := B64.B2Q base) in *. set (P := B64.B2Q p) in *.
  assert (X1 : (- (1 # 100000000000000000) * B <= C * B)%Q)
    by (apply Qmult_le_compat_r; lra).
  assert (X2 : (C * B <= (13 # 100) * B)%Q)
    by (apply Qmult_le_compat_r; lra).
  unfold_bounds.
  assert (P1 : ((99 # 100) * B <= P)%Q) by lra.
  assert (P2 : (P <= (114 # 100) * B)%Q) by lra.
  assert (Fp : B64.is_finite p = true)
    by (apply B64Order.B2Q_pos_finite; fold P; lra).
  (* line 86: the neutral rate *)
  destruct (one_plus_fraction_value pp Hpp) as (Vf & FL & FU).
  set (f := B64.add (B64.of_Z 1) (B64.div (B64.of_Z pp) (B64.of_Z 100))) in *.
  set (F := B64.B2Q f) in *.
  assert (Y1 : ((99 # 100) * B <= B * F)%Q).
  { rewrite (Qmult_comm B F). apply Qmult_le_compat_r; lra. }
  assert (Y2 : (B * F <= (113 # 100) * B)%Q).
  { rewrite (Qmult_comm B F). apply Qmult_le_compat_r; lra. }
  destruct (B64Facts.mul_pos_bounds base f Vb Vf) as (Vn & NL & NU);
    fold B F; unfold_bounds; try lra.
  fold B F in NL, NU.
  assert (En : neutral_adr base (B64.of_Z pp) = B64.mul base f) by reflexivity.
  set (nb := B64.mul base f) in *. set (N := B64.B2Q nb) in *.
  assert (Fn : B64.is_finite nb = true)
    by (apply B64Order.B2Q_pos_finite; fold N; lra).
  (* line 93: the old bill *)
  assert (Eg : guest_pay_old base
               = B64.mul base (S754_finite false 5044031582654956 (-52)))
    by reflexivity.
  set (c112 := S754_finite false 5044031582654956 (-52)) in *.
  destruct (B64Facts.mul_pos_bounds base c112 Vb eq_refl) as (Vg & GL & GU);
    fold B; try eval_value c112; unfold_bounds; try lra.
  fold B in GL, GU. eval_value c112.
  set (gold := B64.mul base c112) in *. set (G := B64.B2Q gold) in *.
  assert (Fg : B64.is_finite gold = true)
    by (apply B64Order.B2Q_pos_finite; fold G; lra).
  (* line 90: the chosen rate *)
  destruct (of_Z_value a) as (Va & Ea).
  { change (2 ^ 53)%Z with 9007199254740992%Z. lia. }
  destruct (absorb_exact a Ha) as (_ & Fa & _).
  destruct (B64Range.sub_between p (B64.of_Z a) (B64.of_Z (-5000)) two_1000)
    as (Vd & Fd & DL & DU); try reflexivity; try assumption; fold P.
  { rewrite Ea. eval_value (B64.of_Z (-5000)). lra. }
  { rewrite Ea. eval_value two_1000. lra. }
  set (d := B64.sub p (B64.of_Z a)) in *. set (D := B64.B2Q d) in *.
  assert (Ec : chosenRate base (B64.of_Z pp) (B64.of_Z a)
               = if B64.ltb B64.zero d then d else B64.zero) by reflexivity.
  set (c := chosenRate base (B64.of_Z pp) (B64.of_Z a)) in *.
  assert (HC : B64.valid c = true /\ B64.is_finite c = true
               /\ (0 <= B64.B2Q c)%Q /\ (B64.B2Q c <= B64.B2Q two_1000)%Q
               /\ B64.is_finite (B64.mul (B64.sub (B64.div c base) (B64.of_Z 1))
                                         (B64.of_Z 100)) = true).
  { rewrite Ec. destruct (B64.ltb B64.zero d) eqn:Epos.
    - pose proof (lt_zero_value d Fd Epos) as PD. fold D in PD.
      repeat split; try assumption; try (fold D; lra).
      apply uplift_finite; try assumption; fold B D; unfold_bounds.
      + destruct (Qlt_le_dec 10000 B) as [Big|Small].
        * destruct (B64Range.sub_between p (B64.of_Z a) (B64.of_Z 1) two_1000)
            as (_ & _ & DL1 & _); try reflexivity; try assumption; fold P.
          { rewrite Ea. eval_value (B64.of_Z 1). lra. }
          { rewrite Ea. eval_value two_1000. lra. }
          fold d D in DL1. eval_value (B64.of_Z 1). lra.
        * pose proof (B64Range.sub_positive_gap p a Vp) as Gap. fold P in Gap.
          specialize (Gap ltac:(lra) Ha Epos).
          destruct (B64Range.sub_between p (B64.of_Z a)
                      (S754_finite false 4503599627370496 (-96)) two_1000)
            as (_ & _ & DL1 & _); try reflexivity; try assumption; fold P.
          { rewrite Ea. eval_value (S754_finite false 4503599627370496 (-96)). lra. }
          { rewrite Ea. eval_value two_1000. lra. }
          fold d D in DL1.
          eval_value (S754_finite false 4503599627370496 (-96)). lra.
      + eval_value two_1000. lra.
    - repeat split; try reflexivity; try (cbn; lra).
      + eval_value two_1000. cbn. lra.
      + destruct (B64Facts.B2Q_pos_inv base PB) as (mb & eb & ->). reflexivity. }
  destruct HC as (Vc & Fc & CL0 & CU0 & FU2).
  set (Cq := B64.B2Q c) in *.
  (* line 94: the new bill *)
  assert (Ew : guest_pay_new c
               = B64.mul c (S754_finite false 4728779608739021 (-52)))
    by reflexivity.
  set (c105 := S754_finite false 4728779608739021 (-52)) in *.
  assert (Z1 : (0 <= Cq * B64.B2Q c105)%Q).
  { eval_value c105. lra. }
  destruct (B64Range.mul_between c c105 B64.zero two_1010)
    as (Vw & Fw & WL & WU); try reflexivity; try assumption; fold Cq.
  { eval_value c105. eval_value two_1010. eval_value two_1000. lra. }
  set (gnew := B64.mul c c105) in *. set (W := B64.B2Q gnew) in *.
  (* line 95: the change in the bill *)
  destruct (B64Range.sub_between gnew gold
              (S754_finite true 4503599627370496 958) two_1010)
    as (Vx & Fx & _); try reflexivity; try assumption; fold W G.
  { eval_value (S754_finite true 4503599627370496 958). 
    change (B64.B2Q B64.zero) with 0%Q in WL. lra. }
  { eval_value two_1010. lra. }
  (* line 97: the neutral uplift *)
  assert (FU1 : B64.is_finite (B64.mul (B64.sub (B64.div nb base) (B64.of_Z 1))
                                       (B64.of_Z 100)) = true).
  { apply uplift_finite; try assumption; fold B N; unfold_bounds; lra. }
  eexists. split; [apply calculation_explicit; now apply positive_not_zero|].
  cbn [old_profit neutral_base chosen new_profit_chosen guest_old
       guest_new_chosen guest_delta_chosen adr_uplift_pct_neutral
       adr_uplift_pct_chosen].
  fold p c. rewrite En, Eg, Ew. fold nb gold gnew.
  repeat constructor; assumption.
Qed.

Lemma outputs_are_finite_witness :
  exists o,
    calculation (B64.of_Z 6000) 3 200 = Some o
    /\ Forall (fun x => B64.is_finite x = true)
         [old_profit o; neutral_base o; chosen o; new_profit_chosen o;
          guest_old o; guest_new_chosen o; guest_delta_chosen o;
          adr_uplift_pct_neutral o; adr_uplift_pct_chosen o].
Proof.
  apply (outputs_are_finite (B64.of_Z 6000) 3 200).
  - vm_compute; reflexivity.
  - vm_compute; discriminate.
  - vm_compute; discriminate.
  - lia.
  - lia.
Defined.

(** *** The tiles and the recommendation *)

Section Shown.

Import String Display DisplayFacts.

Local Open Scope string_scope.

(** The break-even callout of lines 27-29, at margin-neutral ADR (no
    absorption): for a base rate between 1e-300 and 1e300, a slider
    value below [GUEST_BREAK_EVEN_PP] (0..6) gives a new bill strictly
    below the old one and a negative [guest_delta_chosen], a slider
    value above it (7..12) a new bill strictly above and a positive
    delta; the callout prints the constant as 6.7. *)
Theorem guest_bill_turns_at_break_even :
  forall (base_adr : B64.float) (itc_claim_pp : Z),
    B64.valid base_adr = true ->
    (B64.rate_min <= B64.B2Q base_adr)%Q ->
    (B64.B2Q base_adr <= B64.rate_max)%Q ->
    (0 <= itc_claim_pp <= 12)%Z ->
    exists o,
      calculation base_adr itc_claim_pp 0 = Some o
      /\ B64.ltb (B64.of_Z itc_claim_pp) GUEST_BREAK_EVEN_PP
         = (itc_claim_pp <=? 6)%Z
      /\ B64.ltb GUEST_BREAK_EVEN_PP (B64.of_Z itc_claim_pp)
         = (7 <=? itc_claim_pp)%Z
      /\ ((itc_claim_pp <= 6)%Z ->
          B64.ltb (guest_new_chosen o) (guest_old o) = true
          /\ B64.ltb (guest_delta_chosen o) B64.zero = true)
      /\ ((7 <= itc_claim_pp)%Z ->
          B64.ltb (guest_old o) (guest_new_chosen o) = true
          /\ B64.ltb B64.zero (guest_delta_chosen o) = true)
      /\ format_f false false 1 GUEST_BREAK_EVEN_PP = "6.7".
Proof.
  intros base pp Vb Hlo Hhi Hpp.
  assert (PB : (0 < B64.B2Q base)%Q) by (unfold B64.rate_min in Hlo; lra).
  eexists. split; [apply calculation_explicit; now apply positive_not_zero|].
  cbn [guest_new_chosen guest_old guest_delta_chosen].
  destruct (break_even_between_6_and_7 pp Hpp) as (E6 & E7).
  split; [exact E6|]. split; [exact E7|].
  destruct (bills_without_absorption base pp Vb Hpp Hlo Hhi)
    as (Vn & Vo & Pn & Po & Lt6 & Gt7).
  pose proof (B64Order.B2Q_pos_finite _ Pn) as Fn.
  pose proof (B64Order.B2Q_pos_finite _ Po) as Fo.
  split; [|split; [|vm_compute; reflexivity]];
    intros H; [specialize (Lt6 H)|specialize (Gt7 H)].
  - assert (L : B64.ltb (guest_pay_new (chosenRate base (B64.of_Z pp) (B64.of_Z 0)))
                        (guest_pay_old base) = true)
      by now apply B64Order.ltb_of_B2Q.
    split; [exact L|]. now apply B64Order.sub_lt_zero.
  - assert (L : B64.ltb (guest_pay_old base)
                        (guest_pay_new (chosenRate base (B64.of_Z pp) (B64.of_Z 0)))
                = true)
      by now apply B64Order.ltb_of_B2Q.
    split; [exact L|]. now apply B64Order.sub_gt_zero.
Qed.

Lemma guest_bill_turns_at_break_even_witness :
  exists o,
    calculation (B64.of_Z 6000) 3 0 = Some o
    /\ B64.ltb (B64.of_Z 3) GUEST_BREAK_EVEN_PP = (3 <=? 6)%Z
    /\ B64.ltb GUEST_BREAK_EVEN_PP (B64.of_Z 3) = (7 <=? 3)%Z
    /\ ((3 <= 6)%Z ->
        B64.ltb (guest_new_chosen o) (guest_old o) = true
        /\ B64.ltb (guest_delta_chosen o) B64.zero = true)
    /\ ((7 <= 3)%Z ->
        B64.ltb (guest_old o) (guest_new_chosen o) = true
        /\ B64.ltb B64.zero (guest_delta_chosen o) = true)
    /\ format_f false false 1 GUEST_BREAK_EVEN_PP = "6.7".
Proof.
  apply (guest_bill_turns_at_break_even (B64.of_Z 6000) 3).
  - vm_compute; reflexivity.
  - vm_compute; discriminate.
  - vm_compute; discriminate.
  - lia.
Defined.

(** The tile "Neutral ADR (keeps profit same)" shows the slider
    value with one decimal as its uplift, for every base rate between
    1e-300 and 1e300 and every absorption in -5000..5000: the rounding
    errors of lines 86 and 97 never reach the digit shown. *)
Theorem neutral_tile_shows_offset :
  forall (base_adr : B64.float) (itc_claim_pp absorb_rupees : Z),
    B64.valid base_adr = true ->
    (B64.rate_min <= B64.B2Q base_adr)%Q ->
    (B64.B2Q base_adr <= B64.rate_max)%Q ->
    (0 <= itc_claim_pp <= 12)%Z ->
    (-5000 <= absorb_rupees <= 5000)%Z ->
    exists o,
      calculation base_adr itc_claim_pp absorb_rupees = Some o
      /\ nth_error (kpi_tiles o) 4
         = Some {| label := "Neutral ADR (keeps profit same)";
                   value := rupee ++ format_f false true 0 (neutral_base o);
                   delta := Some (decimal itc_claim_pp ++ ".0%") |}.
Proof.
  intros base pp a Vb Hlo Hhi Hpp _.
  assert (PB : (0 < B64.B2Q base)%Q) by (unfold B64.rate_min in Hlo; lra).
  eexists. split; [apply calculation_explicit; now apply positive_not_zero|].
  cbn [kpi_tiles nth_error neutral_base adr_uplift_pct_neutral]. do 3 f_equal.
  destruct (Z.eq_dec pp 0) as [->|Hne].
  - rewrite (neutral_uplift_zero base Vb PB). reflexivity.
  - rewrite (uplift_text _ pp ltac:(lia)
               (neutral_uplift_bound base pp Vb ltac:(lia) Hlo Hhi)).
    now rewrite append_assoc.
Qed.

Lemma neutral_tile_shows_offset_witness :
  exists o,
    calculation (B64.of_Z 6000) 3 0 = Some o
    /\ nth_error (kpi_tiles o) 4
       = Some {| label := "Neutral ADR (keeps profit same)";
                 value := rupee ++ format_f false true 0 (neutral_base o);
                 delta := Some (decimal 3 ++ ".0%") |}.
Proof.
  apply (neutral_tile_shows_offset (B64.of_Z 6000) 3 0).
  - vm_compute; reflexivity.
  - vm_compute; discriminate.
  - vm_compute; discriminate.
  - lia.
  - lia.
Defined.

(** With no absorption and a base rate between 1e-300 and 1e300:
    the tiles of the new profit and of the chosen rate show the old
    profit, the profit's delta reads [+0], the chosen rate's uplift is
    the slider value, and the recommendation is the call to
    [st.success]. *)
Theorem neutral_posture_tiles :
  forall (base_adr : B64.float) (itc_claim_pp : Z),
    B64.valid base_adr = true ->
    (B64.rate_min <= B64.B2Q base_adr)%Q ->
    (B64.B2Q base_adr <= B64.rate_max)%Q ->
    (0 <= itc_claim_pp <= 12)%Z ->
    exists o,
      calculation base_adr itc_claim_pp 0 = Some o
      /\ nth_error (kpi_tiles o) 3
         = Some {| label := "Profit (New Regime @Chosen ADR)";
                   value := rupee ++ format_f false true 0 (old_profit o);
                   delta := Some "+0" |}
      /\ nth_error (kpi_tiles o) 5
         = Some {| label := "Chosen ADR (after absorption/capture)";
                   value := rupee ++ format_f false true 0 (old_profit o);
                   delta := Some (decimal itc_claim_pp ++ ".0%") |}
      /\ recommendation 0 o
         = st_success
             "Neutral posture: profit held constant. If competitors drop guest price, consider small positive absorption to defend share.".
Proof.
  intros base pp Vb Hlo Hhi Hpp.
  assert (PB : (0 < B64.B2Q base)%Q) by (unfold B64.rate_min in Hlo; lra).
  eexists. split; [apply calculation_explicit; now apply positive_not_zero|].
  cbn [kpi_tiles nth_error old_profit new_profit_chosen chosen
       adr_uplift_pct_chosen].
  destruct (profit_old_enclosure base pp Vb Hpp Hlo Hhi) as (PL & PU).
  destruct (itc_fraction_value pp Hpp) as (CL & CU & _).
  pose proof (profit_old_valid base pp Vb Hpp) as Vp.
  assert (PP : (0 < B64.B2Q (profit_old base (B64.of_Z pp)))%Q).
  { set (C := B64.B2Q (B64.div (B64.of_Z pp) (B64.of_Z 100))) in *.
    set (B := B64.B2Q base) in *.
    assert (Q0 : (0 <= inject_Z pp)%Q)
      by (destruct Hpp as (L & _); rewrite Zle_Qle in L; exact L).
    assert (X1 : (- (1 # 1000) * B <= C * B)%Q)
      by (apply Qmult_le_compat_r; lra).
    unfold_bounds. lra. }
  assert (Ech : chosenRate base (B64.of_Z pp) (B64.of_Z 0)
                = profit_old base (B64.of_Z pp)).
  { unfold chosenRate.
    destruct (B64Facts.B2Q_pos_inv _ PP) as (m & e & ->). reflexivity. }
  rewrite Ech.
  assert (Ed : B64.sub (profit_old base (B64.of_Z pp)) (profit_old base (B64.of_Z pp))
               = B64.zero).
  { destruct (B64Facts.B2Q_pos_inv _ PP) as (m & e & E). rewrite E in *.
    now apply B64Order.sub_diag. }
  rewrite Ed.
  split; [reflexivity|]. split; [|reflexivity].
  do 3 f_equal.
  destruct (Z.eq_dec pp 0) as [->|Hne].
  - rewrite (profit_old_no_offset base PB), (self_uplift_zero base Vb PB).
    reflexivity.
  - rewrite (uplift_text _ pp ltac:(lia)
               (chosen_uplift_bound base pp Vb ltac:(lia) Hlo Hhi)).
    now rewrite append_assoc.
Qed.

Lemma neutral_posture_tiles_witness :
  exists o,
    calculation (B64.of_Z 6000) 3 0 = Some o
    /\ nth_error (kpi_tiles o) 3
       = Some {| label := "Profit (New Regime @Chosen ADR)";
                 value := rupee ++ format_f false true 0 (old_profit o);
                 delta := Some "+0" |}
    /\ nth_error (kpi_tiles o) 5
       = Some {| label := "Chosen ADR (after absorption/capture)";
                 value := rupee ++ format_f false true 0 (old_profit o);
                 delta := Some (decimal 3 ++ ".0%") |}
    /\ recommendation 0 o
       = st_success
           "Neutral posture: profit held constant. If competitors drop guest price, consider small positive absorption to defend share.".
Proof.
  apply (neutral_posture_tiles (B64.of_Z 6000) 3).
  - vm_compute; reflexivity.
  - vm_compute; discriminate.
  - vm_compute; discriminate.
  - lia.
Defined.

(** The tiles of the neutral and of the chosen rate need not
    agree with no absorption: at a base of 350 and 11 points the
    neutral rate 388.50000000000006 is shown as 389 rupees and the
    chosen rate 388.5 as 388, both with an uplift of 11.0%. *)
Theorem rate_tiles_can_differ_without_absorption :
  exists o,
    calculation (B64.of_Z 350) 11 0 = Some o
    /\ option_map value (nth_error (kpi_tiles o) 4) = Some "₹389"
    /\ option_map value (nth_error (kpi_tiles o) 5) = Some "₹388"
    /\ option_map delta (nth_error (kpi_tiles o) 4) = Some (Some "11.0%")
    /\ option_map delta (nth_error (kpi_tiles o) 5) = Some (Some "11.0%").
Proof. eexists. split; [vm_compute; reflexivity|]. repeat split. Qed.

(** For a base rate of whole rupees, from 300 to 10^12, and a slider
    value and an absorption in the widgets' ranges, the tile
    "Guest Payable (Old)" shows [1.12 * base] rounded to the nearest
    rupee: the rounding of the product does not reach the digits
    shown, and no whole base puts the bill half-way between two
    rupees. *)
Theorem old_bill_tile_for_whole_rupees :
  forall (b itc_claim_pp absorb_rupees : Z),
    (300 <= b <= 1000000000000)%Z ->
    (0 <= itc_claim_pp <= 12)%Z ->
    (-5000 <= absorb_rupees <= 5000)%Z ->
    exists o,
      calculation (B64.of_Z b) itc_claim_pp absorb_rupees = Some o
      /\ nth_error (kpi_tiles o) 0
         = Some {| label := "Guest Payable (Old)";
                   value := rupee ++ group (decimal ((112 * b + 50) / 100));
                   delta := None |}.
Proof.
  intros b pp a Hb _ _.
  destruct (of_Z_value b) as (Vb & Eb).
  { change (2 ^ 53)%Z with 9007199254740992%Z. lia. }
  assert (QL : (300 <= inject_Z b)%Q)
    by (destruct Hb as (L & _); rewrite Zle_Qle in L; exact L).
  assert (QU : (inject_Z b <= 1000000000000)%Q)
    by (destruct Hb as (_ & U); rewrite Zle_Qle in U; exact U).
  set (base := B64.of_Z b) in *. set (B := B64.B2Q base) in *.
  assert (PB : (0 < B)%Q) by (rewrite Eb; lra).
  eexists. split; [apply calculation_explicit; now apply positive_not_zero|].
  cbn [kpi_tiles nth_error guest_old]. do 3 f_equal.
  unfold guest_pay_old. cbn [num_add num_mul num_of_Z B64.num].
  eval_double (B64.add (B64.of_Z 1) OLD_OUTPUT_GST).
  set (c112 := S754_finite false 5044031582654956 (-52)).
  destruct (B64Facts.mul_pos_bounds base c112 Vb eq_refl) as (V1 & L1 & U1);
    fold B; try eval_value c112; unfold_bounds; try lra.
  fold B in L1, U1. eval_value c112. unfold_bounds.
  set (n := ((112 * b + 50) / 100)%Z).
  assert (Hn : (100 * n + 2 <= 112 * b + 50 <= 100 * n + 98)%Z).
  { (* 112 b + 50 is 2 modulo 4, and so is its remainder modulo 100 *)
    pose proof (Z.div_mod (112 * b + 50) 100 ltac:(lia)) as E.
    pose proof (Z.mod_pos_bound (112 * b + 50) 100 ltac:(lia)) as R.
    fold n in E. set (r := ((112 * b + 50) mod 100)%Z) in *. clearbody r n.
    assert (r = 0 \/ r = 1 \/ r = 99 \/ 2 <= r <= 98)%Z
      as [->|[->|[->|H]]] by lia; lia. }
  destruct Hn as (NL & NU).
  rewrite Zle_Qle in NL, NU.
  rewrite !inject_Z_plus, !inject_Z_mult in NL, NU.
  change (inject_Z 100) with 100%Q in NL, NU.
  change (inject_Z 112) with 112%Q in NL, NU.
  change (inject_Z 50) with 50%Q in NL, NU.
  change (inject_Z 2) with 2%Q in NL. change (inject_Z 98) with 98%Q in NU.
  rewrite (format_f_near false true 0 (B64.mul base c112) n).
  - unfold fixed. change (10 ^ Z.of_nat 0)%Z with 1%Z. now rewrite Z.div_1_r.
  - lra.
  - change (10 ^ Z.of_nat 0)%Z with 1%Z. change (inject_Z 1) with 1%Q.
    apply Qabs_Qlt_condition. split; lra.
Qed.

Lemma old_bill_tile_for_whole_rupees_witness :
  exists o,
    calculation (B64.of_Z 6000) 3 0 = Some o
    /\ nth_error (kpi_tiles o) 0
       = Some {| label := "Guest Payable (Old)";
                 value := rupee ++ group (decimal ((112 * 6000 + 50) / 100));
                 delta := None |}.
Proof.
  apply (old_bill_tile_for_whole_rupees 6000 3 0); lia.
Defined.

(** Lines 164-177: which Streamlit call is made follows the sign of
    the absorption, and for an absorption in -5000..5000 the text names
    the amount without sign or decimals, its digits grouped by
    thousands. *)
Theorem recommendation_names_the_amount :
  forall (absorb_rupees : Z) (o : outputs),
    (-5000 <= absorb_rupees <= 5000)%Z ->
    ((0 < absorb_rupees)%Z ->
     exists rest,
       recommendation absorb_rupees o
       = st_info ("You are absorbing ₹" ++ group (decimal absorb_rupees)
                  ++ "/night. Guest pays ₹" ++ rest))
    /\ ((absorb_rupees < 0)%Z ->
        exists rest,
          recommendation absorb_rupees o
          = st_warning ("You are capturing " ++ group (decimal (- absorb_rupees))
                        ++ "/night more profit. Guest pays ₹" ++ rest))
    /\ ((absorb_rupees = 0)%Z ->
        exists text, recommendation absorb_rupees o = st_success text).
Proof.
  intros a o Ha. unfold recommendation. split; [|split]; intros H.
  - replace (a >? 0)%Z with true by (symmetry; apply Z.gtb_lt; lia).
    rewrite format_amount by (change (2 ^ 53)%Z with 9007199254740992%Z; lia).
    eexists. reflexivity.
  - replace (a >? 0)%Z with false by (symmetry; rewrite Z.gtb_ltb; apply Z.ltb_ge; lia).
    replace (a <? 0)%Z with true by (symmetry; apply Z.ltb_lt; lia).
    replace (Z.abs a) with (- a)%Z by lia.
    rewrite format_amount by (change (2 ^ 53)%Z with 9007199254740992%Z; lia).
    eexists. reflexivity.
  - subst a. eexists. reflexivity.
Qed.

Lemma recommendation_names_the_amount_witness :
  exists rest,
    recommendation 200
      {| old_profit := B64.of_Z 6180;
         neutral_base := B64.of_Z 6180;
         chosen := B64.of_Z 5980;
         new_profit_chosen := B64.of_Z 5980;
         guest_old := guest_pay_old (B64.of_Z 6000);
         guest_new_chosen := B64.of_Z 6279;
         guest_delta_chosen :=
           B64.sub (B64.of_Z 6279) (guest_pay_old (B64.of_Z 6000));
         adr_uplift_pct_neutral := S754_finite false 6755399441055750 (-51);
         adr_uplift_pct_chosen :=
           B64.mul (B64.sub (B64.div (B64.of_Z 5980) (B64.of_Z 6000))
                            (B64.of_Z 1))
                   (B64.of_Z 100) |}
    = st_info ("You are absorbing ₹" ++ group (decimal 200)
               ++ "/night. Guest pays ₹" ++ rest).
Proof.
  refine (proj1 (recommendation_names_the_amount 200 _ _) _); lia.
Defined.

(** Where the absorption reaches the old profit, for a base rate
    between 1e-300 and 1e300: [adr_uplift_pct_chosen] is [-100.0], the
    tiles show a bill and a rate of 0 rupees, the guest's delta is the
    old bill with a minus sign, and the uplift reads -100.0%. *)
Theorem floor_is_shown_as_zero :
  forall (base_adr : B64.float) (itc_claim_pp absorb_rupees : Z),
    B64.valid base_adr = true ->
    (B64.rate_min <= B64.B2Q base_adr)%Q ->
    (B64.B2Q base_adr <= B64.rate_max)%Q ->
    (0 <= itc_claim_pp <= 12)%Z ->
    (-5000 <= absorb_rupees <= 5000)%Z ->
    B64.leb (profit_old base_adr (B64.of_Z itc_claim_pp)) (B64.of_Z absorb_rupees)
    = true ->
    exists o,
      calculation base_adr itc_claim_pp absorb_rupees = Some o
      /\ adr_uplift_pct_chosen o = B64.of_Z (-100)
      /\ nth_error (kpi_tiles o) 1
         = Some {| label := "Guest Payable (New @Chosen ADR)";
                   value := "₹0";
                   delta := Some ("-" ++ format_f false true 0 (guest_old o)) |}
      /\ nth_error (kpi_tiles o) 5
         = Some {| label := "Chosen ADR (after absorption/capture)";
                   value := "₹0";
                   delta := Some "-100.0%" |}.
Proof.
  intros base pp a Vb Hlo Hhi Hpp Ha Hle.
  assert (PB : (0 < B64.B2Q base)%Q) by (unfold B64.rate_min in Hlo; lra).
  pose proof (profit_old_valid base pp Vb Hpp) as Vp.
  destruct (absorb_exact a Ha) as (Va & Fa & _).
  assert (E : chosenRate base (B64.of_Z pp) (B64.of_Z a) = B64.zero)
    by (unfold chosenRate; now apply chosen_base_floor).
  eexists. split; [apply calculation_explicit; now apply positive_not_zero|].
  cbn [kpi_tiles nth_error adr_uplift_pct_chosen chosen guest_new_chosen
       guest_delta_chosen guest_old].
  rewrite E.
  assert (EU : B64.mul (B64.sub (B64.div B64.zero base) (B64.of_Z 1)) (B64.of_Z 100)
               = B64.of_Z (-100)).
  { destruct (B64Facts.B2Q_pos_inv base PB) as (m & e & ->). reflexivity. }
  rewrite EU. split; [reflexivity|]. split; [|reflexivity].
  (* the old bill is a positive double *)
  assert (PO : (0 < B64.B2Q (guest_pay_old base))%Q).
  { unfold guest_pay_old. cbn [num_add num_mul num_of_Z B64.num].
    eval_double (B64.add (B64.of_Z 1) OLD_OUTPUT_GST).
    set (c112 := S754_finite false 5044031582654956 (-52)).
    destruct (B64Facts.mul_pos_bounds base c112 Vb eq_refl) as (V1 & L1 & U1);
      try eval_value c112; unfold_bounds; lra. }
  destruct (B64Facts.B2Q_pos_inv _ PO) as (m & e & ->). reflexivity.
Qed.

Lemma floor_is_shown_as_zero_witness :
  exists o,
    calculation (B64.of_Z 1000) 0 5000 = Some o
    /\ adr_uplift_pct_chosen o = B64.of_Z (-100)
    /\ nth_error (kpi_tiles o) 1
       = Some {| label := "Guest Payable (New @Chosen ADR)";
                 value := "₹0";
                 delta := Some ("-" ++ format_f false true 0 (guest_old o)) |}
    /\ nth_error (kpi_tiles o) 5
       = Some {| label := "Chosen ADR (after absorption/capture)";
                 value := "₹0";
                 delta := Some "-100.0%" |}.
Proof.
  apply (floor_is_shown_as_zero (B64.of_Z 1000) 0 5000).
  - vm_compute; reflexivity.
  - vm_compute; discriminate.
  - vm_compute; discriminate.
  - lia.
  - lia.
  - vm_compute; reflexivity.
Defined.

End Shown.
